(** * ZetaVM interpreter core (vm/interp.cpp): a shallow embedding

    The lazy block compiler, the dispatch loop, the call/return frame
    discipline, branch-stub patching and the call gateway of
    [vm/interp.cpp] are embedded as functions over an explicit record of the
    interpreter's global variables.

    Modelling conventions
    - Pointers are integers ([Z]); the null pointer is [0].  [Value*]
      pointers into the value stack are counted in slots, [uint8_t*]
      pointers into the code heap in bytes.
    - The code heap is a finite map from byte addresses to typed cells, one
      cell per [writeCode<T>] call; [readCode<T>] at an address returns the
      cell stored there when it has type [T].  Reading a cell at another
      type, or memory that was never written, is undefined behaviour.
    - A failing [assert], undefined behaviour and [exit] end the process
      ([Halt]); a thrown [RunError] leaves the globals as they were at the
      throw ([Throw]) and can be caught by the embedder.
    - Standard output is not modelled. *)

From stdpp Require Import gmap strings list pretty.
From Stdlib Require Import ZArith Lia.

Local Open Scope Z_scope.

(** ** Values (runtime.h) *)

Inductive Tag : Type :=
  | TAG_UNDEF | TAG_BOOL | TAG_INT32 | TAG_FLOAT32 | TAG_STRING
  | TAG_OBJECT | TAG_ARRAY | TAG_HOSTFN | TAG_RAWPTR.

#[global] Instance Tag_eq_dec : EqDecision Tag.
Proof. solve_decision. Defined.

(** A tagged cell: a 64-bit word and a tag.  For INT32 the word is the signed
    value, for FLOAT32 the bit pattern, for STRING, OBJECT and ARRAY the
    reference, for HOSTFN and RAWPTR the pointer. *)
Record Value : Type := mkValue { word : Z; tag : Tag }.

#[global] Instance Value_eq_dec : EqDecision Value.
Proof. solve_decision. Defined.

Module Val.
Definition UNDEF : Value := mkValue 0 TAG_UNDEF.
Definition FALSE : Value := mkValue 0 TAG_BOOL.
Definition TRUE : Value := mkValue 1 TAG_BOOL.
Definition rawptr (p : Z) : Value := mkValue p TAG_RAWPTR.
Definition str (r : Z) : Value := mkValue r TAG_STRING.
Definition obj (r : Z) : Value := mkValue r TAG_OBJECT.
Definition arr (r : Z) : Value := mkValue r TAG_ARRAY.
Definition ofBool (b : bool) : Value := if b then TRUE else FALSE.

(** Two's-complement wrap-around of a signed integer to [w] bits. *)
Definition wrap_signed (w : Z) (z : Z) : Z :=
  let m := 2 ^ w in
  let r := z mod m in
  if r <? 2 ^ (w - 1) then r else r - m.

Definition int32 (z : Z) : Value := mkValue (wrap_signed 32 z) TAG_INT32.
Definition float32 (bits : Z) : Value := mkValue bits TAG_FLOAT32.

Definition isBool (v : Value) : bool := bool_decide (tag v = TAG_BOOL).
Definition isInt32 (v : Value) : bool := bool_decide (tag v = TAG_INT32).
Definition isFloat32 (v : Value) : bool := bool_decide (tag v = TAG_FLOAT32).
Definition isString (v : Value) : bool := bool_decide (tag v = TAG_STRING).
Definition isObject (v : Value) : bool := bool_decide (tag v = TAG_OBJECT).
Definition isArray (v : Value) : bool := bool_decide (tag v = TAG_ARRAY).
Definition isHostFn (v : Value) : bool := bool_decide (tag v = TAG_HOSTFN).
End Val.

(** Conversions to the unsigned types of the source. *)
Definition to_size_t (z : Z) : Z := z mod 2 ^ 64.
Definition to_uint16 (z : Z) : Z := z mod 2 ^ 16.

(** ** The object heap (runtime.h)

    Strings, objects and arrays live in the garbage-collected heap of the
    runtime and are named by references.  An object keeps its fields in
    slots, in insertion order. *)

Inductive HeapObj : Type :=
  | HString (bytes : string)
  | HObject (fields : list (string * Value))
  | HArray (elems : list Value).

Record Heap : Type := mkHeap { cells : gmap Z HeapObj; brk : Z }.

Module Runtime.
Definition alloc (o : HeapObj) (h : Heap) : Z * Heap :=
  (brk h, mkHeap (<[brk h := o]> (cells h)) (brk h + 1)).

Definition update (r : Z) (o : HeapObj) (h : Heap) : Heap :=
  mkHeap (<[r := o]> (cells h)) (brk h).

Definition getString (h : Heap) (r : Z) : option string :=
  match cells h !! r with Some (HString s) => Some s | _ => None end.

Definition getObject (h : Heap) (r : Z) : option (list (string * Value)) :=
  match cells h !! r with Some (HObject fs) => Some fs | _ => None end.

Definition getArray (h : Heap) (r : Z) : option (list Value) :=
  match cells h !! r with Some (HArray vs) => Some vs | _ => None end.

(** Modelled from the spec: Object::hasField and Object::getField are
    declared in runtime.h; an object is a mapping from field names to
    values with a field existence test and a field read by name. *)
Fixpoint lookupField (name : string) (fs : list (string * Value)) : option Value :=
  match fs with
  | [] => None
  | (k, v) :: fs' => if String.eqb k name then Some v else lookupField name fs'
  end.

Definition hasField (name : string) (fs : list (string * Value)) : bool :=
  match lookupField name fs with Some _ => true | None => false end.

(** Modelled from the spec: Object::setField is declared in runtime.h; a
    field write on a mapping from names to values: the slot of an existing
    field is overwritten, a new field takes the next slot. *)
Fixpoint setField (name : string) (v : Value) (fs : list (string * Value))
  : list (string * Value) :=
  match fs with
  | [] => [(name, v)]
  | (k, w) :: fs' =>
      if String.eqb k name then (k, v) :: fs' else (k, w) :: setField name v fs'
  end.

(** Modelled from the spec: Value::operator== is declared in runtime.h;
    equality is by value on primitive tags, by reference on objects and
    arrays, by byte sequence on strings.  Values of different tags are
    never equal. *)
Definition valueEq (h : Heap) (a b : Value) : bool :=
  bool_decide (tag a = tag b) &&
  match tag a with
  | TAG_STRING =>
      match getString h (word a), getString h (word b) with
      | Some s, Some t => String.eqb s t
      | _, _ => bool_decide (word a = word b)
      end
  | _ => bool_decide (word a = word b)
  end.

(** The byte at an index of a string, as an unsigned number. *)
Definition byteAt (s : string) (i : Z) : option Z :=
  match String.get (Z.to_nat i) s with
  | Some c => Some (Z.of_N (Ascii.N_of_ascii c))
  | None => None
  end.

(** A string built from a NUL-terminated buffer holding one byte. *)
Definition charBuf (ch : Z) : string :=
  if ch =? 0 then EmptyString
  else String (Ascii.ascii_of_N (Z.to_N ch)) EmptyString.
End Runtime.

(** ** Opcodes and the code heap *)

Inductive Opcode : Type :=
  | GET_LOCAL | SET_LOCAL
  | PUSH | POP | DUP | SWAP
  | ADD_I32 | SUB_I32 | MUL_I32 | LT_I32 | LE_I32 | GT_I32 | GE_I32 | EQ_I32
  | ADD_F32 | SUB_F32 | MUL_F32 | DIV_F32
  | LT_F32 | LE_F32 | GT_F32 | GE_F32 | EQ_F32
  | SIN_F32 | COS_F32 | SQRT_F32
  | I32_TO_F32 | F32_TO_I32 | F32_TO_STR | STR_TO_F32
  | EQ_BOOL | HAS_TAG | GET_TAG
  | STR_LEN | GET_CHAR | GET_CHAR_CODE | STR_CAT | EQ_STR
  | NEW_OBJECT | HAS_FIELD | SET_FIELD | GET_FIELD | EQ_OBJ
  | NEW_ARRAY | ARRAY_LEN | ARRAY_PUSH | GET_ELEM | SET_ELEM
  | JUMP | JUMP_STUB | IF_TRUE | CALL | RET | THROW
  | IMPORT | ABORT.

(** One cell per [writeCode<T>]: an opcode, a [Value], a 16-bit immediate
    (stored as its unsigned bit pattern), a [Tag] or a pointer. *)
Inductive Cell : Type :=
  | COp (op : Opcode)
  | CVal (v : Value)
  | CU16 (n : Z)
  | CTag (t : Tag)
  | CPtr (p : Z).

(** [sizeof] of the cell types on an LP64 target.  [Value] and [Tag] are
    declared in runtime.h: a word and a tag padded to 16 bytes, and a
    one-byte enumeration. *)
Definition sizeofCell (c : Cell) : Z :=
  match c with
  | COp _ => 2
  | CVal _ => 16
  | CU16 _ => 2
  | CTag _ => 1
  | CPtr _ => 8
  end.

(** ** Block versions *)

Record BlockVersion : Type := mkBlockVersion {
  startPtr : Z;          (* CodeFragment::startPtr, 0 while not compiled *)
  endPtr : Z;            (* CodeFragment::endPtr *)
  bvFun : Z;             (* BlockVersion::fun *)
  bvBlock : Z            (* BlockVersion::block *)
}.

Record RetEntry : Type := mkRetEntry { excVer : Z }.

Definition CODE_HEAP_INIT_SIZE : Z := 2 ^ 20.
Definition STACK_INIT_SIZE : Z := 2 ^ 16.

(** ** Errors and outcomes *)

(** [RunError] carries its message. *)
Inductive RunError : Type := mkRunError (msg : string).

(** The ways in which the process stops: a failed [assert], undefined
    behaviour (an access outside an array, a dangling pointer), an exception
    that is not a [RunError], [exit] in ABORT.  [OutOfFuel] is not an outcome
    of the program: it marks a run of the model that was cut short. *)
Inductive Fatal : Type :=
  | AssertFailed | Undefined | Uncaught | ProcessExit | OutOfFuel.

Definition dquote : string := String (Ascii.ascii_of_N 34) EmptyString.

Definition quoted (s : string) : string := dquote +:+ s +:+ dquote.

(** The error taxonomy of the interpreter, by message. *)
Module Err.
Definition MissingField (name : string) : RunError :=
  mkRunError ("missing field " +:+ quoted name).
Definition EmptyBlock : RunError := mkRunError "empty basic block".
Definition UnknownOpcode (op : string) : RunError :=
  mkRunError ("unhandled opcode in basic block " +:+ quoted op).
Definition ArgCount (srcPosStr : string) (numArgs numParams : Z) : RunError :=
  mkRunError (srcPosStr +:+ "incorrect argument count in call, received " +:+
              pretty numArgs +:+ ", expected " +:+ pretty numParams).
Definition NotEnoughLocals : RunError :=
  mkRunError "not enough locals to store function parameters".
Definition ArgCountMismatch : RunError := mkRunError "argument count mismatch".
Definition IndexOutOfBounds (op : string) : RunError :=
  mkRunError (op +:+ ", index out of bounds").
Definition InvalidFieldName (name : string) : RunError :=
  mkRunError ("invalid identifier in set_field " +:+ quoted name).
Definition GetFieldMissing (name : string) : RunError :=
  mkRunError ("get_field failed, missing field " +:+ quoted name).
Definition StackUnderflow : RunError := mkRunError "stack underflow at call".
Definition InvalidCallee : RunError := mkRunError "invalid callee at call site".
Definition StackImbalance : RunError :=
  mkRunError "stack size does not match after call termination".
Definition MissingExport (fnName : string) : RunError :=
  mkRunError ("package does not export function " +:+ quoted fnName).
Definition ExportNotFunction (fnName : string) : RunError :=
  mkRunError ("field " +:+ quoted fnName +:+
              " exported by package is not a function").
End Err.

(** ** Collaborators

    The interpreter calls into code it does not define: the helpers of
    core.h ([strToTag], [isValidIdent], [posToString]), the C library's
    float arithmetic and conversions, array creation, the package importer
    and the host functions.  They are taken as an interface.  A collaborator
    sees and may change the object heap; it does not touch the globals of
    the interpreter. *)

Inductive HostRes : Type :=
  | HostOk (v : Value) (h : Heap)
  | HostThrow (e : RunError) (h : Heap)
  | HostHalt (f : Fatal).

Class Host : Type := {
  strToTag : string -> Tag;
  isValidIdent : string -> bool;
  posToString : Heap -> Value -> string;
  f32_add : Z -> Z -> Z;
  f32_sub : Z -> Z -> Z;
  f32_mul : Z -> Z -> Z;
  f32_div : Z -> Z -> Z;
  f32_lt : Z -> Z -> bool;
  f32_le : Z -> Z -> bool;
  f32_gt : Z -> Z -> bool;
  f32_ge : Z -> Z -> bool;
  f32_eq : Z -> Z -> bool;
  f32_sin : Z -> Z;
  f32_cos : Z -> Z;
  f32_sqrt : Z -> Z;
  f32_of_i32 : Z -> Z;
  i32_of_f32 : Z -> Z;
  f32_to_string : Z -> string;
  stof : string -> option Z;
  newArray : Z -> list Value;
  import : string -> Heap -> HostRes;
  hostFnCall : Z -> list Value -> Heap -> HostRes
}.

(** ** The globals of the interpreter *)

Record VM : Type := mkVM {
  heap : Heap;
  codeHeap : Z;
  codeHeapLimit : Z;
  codeHeapAlloc : Z;
  code : gmap Z Cell;                (* contents of the code heap *)
  versionMap : gmap Z (list Z);      (* block reference to its versions *)
  versions : gmap Z BlockVersion;    (* the BlockVersion records, by address *)
  nextVersion : Z;                   (* where [new BlockVersion] allocates next *)
  instrMap : gmap Z Z;
  retAddrMap : gmap Z RetEntry;
  stackLimit : Z;
  stackBase : Z;
  stack : gmap Z Value;              (* contents of the stack array *)
  framePtr : Z;
  stackPtr : Z;
  instrPtr : Z;
  charStrings : list Value
}.

Definition set_heap (x : Heap) (s : VM) : VM :=
  mkVM x (codeHeap s) (codeHeapLimit s) (codeHeapAlloc s) (code s)
    (versionMap s) (versions s) (nextVersion s) (instrMap s) (retAddrMap s)
    (stackLimit s) (stackBase s) (stack s) (framePtr s) (stackPtr s)
    (instrPtr s) (charStrings s).

Definition set_codeHeapAlloc (x : Z) (s : VM) : VM :=
  mkVM (heap s) (codeHeap s) (codeHeapLimit s) x (code s)
    (versionMap s) (versions s) (nextVersion s) (instrMap s) (retAddrMap s)
    (stackLimit s) (stackBase s) (stack s) (framePtr s) (stackPtr s)
    (instrPtr s) (charStrings s).

Definition set_code (x : gmap Z Cell) (s : VM) : VM :=
  mkVM (heap s) (codeHeap s) (codeHeapLimit s) (codeHeapAlloc s) x
    (versionMap s) (versions s) (nextVersion s) (instrMap s) (retAddrMap s)
    (stackLimit s) (stackBase s) (stack s) (framePtr s) (stackPtr s)
    (instrPtr s) (charStrings s).

Definition set_versionMap (x : gmap Z (list Z)) (s : VM) : VM :=
  mkVM (heap s) (codeHeap s) (codeHeapLimit s) (codeHeapAlloc s) (code s)
    x (versions s) (nextVersion s) (instrMap s) (retAddrMap s)
    (stackLimit s) (stackBase s) (stack s) (framePtr s) (stackPtr s)
    (instrPtr s) (charStrings s).

Definition set_versions (x : gmap Z BlockVersion) (s : VM) : VM :=
  mkVM (heap s) (codeHeap s) (codeHeapLimit s) (codeHeapAlloc s) (code s)
    (versionMap s) x (nextVersion s) (instrMap s) (retAddrMap s)
    (stackLimit s) (stackBase s) (stack s) (framePtr s) (stackPtr s)
    (instrPtr s) (charStrings s).

Definition set_nextVersion (x : Z) (s : VM) : VM :=
  mkVM (heap s) (codeHeap s) (codeHeapLimit s) (codeHeapAlloc s) (code s)
    (versionMap s) (versions s) x (instrMap s) (retAddrMap s)
    (stackLimit s) (stackBase s) (stack s) (framePtr s) (stackPtr s)
    (instrPtr s) (charStrings s).

Definition set_instrMap (x : gmap Z Z) (s : VM) : VM :=
  mkVM (heap s) (codeHeap s) (codeHeapLimit s) (codeHeapAlloc s) (code s)
    (versionMap s) (versions s) (nextVersion s) x (retAddrMap s)
    (stackLimit s) (stackBase s) (stack s) (framePtr s) (stackPtr s)
    (instrPtr s) (charStrings s).

Definition set_retAddrMap (x : gmap Z RetEntry) (s : VM) : VM :=
  mkVM (heap s) (codeHeap s) (codeHeapLimit s) (codeHeapAlloc s) (code s)
    (versionMap s) (versions s) (nextVersion s) (instrMap s) x
    (stackLimit s) (stackBase s) (stack s) (framePtr s) (stackPtr s)
    (instrPtr s) (charStrings s).

Definition set_stack (x : gmap Z Value) (s : VM) : VM :=
  mkVM (heap s) (codeHeap s) (codeHeapLimit s) (codeHeapAlloc s) (code s)
    (versionMap s) (versions s) (nextVersion s) (instrMap s) (retAddrMap s)
    (stackLimit s) (stackBase s) x (framePtr s) (stackPtr s)
    (instrPtr s) (charStrings s).

Definition set_framePtr (x : Z) (s : VM) : VM :=
  mkVM (heap s) (codeHeap s) (codeHeapLimit s) (codeHeapAlloc s) (code s)
    (versionMap s) (versions s) (nextVersion s) (instrMap s) (retAddrMap s)
    (stackLimit s) (stackBase s) (stack s) x (stackPtr s)
    (instrPtr s) (charStrings s).

Definition set_stackPtr (x : Z) (s : VM) : VM :=
  mkVM (heap s) (codeHeap s) (codeHeapLimit s) (codeHeapAlloc s) (code s)
    (versionMap s) (versions s) (nextVersion s) (instrMap s) (retAddrMap s)
    (stackLimit s) (stackBase s) (stack s) (framePtr s) x
    (instrPtr s) (charStrings s).

Definition set_instrPtr (x : Z) (s : VM) : VM :=
  mkVM (heap s) (codeHeap s) (codeHeapLimit s) (codeHeapAlloc s) (code s)
    (versionMap s) (versions s) (nextVersion s) (instrMap s) (retAddrMap s)
    (stackLimit s) (stackBase s) (stack s) (framePtr s) (stackPtr s)
    x (charStrings s).

Definition set_charStrings (x : list Value) (s : VM) : VM :=
  mkVM (heap s) (codeHeap s) (codeHeapLimit s) (codeHeapAlloc s) (code s)
    (versionMap s) (versions s) (nextVersion s) (instrMap s) (retAddrMap s)
    (stackLimit s) (stackBase s) (stack s) (framePtr s) (stackPtr s)
    (instrPtr s) x.

(** ** The monad of interpreter code: state, [RunError]s, process end *)

Inductive Res (A : Type) : Type :=
  | Ok (a : A) (s : VM)
  | Throw (e : RunError) (s : VM)
  | Halt (f : Fatal).

Arguments Ok {A} a s.
Arguments Throw {A} e s.
Arguments Halt {A} f.

Definition M (A : Type) : Type := VM -> Res A.

Definition ret {A} (a : A) : M A := fun s => Ok a s.

Definition bind {A B} (m : M A) (k : A -> M B) : M B :=
  fun s =>
    match m s with
    | Ok a s' => k a s'
    | Throw e s' => Throw e s'
    | Halt f => Halt f
    end.

Declare Scope vm_scope.
Delimit Scope vm_scope with vm.
Notation "x <- m ;; k" := (bind m (fun x => k))
  (at level 100, m at next level, right associativity) : vm_scope.
Notation "m ;; k" := (bind m (fun _ => k))
  (at level 100, right associativity) : vm_scope.
Local Open Scope vm_scope.

Definition throw {A} (e : RunError) : M A := fun s => Throw e s.
Definition halt {A} (f : Fatal) : M A := fun _ => Halt f.
Definition gets {A} (f : VM -> A) : M A := fun s => Ok (f s) s.
Definition modify (f : VM -> VM) : M unit := fun s => Ok tt (f s).

(** [assert (b)]. *)
Definition assert (b : bool) : M unit :=
  if b then ret tt else halt AssertFailed.

(** An access that is only defined when [o] is. *)
Definition defined {A} (o : option A) : M A :=
  match o with Some a => ret a | None => halt Undefined end.

(** A call into a collaborator. *)
Definition callHost (f : Heap -> HostRes) : M Value :=
  fun s =>
    match f (heap s) with
    | HostOk v h => Ok v (set_heap h s)
    | HostThrow e h => Throw e (set_heap h s)
    | HostHalt x => Halt x
    end.

(** ** Code heap and stack primitives *)

(** [template <typename T> void writeCode(T val)] *)
Definition writeCode (c : Cell) : M unit :=
  a <- gets codeHeapAlloc ;;
  lim <- gets codeHeapLimit ;;
  assert (a <? lim) ;;
  modify (fun s => set_code (<[a := c]> (code s)) s) ;;
  modify (set_codeHeapAlloc (a + sizeofCell c)) ;;
  assert (a + sizeofCell c <=? lim).

(** [template <typename T> T& readCode()]: the address read and the cell
    found there. *)
Definition readCode (size : Z) : M (Z * Cell) :=
  ip <- gets instrPtr ;;
  lim <- gets codeHeapLimit ;;
  assert (ip + size <=? lim) ;;
  modify (set_instrPtr (ip + size)) ;;
  mem <- gets code ;;
  c <- defined (mem !! ip) ;;
  ret (ip, c).

Definition readOpcode : M (Z * Opcode) :=
  r <- readCode 2 ;;
  match r.2 with COp o => ret (r.1, o) | _ => halt Undefined end.

Definition readValue : M Value :=
  r <- readCode 16 ;;
  match r.2 with CVal v => ret v | _ => halt Undefined end.

Definition readU16 : M Z :=
  r <- readCode 2 ;;
  match r.2 with CU16 n => ret n | _ => halt Undefined end.

Definition readTag : M Tag :=
  r <- readCode 1 ;;
  match r.2 with CTag t => ret t | _ => halt Undefined end.

Definition readPtr : M (Z * Z) :=
  r <- readCode 8 ;;
  match r.2 with CPtr p => ret (r.1, p) | _ => halt Undefined end.

(** A write through a reference obtained from [readCode]. *)
Definition patchCode (a : Z) (c : Cell) : M unit :=
  modify (fun s => set_code (<[a := c]> (code s)) s).

(** The stack array is [new Value[STACK_INIT_SIZE]]; its elements start as
    default-constructed values, [Value::FALSE] (the value the
    single-character cache tests for).  Accesses outside the array are
    undefined. *)
Definition inStack (s : VM) (a : Z) : bool :=
  (stackLimit s <=? a) && (a <? stackBase s).

(** The value in a slot of the stack array. *)
Definition stackAt (s : VM) (a : Z) : Value :=
  default Val.FALSE (stack s !! a).

Definition loadStack (a : Z) : M Value :=
  fun s => if inStack s a then Ok (stackAt s a) s else Halt Undefined.

Definition storeStack (a : Z) (v : Value) : M unit :=
  fun s =>
    if inStack s a then Ok tt (set_stack (<[a := v]> (stack s)) s)
    else Halt Undefined.

Definition pushVal (val : Value) : M unit :=
  sp <- gets stackPtr ;;
  lim <- gets stackLimit ;;
  assert (lim <? sp) ;;
  modify (set_stackPtr (sp - 1)) ;;
  storeStack (sp - 1) val.

Definition pushBool (val : bool) : M unit := pushVal (Val.ofBool val).

Definition popVal : M Value :=
  sp <- gets stackPtr ;;
  base <- gets stackBase ;;
  assert (sp <? base) ;;
  val <- loadStack sp ;;
  modify (set_stackPtr (sp + 1)) ;;
  ret val.

Definition popBool : M bool :=
  val <- popVal ;;
  assert (Val.isBool val) ;;
  ret (negb (word val =? 0)).

Definition popInt32 : M Z :=
  val <- popVal ;;
  assert (Val.isInt32 val) ;;
  ret (Val.wrap_signed 32 (word val)).

Definition popFloat32 : M Z :=
  val <- popVal ;;
  assert (Val.isFloat32 val) ;;
  ret (word val).

(** The bytes of the string a value refers to. *)
Definition stringOf (val : Value) : M string :=
  assert (Val.isString val) ;;
  h <- gets heap ;;
  defined (Runtime.getString h (word val)).

Definition popStr : M string :=
  val <- popVal ;;
  stringOf val.

Definition popObj : M Z :=
  val <- popVal ;;
  assert (Val.isObject val) ;;
  ret (word val).

(** [Array(Value)] *)
Definition arrayOf (val : Value) : M Z :=
  assert (Val.isArray val) ;;
  ret (word val).

Definition objFields (obj : Z) : M (list (string * Value)) :=
  h <- gets heap ;;
  defined (Runtime.getObject h obj).

Definition arrElems (arr : Z) : M (list Value) :=
  h <- gets heap ;;
  defined (Runtime.getArray h arr).

Definition newString (bytes : string) : M Value :=
  h <- gets heap ;;
  let r := Runtime.alloc (HString bytes) h in
  modify (set_heap r.2) ;;
  ret (Val.str r.1).

(** [size_t stackSize()] *)
Definition stackSizeOf (s : VM) : Z := to_size_t (stackBase s - stackPtr s).

Definition stackSize : M Z := gets stackSizeOf.

(** [void initInterp()]; the three arguments are the addresses at which the
    allocator places the code heap, the stack array and the first
    [BlockVersion]. *)
Definition initInterp (codeAddr stackAddr versionAddr : Z) (h : Heap) : VM :=
  mkVM h codeAddr (codeAddr + CODE_HEAP_INIT_SIZE) codeAddr ∅
    ∅ ∅ versionAddr ∅ ∅
    stackAddr (stackAddr + STACK_INIT_SIZE) ∅ 0 (stackAddr + STACK_INIT_SIZE)
    0 (replicate 256 Val.FALSE).

(** ** Inline caches

    [ICache::getField] looks the field up by name; the cached slot index
    only decides where [Object::getField] probes first and is not
    represented. *)
Module ICache.
Definition getField (fieldName : string) (obj : Z) : M Value :=
  fs <- objFields obj ;;
  match Runtime.lookupField fieldName fs with
  | Some val => ret val
  | None => throw (Err.MissingField fieldName)
  end.

Definition getInt32 (fieldName : string) (obj : Z) : M Z :=
  val <- getField fieldName obj ;;
  assert (Val.isInt32 val) ;;
  ret (Val.wrap_signed 32 (word val)).

Definition getStr (fieldName : string) (obj : Z) : M string :=
  val <- getField fieldName obj ;;
  stringOf val.

Definition getObj (fieldName : string) (obj : Z) : M Z :=
  val <- getField fieldName obj ;;
  assert (Val.isObject val) ;;
  ret (word val).

Definition getArr (fieldName : string) (obj : Z) : M Z :=
  val <- getField fieldName obj ;;
  assert (Val.isArray val) ;;
  ret (word val).
End ICache.

(** ** Block versions and the block compiler *)

(** Dereference of a [BlockVersion*]. *)
Definition versionAt (version : Z) : M BlockVersion :=
  vs <- gets versions ;;
  defined (vs !! version).

Definition sizeofBlockVersion : Z := 48.

(** [new BlockVersion(fun, block)] *)
Definition newBlockVersion (fn block : Z) : M Z :=
  a <- gets nextVersion ;;
  modify (fun s => set_versions (<[a := mkBlockVersion 0 0 fn block]> (versions s)) s) ;;
  modify (set_nextVersion (a + sizeofBlockVersion)) ;;
  ret a.

(** [BlockVersion* getBlockVersion(Object fun, Object block)] *)
Definition getBlockVersion (fn block : Z) : M Z :=
  vm <- gets versionMap ;;
  match vm !! block with
  | None =>
      modify (fun s => set_versionMap (<[block := []]> (versionMap s)) s) ;;
      newVersion <- newBlockVersion fn block ;;
      modify (fun s =>
        set_versionMap
          (<[block := default [] (versionMap s !! block) ++ [newVersion]]>
             (versionMap s)) s) ;;
      ret newVersion
  | Some vers =>
      assert (bool_decide (length vers = 1%nat)) ;;
      version <- defined (vers !! 0%nat) ;;
      bv <- versionAt version ;;
      assert (bvFun bv =? fn) ;;
      ret version
  end.

Definition setStartPtr (version : Z) (p : Z) : M unit :=
  bv <- versionAt version ;;
  modify (fun s =>
    set_versions
      (<[version := mkBlockVersion p (endPtr bv) (bvFun bv) (bvBlock bv)]>
         (versions s)) s).

Definition setEndPtr (version : Z) (p : Z) : M unit :=
  bv <- versionAt version ;;
  modify (fun s =>
    set_versions
      (<[version := mkBlockVersion (startPtr bv) p (bvFun bv) (bvBlock bv)]>
         (versions s)) s).

Section Interp.
Context {host : Host}.

(** The body of the loop of [compile], for one instruction. *)
Definition compileInstr (version : Z) (instrVal : Value) : M unit :=
  assert (Val.isObject instrVal) ;;
  let instr := word instrVal in
  op <- ICache.getStr "op" instr ;;
  instrPtr <- gets codeHeapAlloc ;;
  if (op =? "push")%string then
    val <- ICache.getField "val" instr ;;
    writeCode (COp PUSH) ;; writeCode (CVal val)
  else if (op =? "pop")%string then writeCode (COp POP)
  else if (op =? "dup")%string then
    idx <- ICache.getInt32 "idx" instr ;;
    writeCode (COp DUP) ;; writeCode (CU16 (to_uint16 idx))
  else if (op =? "swap")%string then writeCode (COp SWAP)
  else if (op =? "get_local")%string then
    idx <- ICache.getInt32 "idx" instr ;;
    writeCode (COp GET_LOCAL) ;; writeCode (CU16 (to_uint16 idx))
  else if (op =? "set_local")%string then
    idx <- ICache.getInt32 "idx" instr ;;
    writeCode (COp SET_LOCAL) ;; writeCode (CU16 (to_uint16 idx))
  else if (op =? "add_i32")%string then writeCode (COp ADD_I32)
  else if (op =? "sub_i32")%string then writeCode (COp SUB_I32)
  else if (op =? "mul_i32")%string then writeCode (COp MUL_I32)
  else if (op =? "lt_i32")%string then writeCode (COp LT_I32)
  else if (op =? "le_i32")%string then writeCode (COp LE_I32)
  else if (op =? "gt_i32")%string then writeCode (COp GT_I32)
  else if (op =? "ge_i32")%string then writeCode (COp GE_I32)
  else if (op =? "eq_i32")%string then writeCode (COp EQ_I32)
  else if (op =? "add_f32")%string then writeCode (COp ADD_F32)
  else if (op =? "sub_f32")%string then writeCode (COp SUB_F32)
  else if (op =? "mul_f32")%string then writeCode (COp MUL_F32)
  else if (op =? "div_f32")%string then writeCode (COp DIV_F32)
  else if (op =? "lt_f32")%string then writeCode (COp LT_F32)
  else if (op =? "le_f32")%string then writeCode (COp LE_F32)
  else if (op =? "gt_f32")%string then writeCode (COp GT_F32)
  else if (op =? "ge_f32")%string then writeCode (COp GE_F32)
  else if (op =? "eq_f32")%string then writeCode (COp EQ_F32)
  else if (op =? "sin_f32")%string then writeCode (COp SIN_F32)
  else if (op =? "cos_f32")%string then writeCode (COp COS_F32)
  else if (op =? "sqrt_f32")%string then writeCode (COp SQRT_F32)
  else if (op =? "i32_to_f32")%string then writeCode (COp I32_TO_F32)
  else if (op =? "f32_to_i32")%string then writeCode (COp F32_TO_I32)
  else if (op =? "f32_to_str")%string then writeCode (COp F32_TO_STR)
  else if (op =? "str_to_f32")%string then writeCode (COp STR_TO_F32)
  else if (op =? "eq_bool")%string then writeCode (COp EQ_BOOL)
  else if (op =? "has_tag")%string then
    tagStr <- ICache.getStr "tag" instr ;;
    writeCode (COp HAS_TAG) ;; writeCode (CTag (strToTag tagStr))
  else if (op =? "str_len")%string then writeCode (COp STR_LEN)
  else if (op =? "get_char")%string then writeCode (COp GET_CHAR)
  else if (op =? "get_char_code")%string then writeCode (COp GET_CHAR_CODE)
  else if (op =? "str_cat")%string then writeCode (COp STR_CAT)
  else if (op =? "eq_str")%string then writeCode (COp EQ_STR)
  else if (op =? "new_object")%string then writeCode (COp NEW_OBJECT)
  else if (op =? "has_field")%string then writeCode (COp HAS_FIELD)
  else if (op =? "set_field")%string then writeCode (COp SET_FIELD)
  else if (op =? "get_field")%string then writeCode (COp GET_FIELD)
  else if (op =? "new_array")%string then writeCode (COp NEW_ARRAY)
  else if (op =? "array_len")%string then writeCode (COp ARRAY_LEN)
  else if (op =? "array_push")%string then writeCode (COp ARRAY_PUSH)
  else if (op =? "set_elem")%string then writeCode (COp SET_ELEM)
  else if (op =? "get_elem")%string then writeCode (COp GET_ELEM)
  else if (op =? "eq_obj")%string then writeCode (COp EQ_OBJ)
  else if (op =? "jump")%string then
    dstBB <- ICache.getObj "to" instr ;;
    bv <- versionAt version ;;
    dstVer <- getBlockVersion (bvFun bv) dstBB ;;
    writeCode (COp JUMP_STUB) ;; writeCode (CPtr dstVer)
  else if (op =? "if_true")%string then
    thenBB <- ICache.getObj "then" instr ;;
    elseBB <- ICache.getObj "else" instr ;;
    bv <- versionAt version ;;
    thenVer <- getBlockVersion (bvFun bv) thenBB ;;
    elseVer <- getBlockVersion (bvFun bv) elseBB ;;
    writeCode (COp IF_TRUE) ;; writeCode (CPtr thenVer) ;; writeCode (CPtr elseVer)
  else if (op =? "call")%string then
    modify (fun s => set_instrMap (<[instrPtr := version]> (instrMap s)) s) ;;
    numArgs <- ICache.getInt32 "num_args" instr ;;
    retToBB <- ICache.getObj "ret_to" instr ;;
    bv <- versionAt version ;;
    retVer <- getBlockVersion (bvFun bv) retToBB ;;
    fs <- objFields instr ;;
    excVer <-
      (if Runtime.hasField "throw_to" fs then
         throwBB <- ICache.getObj "throw_to" instr ;;
         getBlockVersion (bvFun bv) throwBB
       else ret 0) ;;
    modify (fun s =>
      set_retAddrMap (<[retVer := mkRetEntry excVer]> (retAddrMap s)) s) ;;
    writeCode (COp CALL) ;; writeCode (CU16 (to_uint16 numArgs)) ;;
    writeCode (CPtr retVer)
  else if (op =? "ret")%string then writeCode (COp RET)
  else if (op =? "throw")%string then
    modify (fun s => set_instrMap (<[instrPtr := version]> (instrMap s)) s) ;;
    writeCode (COp THROW)
  else if (op =? "import")%string then writeCode (COp IMPORT)
  else if (op =? "abort")%string then
    modify (fun s => set_instrMap (<[instrPtr := version]> (instrMap s)) s) ;;
    writeCode (COp ABORT)
  else throw (Err.UnknownOpcode op).

(** The loop of [compile] over the elements of [instrs]; the heap does not
    change while a block is compiled, so the array is read once. *)
Fixpoint compileInstrs (version : Z) (instrs : list Value) : M unit :=
  match instrs with
  | [] => ret tt
  | instrVal :: rest =>
      compileInstr version instrVal ;; compileInstrs version rest
  end.

(** [void compile(BlockVersion* version)] *)
Definition compile (version : Z) : M unit :=
  bv <- versionAt version ;;
  let block := bvBlock bv in
  instrs <- ICache.getArr "instrs" block ;;
  elems <- arrElems instrs ;;
  if bool_decide (length elems = 0%nat) then throw Err.EmptyBlock
  else
    a <- gets codeHeapAlloc ;;
    setStartPtr version a ;;
    compileInstrs version elems ;;
    a' <- gets codeHeapAlloc ;;
    setEndPtr version a'.

(** [if (!version->startPtr) compile(version);], as every branch, call and
    return of the interpreter loop does before it jumps to a version. *)
Definition ensureCompiled (version : Z) : M unit :=
  bv <- versionAt version ;;
  if startPtr bv =? 0 then compile version else ret tt.

(** ** Calls *)

(** The reverse traversal of [getSrcPos]; [instrs] is the array read from
    its last element to its first. *)
Fixpoint scanSrcPos (instrs : list Value) : M Value :=
  match instrs with
  | [] => ret Val.UNDEF
  | instrVal :: rest =>
      assert (Val.isObject instrVal) ;;
      fs <- objFields (word instrVal) ;;
      match Runtime.lookupField "src_pos" fs with
      | Some pos => ret pos
      | None => scanSrcPos rest
      end
  end.

(** [Value getSrcPos(uint8_t* instrPtr)] *)
Definition getSrcPos (instrAddr : Z) : M Value :=
  im <- gets instrMap ;;
  match im !! instrAddr with
  | None => ret Val.UNDEF
  | Some version =>
      bv <- versionAt version ;;
      instrs <- ICache.getArr "instrs" (bvBlock bv) ;;
      elems <- arrElems instrs ;;
      assert (bool_decide (0 < length elems)%nat) ;;
      scanSrcPos (rev elems)
  end.

(** [void checkArgCount(uint8_t* instrPtr, size_t numParams, size_t numArgs)] *)
Definition checkArgCount (instrAddr numParams numArgs : Z) : M unit :=
  srcPos <- getSrcPos instrAddr ;;
  if bool_decide (numArgs ≠ numParams) then
    h <- gets heap ;;
    let srcPosStr :=
      if Val.isObject srcPos then posToString h srcPos +:+ " - "
      else EmptyString in
    throw (Err.ArgCount srcPosStr numArgs numParams)
  else ret tt.

(** [void funCall(uint8_t* callInstr, Object fun, size_t numArgs,
    BlockVersion* retVer)].  Past the two argument checks [numLocals -
    numArgs] is not negative, so the unsigned subtraction is exact. *)
Definition funCall (callInstr fn numArgs retVer : Z) : M unit :=
  entryBB <- ICache.getObj "entry" fn ;;
  entryVer <- getBlockVersion fn entryBB ;;
  ensureCompiled entryVer ;;
  numLocals <- ICache.getInt32 "num_locals" fn ;;
  numParams <- ICache.getInt32 "num_params" fn ;;
  checkArgCount callInstr (to_size_t numParams) numArgs ;;
  if numLocals <? numParams then throw Err.NotEnoughLocals
  else if bool_decide (numArgs ≠ to_size_t numParams) then
    throw Err.ArgCountMismatch
  else
    sp <- gets stackPtr ;;
    let prevStackPtr := sp + numArgs in
    prevFramePtr <- gets framePtr ;;
    lim <- gets stackLimit ;;
    assert (lim <? sp) ;;
    modify (set_framePtr (sp + numArgs - 1)) ;;
    modify (set_stackPtr (sp - (numLocals - numArgs))) ;;
    pushVal (Val.rawptr prevStackPtr) ;;
    pushVal (Val.rawptr prevFramePtr) ;;
    pushVal (Val.rawptr retVer) ;;
    bv <- versionAt entryVer ;;
    modify (set_instrPtr (startPtr bv)).

(** The arguments of a host call, first argument first: [*args],
    [*(args - 1)], [*(args - 2)]. *)
Fixpoint hostArgs (args : Z) (n : nat) : M (list Value) :=
  match n with
  | O => ret []
  | S n' =>
      v <- loadStack args ;;
      vs <- hostArgs (args - 1) n' ;;
      ret (v :: vs)
  end.

(** [void hostCall(uint8_t* callInstr, Value fun, size_t numArgs,
    BlockVersion* retVer)].  A host function is run as a collaborator; one
    that calls back into [callFun] is outside this model. *)
Definition hostCall (callInstr : Z) (fn : Value) (numArgs retVer : Z) : M unit :=
  let hostFn := word fn in
  sp <- gets stackPtr ;;
  let args := sp + numArgs - 1 in
  retVal <-
    (if numArgs <=? 3 then
       argv <- hostArgs args (Z.to_nat numArgs) ;;
       callHost (hostFnCall hostFn argv)
     else halt AssertFailed) ;;
  sp' <- gets stackPtr ;;
  modify (set_stackPtr (sp' + numArgs)) ;;
  pushVal retVal ;;
  ensureCompiled retVer ;;
  bv <- versionAt retVer ;;
  modify (set_instrPtr (startPtr bv)).

(** ** The interpreter loop *)

Definition binInt32 (f : Z -> Z -> Value) : M (option Value) :=
  arg1 <- popInt32 ;;
  arg0 <- popInt32 ;;
  pushVal (f arg0 arg1) ;;
  ret None.

Definition binFloat32 (f : Z -> Z -> Value) : M (option Value) :=
  arg1 <- popFloat32 ;;
  arg0 <- popFloat32 ;;
  pushVal (f arg0 arg1) ;;
  ret None.

Definition unFloat32 (f : Z -> Z) : M (option Value) :=
  arg <- popFloat32 ;;
  pushVal (Val.float32 (f arg)) ;;
  ret None.

(** The patching of one target of a branch: the word at [addr], read as
    [target], is a [BlockVersion*] while it lies outside the code heap. *)
Definition branchTo (addr target : Z) : M unit :=
  lo <- gets codeHeap ;;
  hi <- gets codeHeapLimit ;;
  if (target <? lo) || (hi <=? target) then
    ensureCompiled target ;;
    bv <- versionAt target ;;
    patchCode addr (CPtr (startPtr bv)) ;;
    modify (set_instrPtr (startPtr bv))
  else modify (set_instrPtr target).

(** The [switch (op)] of [execCode]: one instruction, whose opcode [op] was
    read at [opAddr].  The result is the returned value when the loop is
    left by a top-level RET, and [None] when the loop goes on. *)
Definition execInstr (opAddr : Z) (op : Opcode) : M (option Value) :=
  match op with
  | PUSH =>
      val <- readValue ;;
      pushVal val ;; ret None
  | POP => popVal ;; ret None
  | DUP =>
      idx <- readU16 ;;
      sp <- gets stackPtr ;;
      val <- loadStack (sp + idx) ;;
      pushVal val ;; ret None
  | SWAP =>
      v0 <- popVal ;;
      v1 <- popVal ;;
      pushVal v0 ;;
      pushVal v1 ;; ret None
  | SET_LOCAL =>
      localIdx <- readU16 ;;
      sp <- gets stackPtr ;;
      lim <- gets stackLimit ;;
      assert (lim <? sp) ;;
      val <- popVal ;;
      fp <- gets framePtr ;;
      storeStack (fp - localIdx) val ;; ret None
  | GET_LOCAL =>
      localIdx <- readU16 ;;
      sp <- gets stackPtr ;;
      lim <- gets stackLimit ;;
      assert (lim <? sp) ;;
      fp <- gets framePtr ;;
      val <- loadStack (fp - localIdx) ;;
      pushVal val ;; ret None
  | ADD_I32 => binInt32 (fun arg0 arg1 => Val.int32 (arg0 + arg1))
  | SUB_I32 => binInt32 (fun arg0 arg1 => Val.int32 (arg0 - arg1))
  | MUL_I32 => binInt32 (fun arg0 arg1 => Val.int32 (arg0 * arg1))
  | LT_I32 => binInt32 (fun arg0 arg1 => Val.ofBool (arg0 <? arg1))
  | LE_I32 => binInt32 (fun arg0 arg1 => Val.ofBool (arg0 <=? arg1))
  | GT_I32 => binInt32 (fun arg0 arg1 => Val.ofBool (arg0 >? arg1))
  | GE_I32 => binInt32 (fun arg0 arg1 => Val.ofBool (arg0 >=? arg1))
  | EQ_I32 => binInt32 (fun arg0 arg1 => Val.ofBool (arg0 =? arg1))
  | ADD_F32 => binFloat32 (fun arg0 arg1 => Val.float32 (f32_add arg0 arg1))
  | SUB_F32 => binFloat32 (fun arg0 arg1 => Val.float32 (f32_sub arg0 arg1))
  | MUL_F32 => binFloat32 (fun arg0 arg1 => Val.float32 (f32_mul arg0 arg1))
  | DIV_F32 => binFloat32 (fun arg0 arg1 => Val.float32 (f32_div arg0 arg1))
  | LT_F32 => binFloat32 (fun arg0 arg1 => Val.ofBool (f32_lt arg0 arg1))
  | LE_F32 => binFloat32 (fun arg0 arg1 => Val.ofBool (f32_le arg0 arg1))
  | GT_F32 => binFloat32 (fun arg0 arg1 => Val.ofBool (f32_gt arg0 arg1))
  | GE_F32 => binFloat32 (fun arg0 arg1 => Val.ofBool (f32_ge arg0 arg1))
  | EQ_F32 => binFloat32 (fun arg0 arg1 => Val.ofBool (f32_eq arg0 arg1))
  | SIN_F32 => unFloat32 f32_sin
  | COS_F32 => unFloat32 f32_cos
  | SQRT_F32 => unFloat32 f32_sqrt
  | I32_TO_F32 =>
      arg0 <- popInt32 ;;
      pushVal (Val.float32 (f32_of_i32 arg0)) ;; ret None
  | F32_TO_I32 =>
      arg0 <- popFloat32 ;;
      pushVal (Val.int32 (i32_of_f32 arg0)) ;; ret None
  | F32_TO_STR =>
      arg0 <- popFloat32 ;;
      str <- newString (f32_to_string arg0) ;;
      pushVal str ;; ret None
  | STR_TO_F32 =>
      arg0 <- popStr ;;
      match stof arg0 with
      | Some f => pushVal (Val.float32 f) ;; ret None
      | None => halt Uncaught
      end
  | EQ_BOOL =>
      arg1 <- popBool ;;
      arg0 <- popBool ;;
      pushBool (eqb arg0 arg1) ;; ret None
  | HAS_TAG =>
      testTag <- readTag ;;
      val <- popVal ;;
      pushBool (bool_decide (tag val = testTag)) ;; ret None
  | STR_LEN =>
      str <- popStr ;;
      pushVal (Val.int32 (Z.of_nat (String.length str))) ;; ret None
  | GET_CHAR =>
      i <- popInt32 ;;
      let idx := to_size_t i in
      str <- popStr ;;
      if Z.of_nat (String.length str) <=? idx then
        throw (Err.IndexOutOfBounds "get_char")
      else
        ch <- defined (Runtime.byteAt str idx) ;;
        cs <- gets charStrings ;;
        cached <- defined (cs !! Z.to_nat ch) ;;
        h <- gets heap ;;
        (if Runtime.valueEq h cached Val.FALSE then
           s1 <- newString (Runtime.charBuf ch) ;;
           modify (fun s =>
             set_charStrings (<[Z.to_nat ch := s1]> (charStrings s)) s)
         else ret tt) ;;
        cs' <- gets charStrings ;;
        val <- defined (cs' !! Z.to_nat ch) ;;
        pushVal val ;; ret None
  | GET_CHAR_CODE =>
      i <- popInt32 ;;
      let idx := to_size_t i in
      str <- popStr ;;
      if Z.of_nat (String.length str) <=? idx then
        throw (Err.IndexOutOfBounds "get_char_code")
      else
        ch <- defined (Runtime.byteAt str idx) ;;
        pushVal (Val.int32 ch) ;; ret None
  | STR_CAT =>
      a <- popStr ;;
      b <- popStr ;;
      c <- newString (b +:+ a) ;;
      pushVal c ;; ret None
  | EQ_STR =>
      arg1 <- popStr ;;
      arg0 <- popStr ;;
      pushBool (String.eqb arg0 arg1) ;; ret None
  | NEW_OBJECT =>
      capacity <- popInt32 ;;
      h <- gets heap ;;
      let r := Runtime.alloc (HObject []) h in
      modify (set_heap r.2) ;;
      pushVal (Val.obj r.1) ;; ret None
  | HAS_FIELD =>
      fieldName <- popStr ;;
      obj <- popObj ;;
      fs <- objFields obj ;;
      pushBool (Runtime.hasField fieldName fs) ;; ret None
  | SET_FIELD =>
      val <- popVal ;;
      fieldName <- popStr ;;
      obj <- popObj ;;
      if negb (isValidIdent fieldName) then
        throw (Err.InvalidFieldName fieldName)
      else
        fs <- objFields obj ;;
        modify (fun s =>
          set_heap
            (Runtime.update obj (HObject (Runtime.setField fieldName val fs))
               (heap s)) s) ;;
        ret None
  | GET_FIELD =>
      fieldName <- popStr ;;
      obj <- popObj ;;
      fs <- objFields obj ;;
      if negb (Runtime.hasField fieldName fs) then
        throw (Err.GetFieldMissing fieldName)
      else
        val <- defined (Runtime.lookupField fieldName fs) ;;
        pushVal val ;; ret None
  | EQ_OBJ =>
      arg1 <- popVal ;;
      arg0 <- popVal ;;
      h <- gets heap ;;
      pushBool (Runtime.valueEq h arg0 arg1) ;; ret None
  | NEW_ARRAY =>
      len <- popInt32 ;;
      h <- gets heap ;;
      let r := Runtime.alloc (HArray (newArray len)) h in
      modify (set_heap r.2) ;;
      pushVal (Val.arr r.1) ;; ret None
  | ARRAY_LEN =>
      v <- popVal ;;
      arr <- arrayOf v ;;
      elems <- arrElems arr ;;
      pushVal (Val.int32 (Z.of_nat (length elems))) ;; ret None
  | ARRAY_PUSH =>
      val <- popVal ;;
      v <- popVal ;;
      arr <- arrayOf v ;;
      elems <- arrElems arr ;;
      modify (fun s =>
        set_heap (Runtime.update arr (HArray (elems ++ [val])) (heap s)) s) ;;
      ret None
  | SET_ELEM =>
      val <- popVal ;;
      i <- popInt32 ;;
      let idx := to_size_t i in
      v <- popVal ;;
      arr <- arrayOf v ;;
      elems <- arrElems arr ;;
      if Z.of_nat (length elems) <=? idx then
        throw (Err.IndexOutOfBounds "set_elem")
      else
        modify (fun s =>
          set_heap
            (Runtime.update arr (HArray (<[Z.to_nat idx := val]> elems))
               (heap s)) s) ;;
        ret None
  | GET_ELEM =>
      i <- popInt32 ;;
      let idx := to_size_t i in
      v <- popVal ;;
      arr <- arrayOf v ;;
      elems <- arrElems arr ;;
      if Z.of_nat (length elems) <=? idx then
        throw (Err.IndexOutOfBounds "get_elem")
      else
        val <- defined (elems !! Z.to_nat idx) ;;
        pushVal val ;; ret None
  | JUMP_STUB =>
      dst <- readPtr ;;
      let dstVer := dst.2 in
      ensureCompiled dstVer ;;
      bv <- versionAt dstVer ;;
      patchCode opAddr (COp JUMP) ;;
      patchCode dst.1 (CPtr (startPtr bv)) ;;
      modify (set_instrPtr (startPtr bv)) ;; ret None
  | JUMP =>
      dst <- readPtr ;;
      modify (set_instrPtr dst.2) ;; ret None
  | IF_TRUE =>
      thenAddr <- readPtr ;;
      elseAddr <- readPtr ;;
      arg0 <- popVal ;;
      h <- gets heap ;;
      (if Runtime.valueEq h arg0 Val.TRUE then branchTo thenAddr.1 thenAddr.2
       else branchTo elseAddr.1 elseAddr.2) ;;
      ret None
  | CALL =>
      numArgs <- readU16 ;;
      retVer <- readPtr ;;
      callee <- popVal ;;
      sz <- stackSize ;;
      if sz <? numArgs then throw Err.StackUnderflow
      else if Val.isObject callee then
        funCall opAddr (word callee) numArgs retVer.2 ;; ret None
      else if Val.isHostFn callee then
        hostCall opAddr callee numArgs retVer.2 ;; ret None
      else throw Err.InvalidCallee
  | RET =>
      retVal <- popVal ;;
      retVer <- popVal ;;
      prevFramePtr <- popVal ;;
      prevStackPtr <- popVal ;;
      modify (set_framePtr (word prevFramePtr)) ;;
      modify (set_stackPtr (word prevStackPtr)) ;;
      if word retVer =? 0 then ret (Some retVal)
      else
        pushVal retVal ;;
        ensureCompiled (word retVer) ;;
        bv <- versionAt (word retVer) ;;
        modify (set_instrPtr (startPtr bv)) ;;
        ret None
  | THROW =>
      retVal <- popVal ;;
      halt AssertFailed
  | IMPORT =>
      v <- popVal ;;
      pkgName <- stringOf v ;;
      pkg <- callHost (import pkgName) ;;
      pushVal pkg ;; ret None
  | ABORT =>
      errMsg <- popStr ;;
      srcPos <- getSrcPos opAddr ;;
      halt ProcessExit
  | GET_TAG => halt AssertFailed
  end.

(** One turn of the [for (;;)] loop of [execCode]. *)
Definition step : M (option Value) :=
  r <- readOpcode ;;
  execInstr r.1 r.2.

Fixpoint execLoop (fuel : nat) : M Value :=
  match fuel with
  | O => halt OutOfFuel
  | S fuel' =>
      r <- step ;;
      match r with
      | Some retVal => ret retVal
      | None => execLoop fuel'
      end
  end.

(** [Value execCode()], cut after [fuel] instructions. *)
Definition execCode (fuel : nat) : M Value :=
  ip <- gets instrPtr ;;
  lo <- gets codeHeap ;;
  hi <- gets codeHeapLimit ;;
  assert (lo <=? ip) ;;
  assert (ip <? hi) ;;
  execLoop fuel.

(** ** The call gateway *)

(** The copy of the arguments into the locals, [framePtr[-i] = args[i]]. *)
Fixpoint copyArgs (i : Z) (args : list Value) : M unit :=
  match args with
  | [] => ret tt
  | arg :: rest =>
      fp <- gets framePtr ;;
      storeStack (fp - i) arg ;;
      copyArgs (i + 1) rest
  end.

(** [callFun] up to the call of [execCode]; the result is [preCallSz]. *)
Definition callFunEnter (fn : Z) (args : list Value) : M Z :=
  numParams <- ICache.getInt32 "num_params" fn ;;
  numLocals <- ICache.getInt32 "num_locals" fn ;;
  assert (Z.of_nat (length args) <=? to_size_t numParams) ;;
  assert (numParams <=? numLocals) ;;
  preCallSz <- stackSize ;;
  ip <- gets instrPtr ;;
  pushVal (Val.rawptr ip) ;;
  prevStackPtr <- gets stackPtr ;;
  prevFramePtr <- gets framePtr ;;
  modify (set_framePtr (prevStackPtr - 1)) ;;
  modify (set_stackPtr (prevStackPtr - numLocals)) ;;
  sp <- gets stackPtr ;;
  lim <- gets stackLimit ;;
  assert (lim <=? sp) ;;
  pushVal (Val.rawptr prevStackPtr) ;;
  pushVal (Val.rawptr prevFramePtr) ;;
  pushVal (Val.rawptr 0) ;;
  copyArgs 0 args ;;
  entryBlock <- ICache.getObj "entry" fn ;;
  entryVer <- getBlockVersion fn entryBlock ;;
  compile entryVer ;;
  bv <- versionAt entryVer ;;
  assert (negb (startPtr bv =? 0)) ;;
  assert (negb (endPtr bv =? 0)) ;;
  assert (0 <? to_size_t (endPtr bv - startPtr bv)) ;;
  modify (set_instrPtr (startPtr bv)) ;;
  ret preCallSz.

(** [callFun] after [execCode] has returned. *)
Definition callFunLeave (preCallSz : Z) (retVal : Value) : M Value :=
  saved <- popVal ;;
  modify (set_instrPtr (word saved)) ;;
  sz <- stackSize ;;
  if bool_decide (sz ≠ preCallSz) then throw Err.StackImbalance
  else ret retVal.

(** [Value callFun(Object fun, ValueVec args)] *)
Definition callFun (fuel : nat) (fn : Z) (args : list Value) : M Value :=
  preCallSz <- callFunEnter fn args ;;
  retVal <- execCode fuel ;;
  callFunLeave preCallSz retVal.

(** [Value callExportFn(Object pkg, std::string fnName, ValueVec args)] *)
Definition callExportFn (fuel : nat) (pkg : Z) (fnName : string)
    (args : list Value) : M Value :=
  fs <- objFields pkg ;;
  if negb (Runtime.hasField fnName fs) then throw (Err.MissingExport fnName)
  else
    fnVal <- defined (Runtime.lookupField fnName fs) ;;
    if negb (Val.isObject fnVal) then throw (Err.ExportNotFunction fnName)
    else callFun fuel (word fnVal) args.

End Interp.

(** ** Runs of the machine

    What can happen to the globals between two observations: an instruction
    of the loop, the entry or the exit sequence of [callFun], or the embedder
    (or a collaborator) building and changing objects.  A [RunError] leaves
    the globals as they are, and the embedder may go on from there. *)
Inductive event `{Host} (s s' : VM) : Prop :=
  | ev_step r : step s = Ok r s' -> event s s'
  | ev_step_throw e : step s = Throw e s' -> event s s'
  | ev_enter fn args sz : callFunEnter fn args s = Ok sz s' -> event s s'
  | ev_enter_throw fn args e : callFunEnter fn args s = Throw e s' -> event s s'
  | ev_leave sz v r : callFunLeave sz v s = Ok r s' -> event s s'
  | ev_leave_throw sz v e : callFunLeave sz v s = Throw e s' -> event s s'
  | ev_heap h : s' = set_heap h s -> event s s'.

Definition reach `{Host} : relation VM := rtc event.

(** The state after [n] instructions that all let the loop go on. *)
Fixpoint run `{Host} (n : nat) (s : VM) : option VM :=
  match n with
  | O => Some s
  | S n' =>
      match step s with
      | Ok None s' => run n' s'
      | _ => None
      end
  end.

(** ** Invariants of the code heap and of the version records *)

Record Inv (s : VM) : Prop := mkInv {
  inv_heap_pos : 0 < codeHeap s;
  inv_alloc_lo : codeHeap s <= codeHeapAlloc s;
  (* every cell lies below the allocation pointer *)
  inv_cells : forall a c, code s !! a = Some c ->
    a + sizeofCell c <= codeHeapAlloc s;
  (* no cell starts inside another one *)
  inv_disjoint : forall a c b, code s !! a = Some c ->
    a < b < a + sizeofCell c -> code s !! b = None;
  (* a start pointer points into the code heap *)
  inv_start : forall v bv, versions s !! v = Some bv -> startPtr bv ≠ 0 ->
    codeHeap s <= startPtr bv;
  (* version records lie below the next allocation *)
  inv_fresh : forall v bv, versions s !! v = Some bv -> v < nextVersion s;
  (* a block has at most one version *)
  inv_one : forall b vers, versionMap s !! b = Some vers ->
    (length vers <= 1)%nat
}.

(** What never changes again once it holds. *)
Record Ext (s s' : VM) : Prop := mkExt {
  ext_heap : codeHeap s' = codeHeap s;
  ext_limit : codeHeapLimit s' = codeHeapLimit s;
  ext_alloc : codeHeapAlloc s <= codeHeapAlloc s';
  ext_jump : forall a, code s !! a = Some (COp JUMP) ->
    code s' !! a = Some (COp JUMP);
  ext_target : forall a p, code s !! a = Some (COp JUMP) ->
    code s !! (a + 2) = Some (CPtr p) -> code s' !! (a + 2) = Some (CPtr p);
  ext_chars : forall i v, charStrings s !! i = Some v -> v ≠ Val.FALSE ->
    charStrings s' !! i = Some v
}.

(** The part of the state the invariants speak about. *)
Definition core (s : VM) :=
  (codeHeap s, codeHeapLimit s, codeHeapAlloc s, code s, versions s,
   nextVersion s, versionMap s, charStrings s).

Definition Same : relation VM := fun s s' => core s' = core s.

Definition Sound : relation VM := fun s s' => Inv s -> Inv s' /\ Ext s s'.

(** Code is only appended and version records are only added. *)
Record Grow (s s' : VM) : Prop := mkGrow {
  grow_code : forall a, a < codeHeapAlloc s -> code s' !! a = code s !! a;
  grow_versions : forall v bv, versions s !! v = Some bv ->
    versions s' !! v = Some bv
}.

Definition Strong : relation VM :=
  fun s s' => Inv s -> Inv s' /\ Ext s s' /\ Grow s s'.

(** A version that has a start pointer keeps its record as it is. *)
Definition Keep (s s' : VM) : Prop :=
  forall v bv, versions s !! v = Some bv -> startPtr bv ≠ 0 ->
    versions s' !! v = Some bv.

Definition Keeps : relation VM :=
  fun s s' => Inv s -> Inv s' /\ Ext s s' /\ Keep s s'.

(** The effect of compiling version [v]: code is appended and the records of
    the other versions stay. *)
Record GrowBut (v : Z) (s s' : VM) : Prop := mkGrowBut {
  growbut_code : forall a, a < codeHeapAlloc s -> code s' !! a = code s !! a;
  growbut_versions : forall w bw, w ≠ v -> versions s !! w = Some bw ->
    versions s' !! w = Some bw
}.

Definition Compiles (v : Z) : relation VM :=
  fun s s' => Inv s -> Inv s' /\ Ext s s' /\ GrowBut v s s'.

Definition post {A} (r : Res A) (Q : VM -> Prop) : Prop :=
  match r with
  | Ok _ s | Throw _ s => Q s
  | Halt _ => True
  end.

Definition respects (R : relation VM) {A} (m : M A) : Prop :=
  forall s, post (m s) (R s).

(** What the block compiler leaves alone: the object heap, the stack and the
    registers of the loop. *)
Definition frame (s : VM) :=
  (heap s, stackLimit s, stackBase s, stack s, framePtr s, stackPtr s,
   instrPtr s, charStrings s, codeHeap s, codeHeapLimit s).

Definition Frame : relation VM := fun s s' => frame s' = frame s.

(** * Example images

    A collaborator interface that does nothing of interest and an image with
    a few small functions, used to run the model on concrete inputs. *)
Module Example.
Definition host : Host := {|
  strToTag := fun _ => TAG_UNDEF;
  isValidIdent := fun _ => true;
  posToString := fun _ _ => "file@1:1"%string;
  f32_add := Z.add; f32_sub := Z.sub; f32_mul := Z.mul; f32_div := Z.div;
  f32_lt := Z.ltb; f32_le := Z.leb; f32_gt := Z.gtb; f32_ge := Z.geb;
  f32_eq := Z.eqb;
  f32_sin := id; f32_cos := id; f32_sqrt := id;
  f32_of_i32 := id; i32_of_f32 := id;
  f32_to_string := fun _ => "0.000000"%string;
  stof := fun _ => Some 0;
  newArray := fun _ => [];
  import := fun _ h => HostThrow (mkRunError "no such package") h;
  hostFnCall := fun _ _ h => HostOk Val.UNDEF h
|}.

Definition instr (op : Z) (fields : list (string * Value)) : HeapObj :=
  HObject (("op"%string, Val.str op) :: fields).

Definition block (instrs : Z) : HeapObj :=
  HObject [("instrs"%string, Val.arr instrs)].

Definition function (entry numParams numLocals : Z) : HeapObj :=
  HObject [("entry"%string, Val.obj entry);
           ("num_params"%string, Val.int32 numParams);
           ("num_locals"%string, Val.int32 numLocals)].

Definition image : Heap :=
  mkHeap (list_to_map [
    (* opcode names and other strings *)
    (1, HString "push"); (2, HString "ret"); (3, HString "call");
    (4, HString "jump"); (5, HString "get_local");
    (6, HString "new_object"); (7, HString "set_field");
    (8, HString "get_field"); (9, HString "get_char");
    (10, HString "if_true"); (11, HString "x"); (12, HString "ab");
    (13, HString "pop");
    (* main1: push 777; ret *)
    (20, instr 1 [("val"%string, Val.int32 777)]);
    (21, instr 2 []);
    (22, HArray [Val.obj 20; Val.obj 21]);
    (23, block 22);
    (24, function 23 0 0);
    (* f(x): get_local 0; ret *)
    (30, instr 5 [("idx"%string, Val.int32 0)]);
    (31, HArray [Val.obj 30; Val.obj 21]);
    (32, block 31);
    (33, function 32 1 1);
    (* main2: push 5; push f; call 1 -> (ret) *)
    (34, instr 1 [("val"%string, Val.int32 5)]);
    (35, instr 1 [("val"%string, Val.obj 33)]);
    (36, instr 3 [("num_args"%string, Val.int32 1);
                  ("ret_to"%string, Val.obj 39);
                  ("src_pos"%string, Val.obj 40)]);
    (37, HArray [Val.obj 34; Val.obj 35; Val.obj 36]);
    (38, block 37);
    (39, block 41);
    (40, HObject []);
    (41, HArray [Val.obj 21]);
    (42, function 38 0 0);
    (* main3: push 5; push g; call 1, where g has one parameter and no
       local *)
    (50, function 32 1 0);
    (51, instr 1 [("val"%string, Val.obj 50)]);
    (52, HArray [Val.obj 34; Val.obj 51; Val.obj 36]);
    (53, block 52);
    (54, function 53 0 0);
    (* main4: push 5; push h; call 1, where h has two parameters *)
    (55, function 32 2 2);
    (56, instr 1 [("val"%string, Val.obj 55)]);
    (57, HArray [Val.obj 34; Val.obj 56; Val.obj 36]);
    (58, block 57);
    (59, function 58 0 0);
    (* main5: jump -> (push 777; ret) *)
    (60, instr 4 [("to"%string, Val.obj 23)]);
    (61, HArray [Val.obj 60]);
    (62, block 61);
    (63, function 62 0 0);
    (* main6: push 0; new_object; push x; push 7; set_field; push 0; ret *)
    (70, instr 1 [("val"%string, Val.int32 0)]);
    (71, instr 6 []);
    (72, instr 1 [("val"%string, Val.str 11)]);
    (73, instr 1 [("val"%string, Val.int32 7)]);
    (74, instr 7 []);
    (75, instr 8 []);
    (76, HArray [Val.obj 70; Val.obj 71; Val.obj 72; Val.obj 73;
                 Val.obj 74; Val.obj 70; Val.obj 21]);
    (77, block 76);
    (78, function 77 0 0);
    (* main7: push 0; new_object; push x; get_field *)
    (79, HArray [Val.obj 70; Val.obj 71; Val.obj 72; Val.obj 75]);
    (80, block 79);
    (81, function 80 0 0);
    (* main8: push f; call 10 *)
    (82, instr 3 [("num_args"%string, Val.int32 10);
                  ("ret_to"%string, Val.obj 39)]);
    (83, HArray [Val.obj 35; Val.obj 82]);
    (84, block 83);
    (85, function 84 0 0);
    (* main9: push ab; push 0; get_char; pop;
              push ab; push 0; get_char; ret *)
    (86, instr 1 [("val"%string, Val.str 12)]);
    (87, instr 9 []);
    (88, HArray [Val.obj 86; Val.obj 70; Val.obj 87; Val.obj 99;
                 Val.obj 86; Val.obj 70; Val.obj 87; Val.obj 21]);
    (89, block 88);
    (90, function 89 0 0);
    (* main10: push 5; if_true (ret) (push 777; ret) *)
    (91, instr 10 [("then"%string, Val.obj 39);
                   ("else"%string, Val.obj 23)]);
    (92, HArray [Val.obj 34; Val.obj 91]);
    (93, block 92);
    (94, function 93 0 0);
    (* main11: push 5; call 0 *)
    (95, instr 3 [("num_args"%string, Val.int32 0);
                  ("ret_to"%string, Val.obj 39)]);
    (96, HArray [Val.obj 34; Val.obj 95]);
    (97, block 96);
    (98, function 97 0 0);
    (99, instr 13 [])
  ]) 100.

Definition main1 : Z := 24.
Definition main2 : Z := 42.
Definition main4 : Z := 59.
Definition main6 : Z := 78.
Definition main7 : Z := 81.
Definition main8 : Z := 85.
Definition main9 : Z := 90.
Definition main10 : Z := 94.
Definition main11 : Z := 98.

(** The interpreter after [initInterp], with the image loaded. *)
Definition vm0 : VM := initInterp 4096 2097152 4194304 image.

(** The state in which [callFun fn] enters the loop. *)
Definition entered (fn : Z) : VM :=
  match callFunEnter (host := host) fn [] vm0 with
  | Ok _ s => s
  | _ => vm0
  end.

(** The state a computation ends in. *)
Definition state {A} (r : Res A) : VM :=
  match r with
  | Ok _ s | Throw _ s => s
  | Halt _ => vm0
  end.

(** The state [n] instructions later. *)
Definition after (n : nat) (fn : Z) : VM :=
  match run (H := host) n (entered fn) with
  | Some s => s
  | None => vm0
  end.
End Example.

(** ** Predicates on computations *)

(** Every [RunError] that [m] can throw satisfies [P]. *)
Definition throws (P : RunError -> Prop) {A} (m : M A) : Prop :=
  forall s e s', m s = Throw e s' -> P e.

(** An instruction object without a position. *)
Definition unplaced (s : VM) (j : Value) : Prop :=
  tag j = TAG_OBJECT /\
  exists jfs, Runtime.getObject (heap s) (word j) = Some jfs /\
    Runtime.lookupField "src_pos" jfs = None.

(** A second image: host functions, arrays, locals, a block with an
    instruction the compiler does not know, a call without a position. *)
Module Example2.
Definition host : Host := {|
  strToTag := fun _ => TAG_UNDEF;
  isValidIdent := fun _ => true;
  posToString := fun _ _ => "file@2:7"%string;
  f32_add := Z.add; f32_sub := Z.sub; f32_mul := Z.mul; f32_div := Z.div;
  f32_lt := Z.ltb; f32_le := Z.leb; f32_gt := Z.gtb; f32_ge := Z.geb;
  f32_eq := Z.eqb;
  f32_sin := id; f32_cos := id; f32_sqrt := id;
  f32_of_i32 := id; i32_of_f32 := id;
  f32_to_string := fun _ => "0.000000"%string;
  stof := fun _ => Some 0;
  newArray := fun _ => [];
  import := fun _ h => HostThrow (mkRunError "no such package") h;
  (* host function 1 returns its first argument, the others throw *)
  hostFnCall := fun f args h =>
    if f =? 1 then HostOk (default Val.UNDEF (head args)) h
    else HostThrow (mkRunError "host function failed") h
|}.

Definition hostFn (p : Z) : Value := mkValue p TAG_HOSTFN.

Definition image : Heap :=
  mkHeap (list_to_map [
    (1, HString "push"); (2, HString "ret"); (3, HString "call");
    (4, HString "frob"); (5, HString "get_elem"); (6, HString "set_elem");
    (7, HString "add_i32"); (8, HString "set_local");
    (9, HString "get_local"); (10, HString "x");
    (* (ret), a source position, and a second block (ret) *)
    (20, Example.instr 2 []);
    (21, HArray [Val.obj 20]);
    (22, Example.block 21);
    (23, HObject []);
    (24, HArray [Val.obj 20]);
    (25, Example.block 24);
    (* bad: push 1; frob *)
    (30, Example.instr 1 [("val"%string, Val.int32 1)]);
    (31, Example.instr 4 []);
    (32, HArray [Val.obj 30; Val.obj 31]);
    (33, Example.block 32);
    (34, Example.function 33 0 0);
    (* hostcall2: push 10; push 20; push host function 1; call 2 -> (ret) *)
    (40, Example.instr 1 [("val"%string, Val.int32 10)]);
    (41, Example.instr 1 [("val"%string, Val.int32 20)]);
    (42, Example.instr 1 [("val"%string, hostFn 1)]);
    (43, Example.instr 3 [("num_args"%string, Val.int32 2);
                          ("ret_to"%string, Val.obj 22)]);
    (44, HArray [Val.obj 40; Val.obj 41; Val.obj 42; Val.obj 43]);
    (45, Example.block 44);
    (46, Example.function 45 0 0);
    (* hostcall4: four pushes; push host function 1; call 4 -> (ret) *)
    (51, Example.instr 3 [("num_args"%string, Val.int32 4);
                          ("ret_to"%string, Val.obj 22)]);
    (52, HArray [Val.obj 40; Val.obj 41; Val.obj 40; Val.obj 41;
                 Val.obj 42; Val.obj 51]);
    (53, Example.block 52);
    (54, Example.function 53 0 0);
    (* hostthrow: push host function 2; call 0 -> (ret) *)
    (55, Example.instr 1 [("val"%string, hostFn 2)]);
    (56, Example.instr 3 [("num_args"%string, Val.int32 0);
                          ("ret_to"%string, Val.obj 22)]);
    (57, HArray [Val.obj 55; Val.obj 56]);
    (58, Example.block 57);
    (59, Example.function 58 0 0);
    (* getelem: push [7, 8, 9]; push 1; get_elem; ret *)
    (60, HArray [Val.int32 7; Val.int32 8; Val.int32 9]);
    (61, Example.instr 1 [("val"%string, Val.arr 60)]);
    (62, Example.instr 1 [("val"%string, Val.int32 1)]);
    (63, Example.instr 5 []);
    (64, HArray [Val.obj 61; Val.obj 62; Val.obj 63; Val.obj 20]);
    (65, Example.block 64);
    (66, Example.function 65 0 0);
    (* getelem_neg: push [7, 8, 9]; push -1; get_elem; ret *)
    (67, Example.instr 1 [("val"%string, Val.int32 (-1))]);
    (68, HArray [Val.obj 61; Val.obj 67; Val.obj 63; Val.obj 20]);
    (69, Example.block 68);
    (70, Example.function 69 0 0);
    (* setelem: push [7, 8, 9]; push 1; push 42; set_elem; push 0; ret *)
    (71, Example.instr 1 [("val"%string, Val.int32 42)]);
    (72, Example.instr 6 []);
    (73, Example.instr 1 [("val"%string, Val.int32 0)]);
    (74, HArray [Val.obj 61; Val.obj 62; Val.obj 71; Val.obj 72;
                 Val.obj 73; Val.obj 20]);
    (75, Example.block 74);
    (76, Example.function 75 0 0);
    (* addbad: push 1; push "x"; add_i32; ret *)
    (80, Example.instr 1 [("val"%string, Val.str 10)]);
    (81, Example.instr 7 []);
    (82, HArray [Val.obj 30; Val.obj 80; Val.obj 81; Val.obj 20]);
    (83, Example.block 82);
    (84, Example.function 83 0 0);
    (* locals, one local: push 5; set_local 0; get_local 0; ret *)
    (85, Example.instr 1 [("val"%string, Val.int32 5)]);
    (86, Example.instr 8 [("idx"%string, Val.int32 0)]);
    (87, Example.instr 9 [("idx"%string, Val.int32 0)]);
    (88, HArray [Val.obj 85; Val.obj 86; Val.obj 87; Val.obj 20]);
    (89, Example.block 88);
    (90, Example.function 89 0 1);
    (* srcpos: push 5 (with a position); push h; call 1 (without one),
       where h has two parameters *)
    (91, Example.instr 1 [("val"%string, Val.int32 5);
                          ("src_pos"%string, Val.obj 23)]);
    (92, Example.function 25 2 2);
    (93, Example.instr 1 [("val"%string, Val.obj 92)]);
    (94, Example.instr 3 [("num_args"%string, Val.int32 1);
                          ("ret_to"%string, Val.obj 22)]);
    (95, HArray [Val.obj 91; Val.obj 93; Val.obj 94]);
    (96, Example.block 95);
    (97, Example.function 96 0 0);
    (* a package *)
    (98, HObject [("main"%string, Val.obj 90);
                  ("version"%string, Val.int32 1)])
  ]) 100.

Definition bad : Z := 34.
Definition hostcall2 : Z := 46.
Definition hostcall4 : Z := 54.
Definition hostthrow : Z := 59.
Definition getelem : Z := 66.
Definition getelem_neg : Z := 70.
Definition setelem : Z := 76.
Definition addbad : Z := 84.
Definition locals : Z := 90.
Definition srcpos : Z := 97.
Definition pkg : Z := 98.

Definition vm0 : VM := initInterp 4096 2097152 4194304 image.

(** The state in which [callFun fn] enters the loop. *)
Definition entered (fn : Z) : VM :=
  Example.state (callFunEnter (host := host) fn [] vm0).

(** The state [n] instructions later. *)
Definition after (n : nat) (fn : Z) : VM :=
  match run (H := host) n (entered fn) with
  | Some s => s
  | None => vm0
  end.
End Example2.

(** A third image: a call without its operand, and a call of a function
    whose entry block is empty. *)
Module Example3.
Definition image : Heap :=
  mkHeap (list_to_map [
    (1, HString "push"); (2, HString "ret"); (3, HString "call");
    (4, HString "get_local");
    (* (ret) *)
    (20, Example.instr 2 []);
    (21, HArray [Val.obj 20]);
    (22, Example.block 21);
    (* f(x): get_local 0; ret *)
    (30, Example.instr 4 [("idx"%string, Val.int32 0)]);
    (31, HArray [Val.obj 30; Val.obj 20]);
    (32, Example.block 31);
    (33, Example.function 32 1 1);
    (* under: push f; call 1 -> (ret), nothing pushed for the argument *)
    (40, Example.instr 1 [("val"%string, Val.obj 33)]);
    (41, Example.instr 3 [("num_args"%string, Val.int32 1);
                          ("ret_to"%string, Val.obj 22)]);
    (42, HArray [Val.obj 40; Val.obj 41]);
    (43, Example.block 42);
    (44, Example.function 43 0 0);
    (* emptyentry: push e; call 0 -> (ret), where the entry block of e has
       no instruction *)
    (50, HArray []);
    (51, Example.block 50);
    (52, Example.function 51 0 0);
    (53, Example.instr 1 [("val"%string, Val.obj 52)]);
    (54, Example.instr 3 [("num_args"%string, Val.int32 0);
                          ("ret_to"%string, Val.obj 22)]);
    (55, HArray [Val.obj 53; Val.obj 54]);
    (56, Example.block 55);
    (57, Example.function 56 0 0)
  ]) 100.

Definition under : Z := 44.

Definition vm0 : VM := initInterp 4096 2097152 4194304 image.

(** The state in which [callFun fn] enters the loop. *)
Definition entered (fn : Z) : VM :=
  Example.state (callFunEnter (host := Example.host) fn [] vm0).

(** The state [n] instructions later. *)
Definition after (n : nat) (fn : Z) : VM :=
  match run (H := Example.host) n (entered fn) with
  | Some s => s
  | None => vm0
  end.
End Example3.

(** * Proofs *)

Lemma sizeofCell_pos c : 0 < sizeofCell c.
Proof. destruct c; reflexivity. Qed.

(** ** Reasoning about monadic code *)

Lemma bind_Ok_inv {A B} (m : M A) (k : A -> M B) s b s' :
  bind m k s = Ok b s' -> exists a s1, m s = Ok a s1 /\ k a s1 = Ok b s'.
Proof. unfold bind. destruct (m s); [eauto | discriminate | discriminate]. Qed.

Lemma bind_Throw_inv {A B} (m : M A) (k : A -> M B) s e s' :
  bind m k s = Throw e s' ->
  m s = Throw e s' \/ exists a s1, m s = Ok a s1 /\ k a s1 = Throw e s'.
Proof.
  unfold bind. destruct (m s) as [a s1|e1 s1|f]; [eauto | | discriminate].
  intros [= -> ->]. by left.
Qed.

Lemma post_mono {A} (r : Res A) (Q Q' : VM -> Prop) :
  (forall s, Q s -> Q' s) -> post r Q -> post r Q'.
Proof. destruct r; simpl; auto. Qed.

Section Respects.
Context (R : relation VM) `{!PreOrder R}.

Lemma respects_ret {A} (a : A) : respects R (ret a).
Proof. intros s. simpl. reflexivity. Qed.

Lemma respects_bind {A B} (m : M A) (k : A -> M B) :
  respects R m -> (forall a, respects R (k a)) -> respects R (bind m k).
Proof.
  intros Hm Hk s. unfold bind. specialize (Hm s).
  destruct (m s) as [a s1|e s1|f]; simpl in *; [|done..].
  specialize (Hk a s1). destruct (k a s1); simpl in *; [| |done];
    by etrans.
Qed.

Lemma respects_throw {A} e : respects R (@throw A e).
Proof. intros s. simpl. reflexivity. Qed.

Lemma respects_halt {A} f : respects R (@halt A f).
Proof. intros s. exact I. Qed.

Lemma respects_gets {A} (f : VM -> A) : respects R (gets f).
Proof. intros s. simpl. reflexivity. Qed.

Lemma respects_assert b : respects R (assert b).
Proof. destruct b; [apply respects_ret | apply respects_halt]. Qed.

Lemma respects_defined {A} (o : option A) : respects R (defined o).
Proof. destruct o; [apply respects_ret | apply respects_halt]. Qed.

Lemma respects_modify f : (forall s, R s (f s)) -> respects R (modify f).
Proof. intros Hf s. apply Hf. Qed.
End Respects.

Lemma respects_weaken (R R' : relation VM) {A} (m : M A) :
  (forall s s', R s s' -> R' s s') -> respects R m -> respects R' m.
Proof. intros HR Hm s. eapply post_mono; [apply HR | apply Hm]. Qed.

#[global] Instance Same_preorder : PreOrder Same.
Proof.
  split; [by intros s|]. intros s1 s2 s3 H1 H2. unfold Same in *. congruence.
Qed.

#[global] Instance Ext_preorder : PreOrder Ext.
Proof.
  split.
  - intros s. by split.
  - intros s1 s2 s3 [] []. split; try congruence; try lia; eauto.
Qed.

#[global] Instance Sound_preorder : PreOrder Sound.
Proof.
  split; [by intros s Hs|]. intros s1 s2 s3 H1 H2 Hs.
  destruct (H1 Hs) as [Hs2 He1]. destruct (H2 Hs2) as [Hs3 He2].
  split; [done | by etrans].
Qed.

#[global] Instance Strong_preorder : PreOrder Strong.
Proof.
  split; [by intros s Hs|]. intros s1 s2 s3 H1 H2 Hs.
  destruct (H1 Hs) as (Hs2 & He1 & [Hc1 Hv1]).
  destruct (H2 Hs2) as (Hs3 & He2 & [Hc2 Hv2]).
  split; [done|]. split; [by etrans|]. split; [|by eauto].
  intros a Ha. rewrite Hc2; [by apply Hc1|]. destruct He1. lia.
Qed.

Lemma Same_Strong s s' : Same s s' -> Strong s s'.
Proof.
  unfold Same, core. intros [= E1 E2 E3 E4 E5 E6 E7 E8] [].
  split; [|split].
  - split; rewrite ?E1, ?E2, ?E3, ?E4, ?E5, ?E6, ?E7, ?E8; done.
  - split; rewrite ?E1, ?E2, ?E3, ?E4, ?E5, ?E6, ?E7, ?E8; auto; lia.
  - split; rewrite ?E4, ?E5; auto.
Qed.

Lemma Strong_Sound s s' : Strong s s' -> Sound s s'.
Proof. intros H Hs. destruct (H Hs) as (? & ? & ?). done. Qed.

#[global] Instance Keeps_preorder : PreOrder Keeps.
Proof.
  split; [intros s Hs; split; [done|]; split; [reflexivity|by intros v bv]|].
  intros s1 s2 s3 H1 H2 Hs.
  destruct (H1 Hs) as (Hs2 & He1 & Hk1).
  destruct (H2 Hs2) as (Hs3 & He2 & Hk2).
  split; [done|]. split; [by etrans|]. intros v bv Hv Hb. eauto.
Qed.

#[global] Instance Compiles_preorder v : PreOrder (Compiles v).
Proof.
  split; [by intros s Hs|]. intros s1 s2 s3 H1 H2 Hs.
  destruct (H1 Hs) as (Hs2 & He1 & [Hc1 Hv1]).
  destruct (H2 Hs2) as (Hs3 & He2 & [Hc2 Hv2]).
  split; [done|]. split; [by etrans|]. split; [|by eauto].
  intros a Ha. rewrite Hc2; [by apply Hc1|]. destruct He1. lia.
Qed.

Lemma Strong_Keeps s s' : Strong s s' -> Keeps s s'.
Proof.
  intros H Hs. destruct (H Hs) as (? & ? & [? Hv]).
  split; [done|]. split; [done|]. intros v bv ? _. by apply Hv.
Qed.

Lemma Keeps_Sound s s' : Keeps s s' -> Sound s s'.
Proof. intros H Hs. destruct (H Hs) as (? & ? & ?). done. Qed.

Lemma Strong_Compiles v s s' : Strong s s' -> Compiles v s s'.
Proof.
  intros H Hs. destruct (H Hs) as (? & ? & [? Hv]).
  split; [done|]. split; [done|]. split; [done|]. intros w bw _. apply Hv.
Qed.

Lemma Compiles_Sound v s s' : Compiles v s s' -> Sound s s'.
Proof. intros H Hs. destruct (H Hs) as (? & ? & ?). done. Qed.

Lemma respects_at R {A} (m : M A) s : respects R m -> post (m s) (R s).
Proof. auto. Qed.

Lemma respects_Ok R {A} (m : M A) s a s' :
  respects R m -> m s = Ok a s' -> R s s'.
Proof. intros Hm E. specialize (Hm s). by rewrite E in Hm. Qed.

Lemma respects_Throw R {A} (m : M A) s e s' :
  respects R m -> m s = Throw e s' -> R s s'.
Proof. intros Hm E. specialize (Hm s). by rewrite E in Hm. Qed.

Lemma respects_gets_bind R {A B} (f : VM -> A) (k : A -> M B) :
  (forall s, post (k (f s) s) (R s)) -> respects R (bind (gets f) k).
Proof. intros Hk s. apply Hk. Qed.

Lemma post_bind {A B} (m : M A) (k : A -> M B) s (Q : VM -> Prop) :
  (forall e s1, m s = Throw e s1 -> Q s1) ->
  (forall a s1, m s = Ok a s1 -> post (k a s1) Q) ->
  post (bind m k s) Q.
Proof.
  intros Ht Hk. unfold bind. destruct (m s) as [a s1|e s1|f]; simpl; eauto.
Qed.

(** Decomposition of a monadic term along its binds and case distinctions;
    [leaf] closes what is left. *)
Ltac respects_struct leaf :=
  lazymatch goal with
  | |- respects _ (bind _ _) =>
      apply respects_bind;
      [tc_solve | respects_struct leaf | intros ?; respects_struct leaf]
  | |- respects _ (ret _) => apply respects_ret; tc_solve
  | |- respects _ (throw _) => apply respects_throw; tc_solve
  | |- respects _ (halt _) => apply respects_halt
  | |- respects _ (gets _) => apply respects_gets; tc_solve
  | |- respects _ (assert _) => apply respects_assert; tc_solve
  | |- respects _ (defined _) => apply respects_defined; tc_solve
  | |- respects _ (match ?x with _ => _ end) =>
      destruct x; respects_struct leaf
  | |- respects _ (let _ := _ in _) => cbv zeta; respects_struct leaf
  | |- _ => leaf
  end.

Create HintDb quiet discriminated.
Create HintDb strong discriminated.
Create HintDb sound discriminated.

Ltac quiet_leaf :=
  first
    [ apply respects_modify; intros ?; reflexivity
    | solve [eauto with quiet] ].

Ltac quiet := intros; respects_struct quiet_leaf.

Section Quiet.
Context {host : Host}.

Lemma quiet_callHost f : respects Same (callHost f).
Proof. intros s. unfold callHost. by destruct (f (heap s)). Qed.

Lemma quiet_loadStack a : respects Same (loadStack a).
Proof. intros s. unfold loadStack. by destruct (inStack s a). Qed.

Lemma quiet_storeStack a v : respects Same (storeStack a v).
Proof. intros s. unfold storeStack. by destruct (inStack s a). Qed.

Hint Resolve quiet_callHost quiet_loadStack quiet_storeStack : quiet.

Lemma quiet_readCode n : respects Same (readCode n).
Proof. unfold readCode. quiet. Qed.
Hint Resolve quiet_readCode : quiet.

Lemma quiet_readOpcode : respects Same readOpcode.
Proof. unfold readOpcode. quiet. Qed.

Lemma quiet_readValue : respects Same readValue.
Proof. unfold readValue. quiet. Qed.

Lemma quiet_readU16 : respects Same readU16.
Proof. unfold readU16. quiet. Qed.

Lemma quiet_readTag : respects Same readTag.
Proof. unfold readTag. quiet. Qed.

Lemma quiet_readPtr : respects Same readPtr.
Proof. unfold readPtr. quiet. Qed.

Lemma quiet_pushVal v : respects Same (pushVal v).
Proof. unfold pushVal. quiet. Qed.

Lemma quiet_popVal : respects Same popVal.
Proof. unfold popVal. quiet. Qed.

Hint Resolve quiet_readOpcode quiet_readValue quiet_readU16 quiet_readTag
  quiet_readPtr quiet_pushVal quiet_popVal : quiet.

Lemma quiet_pushBool b : respects Same (pushBool b).
Proof. unfold pushBool. quiet. Qed.

Lemma quiet_popBool : respects Same popBool.
Proof. unfold popBool. quiet. Qed.

Lemma quiet_popInt32 : respects Same popInt32.
Proof. unfold popInt32. quiet. Qed.

Lemma quiet_popFloat32 : respects Same popFloat32.
Proof. unfold popFloat32. quiet. Qed.

Lemma quiet_stringOf v : respects Same (stringOf v).
Proof. unfold stringOf. quiet. Qed.
Hint Resolve quiet_stringOf : quiet.

Lemma quiet_popStr : respects Same popStr.
Proof. unfold popStr. quiet. Qed.

Lemma quiet_popObj : respects Same popObj.
Proof. unfold popObj. quiet. Qed.

Lemma quiet_arrayOf v : respects Same (arrayOf v).
Proof. unfold arrayOf. quiet. Qed.

Lemma quiet_objFields o : respects Same (objFields o).
Proof. unfold objFields. quiet. Qed.

Lemma quiet_arrElems a : respects Same (arrElems a).
Proof. unfold arrElems. quiet. Qed.

Lemma quiet_newString b : respects Same (newString b).
Proof. unfold newString. quiet. Qed.

Lemma quiet_stackSize : respects Same stackSize.
Proof. unfold stackSize. quiet. Qed.

Lemma quiet_versionAt v : respects Same (versionAt v).
Proof. unfold versionAt. quiet. Qed.

Hint Resolve quiet_pushBool quiet_popBool quiet_popInt32 quiet_popFloat32
  quiet_popStr quiet_popObj quiet_arrayOf quiet_objFields quiet_arrElems
  quiet_newString quiet_stackSize quiet_versionAt : quiet.

Lemma quiet_ICache_getField n o : respects Same (ICache.getField n o).
Proof. unfold ICache.getField. quiet. Qed.
Hint Resolve quiet_ICache_getField : quiet.

Lemma quiet_ICache_getInt32 n o : respects Same (ICache.getInt32 n o).
Proof. unfold ICache.getInt32. quiet. Qed.

Lemma quiet_ICache_getStr n o : respects Same (ICache.getStr n o).
Proof. unfold ICache.getStr. quiet. Qed.

Lemma quiet_ICache_getObj n o : respects Same (ICache.getObj n o).
Proof. unfold ICache.getObj. quiet. Qed.

Lemma quiet_ICache_getArr n o : respects Same (ICache.getArr n o).
Proof. unfold ICache.getArr. quiet. Qed.

Hint Resolve quiet_ICache_getInt32 quiet_ICache_getStr quiet_ICache_getObj
  quiet_ICache_getArr : quiet.

Lemma quiet_scanSrcPos l : respects Same (scanSrcPos l).
Proof. induction l; simpl; quiet. Qed.
Hint Resolve quiet_scanSrcPos : quiet.

Lemma quiet_getSrcPos a : respects Same (getSrcPos a).
Proof. unfold getSrcPos. quiet. Qed.
Hint Resolve quiet_getSrcPos : quiet.

Lemma quiet_checkArgCount a p n : respects Same (checkArgCount a p n).
Proof. unfold checkArgCount. quiet. Qed.

Lemma quiet_hostArgs n : forall a, respects Same (hostArgs a n).
Proof. induction n; simpl; quiet. Qed.

Lemma quiet_copyArgs l : forall i, respects Same (copyArgs i l).
Proof. induction l; simpl; quiet. Qed.

Lemma quiet_binInt32 f : respects Same (binInt32 f).
Proof. unfold binInt32. quiet. Qed.

Lemma quiet_binFloat32 f : respects Same (binFloat32 f).
Proof. unfold binFloat32. quiet. Qed.

Lemma quiet_unFloat32 f : respects Same (unFloat32 f).
Proof. unfold unFloat32. quiet. Qed.

Lemma quiet_callFunLeave sz v : respects Same (callFunLeave sz v).
Proof. unfold callFunLeave. quiet. Qed.
End Quiet.

#[export] Hint Resolve quiet_callHost quiet_loadStack quiet_storeStack
  quiet_readCode quiet_readOpcode quiet_readValue quiet_readU16 quiet_readTag
  quiet_readPtr quiet_pushVal quiet_popVal quiet_pushBool quiet_popBool
  quiet_popInt32 quiet_popFloat32 quiet_stringOf quiet_popStr quiet_popObj
  quiet_arrayOf quiet_objFields quiet_arrElems quiet_newString quiet_stackSize
  quiet_versionAt quiet_ICache_getField quiet_ICache_getInt32
  quiet_ICache_getStr quiet_ICache_getObj quiet_ICache_getArr
  quiet_scanSrcPos quiet_getSrcPos quiet_checkArgCount quiet_hostArgs
  quiet_copyArgs quiet_binInt32 quiet_binFloat32 quiet_unFloat32
  quiet_callFunLeave : quiet.

(** ** The block compiler keeps the invariants *)

Ltac strong_leaf :=
  first
    [ solve [eauto with strong]
    | apply (respects_weaken Same); [apply Same_Strong | quiet_leaf] ].

Ltac strong := intros; respects_struct strong_leaf.

Section Strong.
Context {host : Host}.

Lemma writeCode_strong c : respects Strong (writeCode c).
Proof.
  intros s. unfold writeCode, bind, gets, modify, assert. simpl.
  destruct (codeHeapAlloc s <? codeHeapLimit s) eqn:E1; simpl; [|done].
  destruct (codeHeapAlloc s + sizeofCell c <=? codeHeapLimit s) eqn:E2; simpl; [|done].
  intros [H0 H1 H2 H3 H4 H5 H6].
  pose proof (sizeofCell_pos c) as Hc.
  assert (Hold : forall a c', code s !! a = Some c' -> a < codeHeapAlloc s).
  { intros a c' Ha. pose proof (H2 _ _ Ha). pose proof (sizeofCell_pos c'). lia. }
  assert (Hnone : code s !! codeHeapAlloc s = None).
  { destruct (code s !! codeHeapAlloc s) eqn:Hl; [|done]. apply Hold in Hl. lia. }
  split; [|split].
  - split; simpl; try done; try lia.
    + intros a c'. rewrite lookup_insert. case_decide.
      * intros [= <-]. lia.
      * intros Ha. apply H2 in Ha. lia.
    + intros a c' b. rewrite !lookup_insert. case_decide.
      * intros [= <-] Hb. subst a. case_decide; [lia|].
        destruct (code s !! b) eqn:Hl; [|done]. apply Hold in Hl. lia.
      * intros Ha Hb. pose proof (H2 _ _ Ha). case_decide; [lia|]. eauto.
  - split; simpl; try done; try lia.
    + intros a Ha. rewrite lookup_insert_ne; [done|]. intros <-. congruence.
    + intros a p Ha Hp. rewrite lookup_insert_ne; [done|]. intros E. rewrite <- E in Hp. congruence.
  - split; simpl; [|done].
    intros a Ha. rewrite lookup_insert_ne; [done|lia].
Qed.

Lemma getBlockVersion_strong fn block : respects Strong (getBlockVersion fn block).
Proof.
  intros s. unfold getBlockVersion. unfold bind at 1. unfold gets at 1.
  destruct (versionMap s !! block) as [vers|] eqn:Hvm.
  - apply respects_at. apply (respects_weaken Same); [apply Same_Strong|]. quiet.
  - unfold bind, modify, newBlockVersion, gets, ret. simpl.
    rewrite lookup_insert_eq. simpl.
    intros [H0 H1 H2 H3 H4 H5 H6].
    assert (Hnone : versions s !! nextVersion s = None).
    { destruct (versions s !! nextVersion s) eqn:Hl; [|done]. apply H5 in Hl. lia. }
    split; [|split].
    + split; simpl; try done.
      * intros v bv. rewrite lookup_insert. case_decide; [by intros [= <-]|eauto].
      * intros v bv. rewrite lookup_insert. unfold sizeofBlockVersion.
        case_decide; [intros _; lia|]. intros Hv. apply H5 in Hv. lia.
      * intros b vers. rewrite !lookup_insert. case_decide; [intros [= <-]; simpl; lia|]. apply H6.
    + by split.
    + split; simpl; [done|]. intros v bv Hv. rewrite lookup_insert_ne; [done|congruence].
Qed.

Hint Resolve writeCode_strong getBlockVersion_strong : strong.

Lemma compileInstr_strong v i : respects Strong (compileInstr v i).
Proof. unfold compileInstr. strong. Qed.
Hint Resolve compileInstr_strong : strong.

Lemma compileInstrs_strong v l : respects Strong (compileInstrs v l).
Proof. induction l; simpl; strong. Qed.
End Strong.

#[export] Hint Resolve writeCode_strong getBlockVersion_strong
  compileInstr_strong compileInstrs_strong : strong.

Ltac compiles_leaf v :=
  first
    [ solve [eauto with compiles]
    | apply (respects_weaken Strong); [apply Strong_Compiles | strong_leaf] ].

Section Compile.
Context {host : Host}.

Lemma Same_fields s s' :
  Same s s' ->
  codeHeap s' = codeHeap s /\ codeHeapLimit s' = codeHeapLimit s /\
  codeHeapAlloc s' = codeHeapAlloc s /\ code s' = code s /\
  versions s' = versions s /\ nextVersion s' = nextVersion s /\
  versionMap s' = versionMap s /\ charStrings s' = charStrings s.
Proof. unfold Same, core. intros [= -> -> -> -> -> -> -> ->]. done. Qed.

Lemma setVersion_compiles v bv' s :
  (forall bv, versions s !! v = Some bv -> startPtr bv' ≠ 0 ->
     codeHeap s <= startPtr bv') ->
  is_Some (versions s !! v) ->
  Compiles v s (set_versions (<[v := bv']> (versions s)) s).
Proof.
  intros Hstart [bv Hv] [H0 H1 H2 H3 H4 H5 H6]. split; [|split].
  - split; simpl; try done.
    + intros w bw. rewrite lookup_insert. case_decide; [|by eauto].
      intros [= <-]. eauto.
    + intros w bw. rewrite lookup_insert. case_decide; [|by eauto].
      subst w. intros _. eauto.
  - by split.
  - split; simpl; [done|]. intros w bw Hw. by rewrite lookup_insert_ne.
Qed.

Lemma setStartPtr_alloc v s :
  post (setStartPtr v (codeHeapAlloc s) s) (Compiles v s).
Proof.
  unfold setStartPtr, versionAt, bind, gets, modify, defined. simpl.
  destruct (versions s !! v) as [bv|] eqn:Hv; simpl; [|done].
  intros Hs. apply setVersion_compiles; [|by eauto|done].
  intros _ _ _. simpl. apply Hs.
Qed.

Lemma setEndPtr_compiles v p : respects (Compiles v) (setEndPtr v p).
Proof.
  intros s. unfold setEndPtr, versionAt, bind, gets, modify, defined. simpl.
  destruct (versions s !! v) as [bv|] eqn:Hv; simpl; [|done].
  intros Hs. apply setVersion_compiles; [|by eauto|done].
  intros bv0 Hbv0. simpl. intros Hne. eapply inv_start; eauto.
Qed.

Lemma compile_compiles v : respects (Compiles v) (compile v).
Proof.
  unfold compile.
  apply respects_bind; [tc_solve | compiles_leaf v | intros bv].
  apply respects_bind; [tc_solve | compiles_leaf v | intros instrs].
  apply respects_bind; [tc_solve | compiles_leaf v | intros elems].
  destruct (bool_decide _); [apply respects_throw; tc_solve|].
  apply respects_gets_bind. intros s.
  apply post_bind.
  - intros e s1 E. pose proof (setStartPtr_alloc v s) as H. by rewrite E in H.
  - intros [] s1 E. pose proof (setStartPtr_alloc v s) as H. rewrite E in H.
    simpl in H. apply (post_mono _ (Compiles v s1)); [intros s2 H2; by etrans|].
    apply respects_at.
    apply respects_bind; [tc_solve | compiles_leaf v | intros _].
    apply respects_bind; [tc_solve | apply respects_gets; tc_solve | intros a'].
    apply setEndPtr_compiles.
Qed.

Lemma setStartPtr_Ok v p s s' :
  setStartPtr v p s = Ok () s' ->
  exists bv, versions s !! v = Some bv /\
    s' = set_versions
           (<[v := mkBlockVersion p (endPtr bv) (bvFun bv) (bvBlock bv)]>
              (versions s)) s.
Proof.
  unfold setStartPtr, versionAt, bind, gets, modify, defined. simpl.
  destruct (versions s !! v) as [bv|] eqn:Hv; simpl; [|done].
  intros [= <-]. eauto.
Qed.

Lemma setEndPtr_Ok v p s s' :
  setEndPtr v p s = Ok () s' ->
  exists bv, versions s !! v = Some bv /\
    s' = set_versions
           (<[v := mkBlockVersion (startPtr bv) p (bvFun bv) (bvBlock bv)]>
              (versions s)) s.
Proof.
  unfold setEndPtr, versionAt, bind, gets, modify, defined. simpl.
  destruct (versions s !! v) as [bv|] eqn:Hv; simpl; [|done].
  intros [= <-]. eauto.
Qed.

Lemma versionAt_Ok v s bv s' :
  versionAt v s = Ok bv s' -> s' = s /\ versions s !! v = Some bv.
Proof.
  unfold versionAt, bind, gets, defined. simpl.
  destruct (versions s !! v); simpl; [|done]. by intros [= -> ->].
Qed.

Lemma compile_Ok v s s' :
  Inv s -> compile v s = Ok () s' ->
  exists bv', versions s' !! v = Some bv' /\
    startPtr bv' = codeHeapAlloc s /\ endPtr bv' = codeHeapAlloc s'.
Proof.
  intros Hs. unfold compile. intros E.
  apply bind_Ok_inv in E as (bv & s1 & E1 & E).
  apply versionAt_Ok in E1 as [-> Hbv].
  apply bind_Ok_inv in E as (instrs & s2 & E2 & E).
  apply (respects_Ok Same) in E2; [|quiet].
  apply bind_Ok_inv in E as (elems & s3 & E3 & E).
  apply (respects_Ok Same) in E3; [|quiet].
  assert (Same s s3) as H3 by (by etrans).
  destruct (bool_decide _); [done|].
  apply bind_Ok_inv in E as (a & s4 & E4 & E). injection E4 as <- <-.
  apply bind_Ok_inv in E as ([] & s5 & E5 & E).
  pose proof (setStartPtr_alloc v s3) as Hc. rewrite E5 in Hc. simpl in Hc.
  apply setStartPtr_Ok in E5 as (bv3 & Hbv3 & ->).
  apply bind_Ok_inv in E as ([] & s6 & E6 & E).
  apply (respects_Ok Strong) in E6; [|apply compileInstrs_strong].
  apply bind_Ok_inv in E as (a' & s7 & E7 & E). injection E7 as <- <-.
  apply setEndPtr_Ok in E as (bv6 & Hbv6 & ->).
  assert (Inv s3) as Hs3.
  { apply Same_Strong in H3. by apply H3. }
  destruct (Hc Hs3) as (Hs5 & _ & _).
  destruct (E6 Hs5) as (_ & _ & [_ Hg]).
  specialize (Hg v _ (lookup_insert_eq _ _ _)).
  simpl in Hg. rewrite Hbv6 in Hg. injection Hg as ->.
  eexists. simpl. rewrite lookup_insert_eq. split; [done|]. simpl.
  split; [|done]. by apply Same_fields in H3 as (_ & _ & -> & _).
Qed.

Lemma ensureCompiled_compiles v : respects (Compiles v) (ensureCompiled v).
Proof.
  unfold ensureCompiled.
  apply respects_bind; [tc_solve | compiles_leaf v | intros bv].
  destruct (_ =? _); [apply compile_compiles | apply respects_ret; tc_solve].
Qed.

Lemma ensureCompiled_keeps v : respects Keeps (ensureCompiled v).
Proof.
  intros s. unfold ensureCompiled. apply post_bind.
  - intros e s1 E. apply (respects_Throw Same) in E; [|quiet].
    by apply Strong_Keeps, Same_Strong.
  - intros bv s1 E. apply versionAt_Ok in E as [-> Hbv].
    destruct (startPtr bv =? 0) eqn:E0; [|simpl; reflexivity].
    apply Z.eqb_eq in E0.
    eapply post_mono; [|apply (compile_compiles v s)].
    intros s' Hc Hs. destruct (Hc Hs) as (Hs' & He & [_ Hv]).
    split; [done|]. split; [done|]. intros w bw Hw Hne.
    apply Hv; [|done]. intros ->. congruence.
Qed.

Lemma ensureCompiled_compiled v s bv :
  versions s !! v = Some bv -> startPtr bv ≠ 0 -> ensureCompiled v s = Ok () s.
Proof.
  intros Hv Hne. unfold ensureCompiled, versionAt, bind, gets, defined. simpl.
  rewrite Hv. simpl. by apply Z.eqb_neq in Hne as ->.
Qed.

Lemma ensureCompiled_Ok v s s' :
  Inv s -> ensureCompiled v s = Ok () s' ->
  exists bv', versions s' !! v = Some bv' /\ startPtr bv' ≠ 0 /\
    codeHeap s' <= startPtr bv'.
Proof.
  intros Hs E. pose proof E as E'. unfold ensureCompiled in E.
  apply bind_Ok_inv in E as (bv & s1 & E1 & E).
  apply versionAt_Ok in E1 as [-> Hbv].
  destruct (startPtr bv =? 0) eqn:E0.
  - destruct (compile_Ok _ _ _ Hs E) as (bv' & Hv' & Hst & _).
    apply (respects_Ok (Compiles v)) in E; [|apply compile_compiles].
    destruct (E Hs) as (Hs' & He & _).
    exists bv'. split; [done|]. destruct Hs, He. rewrite Hst. lia.
  - injection E as <-. apply Z.eqb_neq in E0. exists bv.
    split; [done|]. split; [done|]. by eapply inv_start.
Qed.
End Compile.

(** ** The interpreter loop keeps the invariants *)

Lemma readCode_Ok n s r s' :
  readCode n s = Ok r s' ->
  r.1 = instrPtr s /\ code s !! instrPtr s = Some r.2 /\
  instrPtr s + n <= codeHeapLimit s /\ s' = set_instrPtr (instrPtr s + n) s.
Proof.
  unfold readCode, bind, gets, modify, assert, defined, ret. simpl.
  destruct (instrPtr s + n <=? codeHeapLimit s) eqn:E; simpl; [|done].
  destruct (code s !! instrPtr s) eqn:Hc; simpl; [|done].
  intros [= <- <-]. apply Z.leb_le in E. done.
Qed.

Lemma readOpcode_Ok s a op s' :
  readOpcode s = Ok (a, op) s' ->
  a = instrPtr s /\ code s !! a = Some (COp op) /\
  a + 2 <= codeHeapLimit s /\ s' = set_instrPtr (a + 2) s.
Proof.
  unfold readOpcode. intros E. apply bind_Ok_inv in E as (r & s1 & E1 & E).
  apply readCode_Ok in E1 as (H1 & H2 & H3 & ->).
  destruct r as [a' c]. simpl in *. subst a'.
  destruct c; try done. injection E as <- <- <-. done.
Qed.

Lemma readPtr_Ok s a p s' :
  readPtr s = Ok (a, p) s' ->
  a = instrPtr s /\ code s !! a = Some (CPtr p) /\
  a + 8 <= codeHeapLimit s /\ s' = set_instrPtr (a + 8) s.
Proof.
  unfold readPtr. intros E. apply bind_Ok_inv in E as (r & s1 & E1 & E).
  apply readCode_Ok in E1 as (H1 & H2 & H3 & ->).
  destruct r as [a' c]. simpl in *. subst a'.
  destruct c; try done. injection E as <- <- <-. done.
Qed.

Lemma readU16_Ok s n s' :
  readU16 s = Ok n s' ->
  code s !! instrPtr s = Some (CU16 n) /\
  instrPtr s + 2 <= codeHeapLimit s /\ s' = set_instrPtr (instrPtr s + 2) s.
Proof.
  unfold readU16. intros E. apply bind_Ok_inv in E as (r & s1 & E1 & E).
  apply readCode_Ok in E1 as (H1 & H2 & H3 & ->).
  destruct r as [a' c]. simpl in *. subst a'.
  destruct c; try done. injection E as <- <-. done.
Qed.

Lemma valueEq_FALSE h v : Runtime.valueEq h v Val.FALSE = true -> v = Val.FALSE.
Proof.
  destruct v as [w t]. unfold Runtime.valueEq. simpl.
  intros [Ht Hw]%andb_prop. apply bool_decide_eq_true in Ht. subst t.
  apply bool_decide_eq_true in Hw. by subst w.
Qed.

Lemma valueEq_TRUE h v : Runtime.valueEq h v Val.TRUE = true <-> v = Val.TRUE.
Proof.
  split.
  - destruct v as [w t]. unfold Runtime.valueEq. simpl.
    intros [Ht Hw]%andb_prop. apply bool_decide_eq_true in Ht. subst t.
    apply bool_decide_eq_true in Hw. by subst w.
  - by intros ->.
Qed.

Lemma recode_keeps s code' :
  Inv s ->
  (forall a, code s !! a = None -> code' !! a = None) ->
  (forall a c, code s !! a = Some c ->
     exists c', code' !! a = Some c' /\ sizeofCell c' = sizeofCell c) ->
  (forall a, code s !! a = Some (COp JUMP) -> code' !! a = Some (COp JUMP)) ->
  (forall a p, code s !! a = Some (COp JUMP) ->
     code s !! (a + 2) = Some (CPtr p) -> code' !! (a + 2) = Some (CPtr p)) ->
  Inv (set_code code' s) /\ Ext s (set_code code' s) /\ Keep s (set_code code' s).
Proof.
  intros [H0 H1 H2 H3 H4 H5 H6] Hnone Hsome Hj Ht.
  assert (Hback : forall a c', code' !! a = Some c' ->
            exists c, code s !! a = Some c /\ sizeofCell c' = sizeofCell c).
  { intros a c' Ha. destruct (code s !! a) as [c|] eqn:Hc.
    - destruct (Hsome _ _ Hc) as (c'' & Hc'' & Hsz). exists c. split; congruence.
    - apply Hnone in Hc. congruence. }
  split; [|split].
  - split; simpl; try done.
    + intros a c' Ha. destruct (Hback _ _ Ha) as (c & Hc & ->). eauto.
    + intros a c' b Ha Hb. destruct (Hback _ _ Ha) as (c & Hc & Hsz).
      rewrite Hsz in Hb. eauto.
  - split; simpl; try done.
  - by intros v bv.
Qed.

Section Loop.
Context {host : Host}.

Lemma patch_stub_keeps s a p q :
  Inv s -> code s !! a = Some (COp JUMP_STUB) ->
  code s !! (a + 2) = Some (CPtr p) ->
  let s' := set_code (<[a + 2 := CPtr q]> (<[a := COp JUMP]> (code s))) s in
  Inv s' /\ Ext s s' /\ Keep s s'.
Proof.
  intros Hs Ha Hp. apply recode_keeps; [done|..].
  - intros b Hb. rewrite !lookup_insert_ne; [done|congruence..].
  - intros b c Hb. rewrite !lookup_insert. repeat case_decide; subst.
    + rewrite Hp in Hb. injection Hb as <-. eauto.
    + rewrite Ha in Hb. injection Hb as <-. eauto.
    + eauto.
  - intros b Hb. rewrite !lookup_insert_ne; [done|congruence..].
  - intros b r Hb Hr. rewrite !lookup_insert_ne; [done|congruence|].
    intros E. assert (b = a) as -> by lia. congruence.
Qed.

Lemma patch_ptr_keeps s a p q :
  Inv s -> code s !! a = Some (CPtr p) ->
  code s !! (a - 2) ≠ Some (COp JUMP) ->
  let s' := set_code (<[a := CPtr q]> (code s)) s in
  Inv s' /\ Ext s s' /\ Keep s s'.
Proof.
  intros Hs Ha Hp. apply recode_keeps; [done|..].
  - intros b Hb. rewrite !lookup_insert_ne; [done|congruence..].
  - intros b c Hb. rewrite !lookup_insert. repeat case_decide; subst.
    + rewrite Ha in Hb. injection Hb as <-. eauto.
    + eauto.
  - intros b Hb. rewrite !lookup_insert_ne; [done|congruence..].
  - intros b r Hb Hr. rewrite !lookup_insert_ne; [done|].
    intros E. apply Hp. by replace (a - 2) with b by lia.
Qed.

End Loop.

Ltac keeps_leaf :=
  first
    [ solve [eauto with keeps]
    | apply (respects_weaken Strong); [apply Strong_Keeps | strong_leaf] ].

Ltac keeps := intros; respects_struct keeps_leaf.

Lemma Same_Keeps s s' : Same s s' -> Keeps s s'.
Proof. intros H. by apply Strong_Keeps, Same_Strong. Qed.

Create HintDb keeps discriminated.

Lemma Keeps_set_instrPtr s s' p : Keeps s s' -> Keeps s (set_instrPtr p s').
Proof. intros H. etrans; [done|]. by apply Same_Keeps. Qed.

Section Loop2.
Context {host : Host}.

Hint Resolve ensureCompiled_keeps : keeps.

Lemma funCall_keeps a f n r : respects Keeps (funCall a f n r).
Proof. unfold funCall. keeps. Qed.

Lemma hostCall_keeps a f n r : respects Keeps (hostCall a f n r).
Proof. unfold hostCall. keeps. Qed.

Lemma branchTo_keeps addr target s :
  Inv s -> code s !! addr = Some (CPtr target) ->
  code s !! (addr - 2) ≠ Some (COp JUMP) ->
  post (branchTo addr target s) (Keeps s).
Proof.
  intros Hs Ha Hj. unfold branchTo.
  unfold bind at 1, gets at 1. unfold bind at 1, gets at 1.
  destruct (_ || _).
  - apply post_bind.
    + intros e s1 E. by apply (respects_Throw Keeps) in E; [|keeps].
    + intros [] s1 E.
      pose proof (respects_Ok (Compiles target) _ _ _ _
                    (ensureCompiled_compiles target) E) as Hc.
      apply (respects_Ok Keeps) in E; [|keeps].
      destruct (Hc Hs) as (Hs1 & He & [Hcode _]).
      pose proof (inv_cells _ Hs _ _ Ha) as Hlt. simpl in Hlt.
      apply post_bind.
      * intros e s2 E2. apply (respects_Throw Same) in E2; [|quiet].
        etrans; [done|]. by apply Same_Keeps.
      * intros bv s2 E2. apply versionAt_Ok in E2 as [-> Hbv].
        unfold patchCode, bind, modify, ret. simpl.
        apply Keeps_set_instrPtr. etrans; [done|]. intros _.
        refine (patch_ptr_keeps s1 addr target (startPtr bv) Hs1 _ _).
        -- rewrite Hcode; [done|lia].
        -- rewrite Hcode; [done|lia].
  - simpl. by apply Same_Keeps.
Qed.

Lemma Same_Inv s s' : Same s s' -> Inv s -> Inv s'.
Proof. intros H Hs. by apply Same_Strong in H as [? _]. Qed.

Lemma post_rebase {A} s s1 (r : Res A) :
  Keeps s s1 -> post r (Keeps s1) -> post r (Keeps s).
Proof. intros H. apply post_mono. intros s2 H2. by etrans. Qed.

Lemma post_Keeps_intro {A} s (r : Res A) :
  (Inv s -> post r (Keeps s)) -> post r (Keeps s).
Proof. destruct r; simpl; auto; intros H Hs; by apply H. Qed.

Lemma post_bind_quiet {A B} (m : M A) (k : A -> M B) s :
  respects Same m ->
  (forall a s1, m s = Ok a s1 -> Same s s1 -> post (k a s1) (Keeps s1)) ->
  post (bind m k s) (Keeps s).
Proof.
  intros Hm Hk. apply post_bind.
  - intros e s1 E. apply Same_Keeps. by eapply respects_Throw.
  - intros a s1 E. pose proof (respects_Ok _ _ _ _ _ Hm E) as H1.
    eapply post_rebase; [by apply Same_Keeps|]. by apply Hk.
Qed.

Lemma chars_keeps s cs' :
  (forall i v, charStrings s !! i = Some v -> v ≠ Val.FALSE ->
     cs' !! i = Some v) ->
  Keeps s (set_charStrings cs' s).
Proof.
  intros Hcs [H0 H1 H2 H3 H4 H5 H6]. split; [by split|].
  split; [by split|]. by intros v bv.
Qed.

Lemma execInstr_keeps a op s :
  Inv s -> code s !! a = Some (COp op) -> instrPtr s = a + 2 ->
  post (execInstr a op s) (Keeps s).
Proof.
  intros Hs Ha Hip.
  destruct op;
    try (apply respects_at; apply (respects_weaken Same);
         [apply Same_Keeps | unfold execInstr; quiet]).
  all: unfold execInstr.
  - (* GET_CHAR *)
    apply post_bind_quiet; [quiet|]. intros i s1 _ H1.
    apply post_bind_quiet; [quiet|]. intros str s2 _ H2.
    destruct (_ <=? _); [simpl; reflexivity|].
    apply post_bind_quiet; [quiet|]. intros ch s3 _ H3.
    unfold bind at 1, gets at 1.
    destruct (charStrings s3 !! Z.to_nat ch) as [cached|] eqn:Hc; [|done].
    unfold bind at 1, defined at 1, ret at 1.
    unfold bind at 1, gets at 1.
    apply post_bind.
    + intros e s4. by destruct (Runtime.valueEq _ _ _).
    + intros [] s4. destruct (Runtime.valueEq _ _ _) eqn:Heq.
      * apply valueEq_FALSE in Heq as ->.
        intros E. unfold newString, bind, gets, modify, ret in E.
        simpl in E. injection E as <-.
        eapply post_rebase.
        { etrans; [|apply chars_keeps].
          - apply Same_Keeps. by instantiate (1 := set_heap _ s3).
          - simpl. intros j v Hj Hv. simpl in Hj.
            rewrite list_lookup_insert_ne; [done|].
            intros <-. rewrite Hc in Hj. by injection Hj as <-. }
        apply respects_at. apply (respects_weaken Same); [apply Same_Keeps|].
        quiet.
      * intros [= <-]. apply respects_at.
        apply (respects_weaken Same); [apply Same_Keeps|]. quiet.
  - (* JUMP_STUB *)
    apply post_bind.
    { intros e s1 E. by apply (respects_Throw Same) in E;
        [apply Same_Keeps|quiet]. }
    intros [a' p] s1 E. apply readPtr_Ok in E as (-> & Hp & _ & ->).
    rewrite Hip in Hp. simpl fst. simpl snd.
    eapply post_rebase; [apply Same_Keeps; by instantiate (1 := set_instrPtr _ s)|].
    set (s1 := set_instrPtr _ s).
    assert (Inv s1) as Hs1 by (by eapply Same_Inv; [|apply Hs]).
    apply post_bind.
    { intros e s2 E. by apply (respects_Throw Keeps) in E; [|keeps]. }
    intros [] s2 E.
    pose proof (respects_Ok (Compiles p) _ _ _ _
                  (ensureCompiled_compiles p) E) as Hc.
    apply (respects_Ok Keeps) in E; [|keeps].
    destruct (Hc Hs1) as (Hs2 & _ & [Hcode _]).
    eapply post_rebase; [done|].
    pose proof (inv_cells _ Hs _ _ Ha) as Hlt1.
    pose proof (inv_cells _ Hs _ _ Hp) as Hlt2. simpl in Hlt1, Hlt2.
    apply post_bind.
    { intros e s3 E3. by apply (respects_Throw Same) in E3;
        [apply Same_Keeps|quiet]. }
    intros bv s3 E3. apply versionAt_Ok in E3 as [-> Hbv].
    unfold patchCode, bind, modify, ret. simpl.
    apply Keeps_set_instrPtr. intros _. rewrite Hip.
    refine (patch_stub_keeps s2 a p (startPtr bv) Hs2 _ _).
    + rewrite Hcode; [done|]. simpl. lia.
    + rewrite Hcode; [done|]. simpl. lia.
  - (* IF_TRUE *)
    apply post_bind.
    { intros e s1 E. by apply (respects_Throw Same) in E;
        [apply Same_Keeps|quiet]. }
    intros [a1 p1] s1 E. apply readPtr_Ok in E as (-> & Hp1 & _ & ->).
    rewrite Hip in Hp1.
    apply post_bind.
    { intros e s2 E. apply (respects_Throw Same) in E; [|quiet].
      by apply Same_Keeps. }
    intros [a2 p2] s2 E. apply readPtr_Ok in E as (-> & Hp2 & _ & ->).
    simpl in Hp2. rewrite Hip in Hp2. simpl fst. simpl snd.
    eapply post_rebase;
      [apply Same_Keeps;
       by instantiate (1 := set_instrPtr _ (set_instrPtr _ s))|].
    apply post_bind_quiet; [quiet|]. intros arg0 s3 _ H3.
    unfold bind at 1, gets at 1.
    assert (Same s s3) as Hss by (etrans; [|done]; done).
    pose proof (Same_Inv _ _ Hss Hs) as Hs3.
    apply Same_fields in Hss as (_ & _ & _ & Hcode & _).
    apply post_bind.
    + intros e s4 E. destruct (Runtime.valueEq _ _ _).
      * pose proof (branchTo_keeps (instrPtr s) p1 s3 Hs3) as Hb.
        rewrite E in Hb. apply Hb; rewrite Hcode, Hip; [done|].
        replace (a + 2 - 2) with a by lia. congruence.
      * pose proof (branchTo_keeps (instrPtr s + 8) p2 s3 Hs3) as Hb.
        simpl in E. rewrite E in Hb. apply Hb; rewrite Hcode, Hip; [done|].
        replace (a + 2 + 8 - 2) with (a + 8) by lia.
        rewrite (inv_disjoint _ Hs (a + 2) _ (a + 8) Hp1); [done|simpl; lia].
    + intros [] s4 E. apply (post_mono _ (Keeps s3) _); [|].
      { intros s5 H5. etrans; [done|]. reflexivity. }
      simpl. destruct (Runtime.valueEq _ _ _).
      * pose proof (branchTo_keeps (instrPtr s) p1 s3 Hs3) as Hb.
        rewrite E in Hb. apply Hb; rewrite Hcode, Hip; [done|].
        replace (a + 2 - 2) with a by lia. congruence.
      * pose proof (branchTo_keeps (instrPtr s + 8) p2 s3 Hs3) as Hb.
        simpl in E. rewrite E in Hb. apply Hb; rewrite Hcode, Hip; [done|].
        replace (a + 2 + 8 - 2) with (a + 8) by lia.
        rewrite (inv_disjoint _ Hs (a + 2) _ (a + 8) Hp1); [done|simpl; lia].
  - (* CALL *)
    apply respects_at. pose proof funCall_keeps. pose proof hostCall_keeps.
    keeps.
  - (* RET *)
    apply respects_at. keeps.
Qed.

Lemma step_keeps : respects Keeps step.
Proof.
  intros s. apply post_Keeps_intro. intros Hs. unfold step.
  apply post_bind_quiet; [quiet|]. intros [a op] s1 E H1.
  apply readOpcode_Ok in E as (-> & Ha & _ & ->). simpl.
  apply execInstr_keeps; [by eapply Same_Inv|done|done].
Qed.
End Loop2.

(** ** What reads and what the compiler leave alone *)

Create HintDb pure discriminated.
Create HintDb frame discriminated.

#[global] Instance Frame_preorder : PreOrder Frame.
Proof.
  split; [by intros s|]. intros s1 s2 s3 H1 H2. unfold Frame in *. congruence.
Qed.

Ltac pure_leaf := solve [eauto with pure].
Ltac pure := intros; respects_struct pure_leaf.

Ltac frame_leaf :=
  first
    [ apply respects_modify; intros ?; reflexivity
    | solve [eauto with frame]
    | apply (respects_weaken eq); [by intros ?? <- | pure_leaf] ].
Ltac frame := intros; respects_struct frame_leaf.

Section Frame.
Context {host : Host}.

Lemma pure_objFields o : respects eq (objFields o).
Proof. unfold objFields. pure. Qed.

Lemma pure_arrElems a : respects eq (arrElems a).
Proof. unfold arrElems. pure. Qed.

Lemma pure_versionAt v : respects eq (versionAt v).
Proof. unfold versionAt. pure. Qed.

Lemma pure_stringOf v : respects eq (stringOf v).
Proof. unfold stringOf. pure. Qed.

Lemma pure_stackSize : respects eq stackSize.
Proof. unfold stackSize. pure. Qed.

Hint Resolve pure_objFields pure_arrElems pure_versionAt pure_stringOf
  pure_stackSize : pure.

Lemma pure_ICache_getField n o : respects eq (ICache.getField n o).
Proof. unfold ICache.getField. pure. Qed.
Hint Resolve pure_ICache_getField : pure.

Lemma pure_ICache_getInt32 n o : respects eq (ICache.getInt32 n o).
Proof. unfold ICache.getInt32. pure. Qed.

Lemma pure_ICache_getStr n o : respects eq (ICache.getStr n o).
Proof. unfold ICache.getStr. pure. Qed.

Lemma pure_ICache_getObj n o : respects eq (ICache.getObj n o).
Proof. unfold ICache.getObj. pure. Qed.

Lemma pure_ICache_getArr n o : respects eq (ICache.getArr n o).
Proof. unfold ICache.getArr. pure. Qed.

Hint Resolve pure_ICache_getInt32 pure_ICache_getStr pure_ICache_getObj
  pure_ICache_getArr : pure.

Lemma pure_scanSrcPos l : respects eq (scanSrcPos l).
Proof. induction l; simpl; pure. Qed.
Hint Resolve pure_scanSrcPos : pure.

Lemma pure_getSrcPos a : respects eq (getSrcPos a).
Proof. unfold getSrcPos. pure. Qed.
Hint Resolve pure_getSrcPos : pure.

Lemma pure_checkArgCount a p n : respects eq (checkArgCount a p n).
Proof. unfold checkArgCount. pure. Qed.

Lemma frame_writeCode c : respects Frame (writeCode c).
Proof. unfold writeCode. frame. Qed.

Lemma frame_newBlockVersion f b : respects Frame (newBlockVersion f b).
Proof. unfold newBlockVersion. frame. Qed.
Hint Resolve frame_writeCode frame_newBlockVersion : frame.

Lemma frame_getBlockVersion f b : respects Frame (getBlockVersion f b).
Proof. unfold getBlockVersion. frame. Qed.

Lemma frame_setStartPtr v p : respects Frame (setStartPtr v p).
Proof. unfold setStartPtr. frame. Qed.

Lemma frame_setEndPtr v p : respects Frame (setEndPtr v p).
Proof. unfold setEndPtr. frame. Qed.
Hint Resolve frame_getBlockVersion frame_setStartPtr frame_setEndPtr : frame.

Lemma frame_compileInstr v i : respects Frame (compileInstr v i).
Proof. unfold compileInstr. frame. Qed.
Hint Resolve frame_compileInstr : frame.

Lemma frame_compileInstrs v l : respects Frame (compileInstrs v l).
Proof. induction l; simpl; frame. Qed.
Hint Resolve frame_compileInstrs : frame.

Lemma frame_compile v : respects Frame (compile v).
Proof. unfold compile. frame. Qed.
Hint Resolve frame_compile : frame.

Lemma frame_ensureCompiled v : respects Frame (ensureCompiled v).
Proof. unfold ensureCompiled. frame. Qed.
End Frame.

#[export] Hint Resolve pure_objFields pure_arrElems pure_versionAt
  pure_stringOf pure_stackSize pure_ICache_getField pure_ICache_getInt32
  pure_ICache_getStr pure_ICache_getObj pure_ICache_getArr pure_scanSrcPos
  pure_getSrcPos pure_checkArgCount : pure.

#[export] Hint Resolve frame_writeCode frame_newBlockVersion
  frame_getBlockVersion frame_setStartPtr frame_setEndPtr frame_compileInstr
  frame_compileInstrs frame_compile frame_ensureCompiled : frame.

Lemma Frame_fields s s' :
  Frame s s' ->
  heap s' = heap s /\ stackLimit s' = stackLimit s /\
  stackBase s' = stackBase s /\ stack s' = stack s /\
  framePtr s' = framePtr s /\ stackPtr s' = stackPtr s /\
  instrPtr s' = instrPtr s /\ charStrings s' = charStrings s /\
  codeHeap s' = codeHeap s /\ codeHeapLimit s' = codeHeapLimit s.
Proof. unfold Frame, frame. intros [= -> -> -> -> -> -> -> -> -> ->]. done. Qed.

(** ** Runs keep the invariants *)

Ltac sound_leaf :=
  first
    [ solve [eauto with sound]
    | apply (respects_weaken Strong); [apply Strong_Sound | strong_leaf] ].
Ltac sound := intros; respects_struct sound_leaf.

Section Runs.
Context {host : Host}.

Lemma compile_sound v : respects Sound (compile v).
Proof.
  apply (respects_weaken (Compiles v)); [apply Compiles_Sound|].
  apply compile_compiles.
Qed.
Hint Resolve compile_sound : sound.

Lemma callFunEnter_sound fn args : respects Sound (callFunEnter fn args).
Proof. unfold callFunEnter. sound. Qed.

Lemma step_sound : respects Sound step.
Proof. apply (respects_weaken Keeps); [apply Keeps_Sound|apply step_keeps]. Qed.

Lemma event_sound s s' : event s s' -> Sound s s'.
Proof.
  intros [r E|e E|fn args sz E|fn args e E|sz v r E|sz v e E|h ->].
  - by eapply respects_Ok; [apply step_sound|].
  - by eapply respects_Throw; [apply step_sound|].
  - by eapply respects_Ok; [apply callFunEnter_sound|].
  - by eapply respects_Throw; [apply callFunEnter_sound|].
  - apply Strong_Sound, Same_Strong.
    by eapply respects_Ok; [apply quiet_callFunLeave|].
  - apply Strong_Sound, Same_Strong.
    by eapply respects_Throw; [apply quiet_callFunLeave|].
  - by apply Strong_Sound, Same_Strong.
Qed.

Lemma reach_sound s s' : reach s s' -> Sound s s'.
Proof.
  induction 1 as [|s1 s2 s3 H12 _ IH]; [reflexivity|].
  etrans; [by apply event_sound|done].
Qed.

Lemma reach_Inv s s' : reach s s' -> Inv s -> Inv s'.
Proof. intros H Hs. by apply reach_sound in H as [? _]. Qed.

Lemma reach_Ext s s' : reach s s' -> Inv s -> Ext s s'.
Proof. intros H Hs. by apply reach_sound in H as [_ ?]. Qed.

Lemma run_reach n : forall s s', run n s = Some s' -> reach s s'.
Proof.
  induction n as [|n IH]; intros s s'; simpl.
  - intros [= ->]. apply rtc_refl.
  - destruct (step s) as [[v|] s1|e s1|f] eqn:E; try done.
    intros Hr. eapply rtc_l; [by eapply ev_step|by apply IH].
Qed.

(** The loop passes on what an instruction throws, and [callFun] passes on
    what the loop throws. *)
Lemma execLoop_throw n : forall fuel s s1 e s',
  run n s = Some s1 -> step s1 = Throw e s' -> (n < fuel)%nat ->
  execLoop fuel s = Throw e s'.
Proof.
  induction n as [|n IH]; intros fuel s s1 e s' Hr Hs Hf;
    (destruct fuel as [|fuel]; [lia|]); simpl in *.
  - injection Hr as ->. unfold bind. by rewrite Hs.
  - unfold bind. destruct (step s) as [[v|] s2|e2 s2|f] eqn:E; try done.
    eapply IH; [done..|lia].
Qed.

Lemma execLoop_return n : forall fuel s s1 v s',
  run n s = Some s1 -> step s1 = Ok (Some v) s' -> (n < fuel)%nat ->
  execLoop fuel s = Ok v s'.
Proof.
  induction n as [|n IH]; intros fuel s s1 v s' Hr Hs Hf;
    (destruct fuel as [|fuel]; [lia|]); simpl in *.
  - injection Hr as ->. unfold bind. by rewrite Hs.
  - unfold bind. destruct (step s) as [[w|] s2|e2 s2|f] eqn:E; try done.
    eapply IH; [done..|lia].
Qed.

Lemma callFun_throw fuel fn args s0 sz s n s1 e s' :
  callFunEnter fn args s0 = Ok sz s ->
  codeHeap s <= instrPtr s < codeHeapLimit s ->
  run n s = Some s1 -> step s1 = Throw e s' -> (n < fuel)%nat ->
  callFun fuel fn args s0 = Throw e s'.
Proof.
  intros He [Hlo Hhi] Hr Hs Hf. unfold callFun, bind. rewrite He.
  unfold execCode, bind, gets, assert. simpl.
  apply Z.leb_le in Hlo as ->. apply Z.ltb_lt in Hhi as ->. simpl.
  by erewrite execLoop_throw.
Qed.

Lemma Inv_initInterp codeAddr stackAddr versionAddr h :
  0 < codeAddr -> Inv (initInterp codeAddr stackAddr versionAddr h).
Proof. intros Hpos. split; simpl; try done; lia. Qed.
End Runs.

(** ** Forward execution of the primitives *)

Lemma bind_Ok {A B} (m : M A) (k : A -> M B) s a s1 :
  m s = Ok a s1 -> bind m k s = k a s1.
Proof. unfold bind. by intros ->. Qed.


Lemma readCode_run n s c :
  code s !! instrPtr s = Some c -> instrPtr s + n <= codeHeapLimit s ->
  readCode n s = Ok (instrPtr s, c) (set_instrPtr (instrPtr s + n) s).
Proof.
  intros Hc Hl. unfold readCode, bind, gets, modify, assert, defined, ret.
  simpl. apply Z.leb_le in Hl as ->. simpl. by rewrite Hc.
Qed.

Lemma readOpcode_run s op :
  code s !! instrPtr s = Some (COp op) -> instrPtr s + 2 <= codeHeapLimit s ->
  readOpcode s = Ok (instrPtr s, op) (set_instrPtr (instrPtr s + 2) s).
Proof.
  intros Hc Hl. unfold readOpcode. by erewrite bind_Ok by by apply readCode_run.
Qed.

Lemma readU16_run s n :
  code s !! instrPtr s = Some (CU16 n) -> instrPtr s + 2 <= codeHeapLimit s ->
  readU16 s = Ok n (set_instrPtr (instrPtr s + 2) s).
Proof.
  intros Hc Hl. unfold readU16. by erewrite bind_Ok by by apply readCode_run.
Qed.

Lemma readPtr_run s p :
  code s !! instrPtr s = Some (CPtr p) -> instrPtr s + 8 <= codeHeapLimit s ->
  readPtr s = Ok (instrPtr s, p) (set_instrPtr (instrPtr s + 8) s).
Proof.
  intros Hc Hl. unfold readPtr. by erewrite bind_Ok by by apply readCode_run.
Qed.

Lemma popVal_run s :
  stackLimit s <= stackPtr s < stackBase s ->
  popVal s = Ok (stackAt s (stackPtr s)) (set_stackPtr (stackPtr s + 1) s).
Proof.
  intros [Hlo Hhi]. unfold popVal, loadStack, inStack, bind, gets, modify,
    assert, ret. simpl.
  assert ((stackPtr s <? stackBase s) = true) as E1 by (apply Z.ltb_lt; lia).
  assert ((stackLimit s <=? stackPtr s) = true) as E2 by (apply Z.leb_le; lia).
  rewrite ?E1, ?E2; simpl; rewrite ?E1, ?E2; done.
Qed.

Lemma pushVal_run v s :
  stackLimit s < stackPtr s <= stackBase s ->
  pushVal v s =
    Ok () (set_stack (<[stackPtr s - 1 := v]> (stack s))
             (set_stackPtr (stackPtr s - 1) s)).
Proof.
  intros [Hlo Hhi]. unfold pushVal, storeStack, inStack, bind, gets, modify,
    assert, ret. simpl.
  assert ((stackLimit s <? stackPtr s) = true) as E1 by (apply Z.ltb_lt; lia).
  assert ((stackLimit s <=? stackPtr s - 1) = true) as E2 by (apply Z.leb_le; lia).
  assert ((stackPtr s - 1 <? stackBase s) = true) as E3 by (apply Z.ltb_lt; lia).
  rewrite ?E1, ?E2, ?E3; simpl; rewrite ?E1, ?E2, ?E3; done.
Qed.

Lemma popVal_Ok s v s' :
  popVal s = Ok v s' ->
  stackLimit s <= stackPtr s < stackBase s /\ v = stackAt s (stackPtr s) /\
  s' = set_stackPtr (stackPtr s + 1) s.
Proof.
  unfold popVal, loadStack, bind, gets, modify, assert, ret. simpl.
  destruct (stackPtr s <? stackBase s) eqn:E1; simpl; [|done].
  destruct (inStack s (stackPtr s)) eqn:E2; simpl; [|done].
  intros [= <- <-]. apply Z.ltb_lt in E1.
  apply andb_prop in E2 as [E2 _]. apply Z.leb_le in E2. done.
Qed.

Lemma pushVal_Ok v s s' :
  pushVal v s = Ok () s' ->
  stackLimit s < stackPtr s <= stackBase s /\
  s' = set_stack (<[stackPtr s - 1 := v]> (stack s))
         (set_stackPtr (stackPtr s - 1) s).
Proof.
  unfold pushVal, storeStack, bind, gets, modify, assert, ret. simpl.
  destruct (stackLimit s <? stackPtr s) eqn:E1; simpl; [|done].
  destruct (inStack _ _) eqn:E2; simpl; [|done].
  intros [= <-]. apply Z.ltb_lt in E1.
  apply andb_prop in E2 as [_ E3]. simpl in E3. apply Z.ltb_lt in E3.
  split; [lia|done].
Qed.

Lemma stackAt_insert_eq s a v st :
  stack s = <[a := v]> st -> stackAt s a = v.
Proof. unfold stackAt. intros ->. by rewrite lookup_insert_eq. Qed.

Lemma ICache_getField_run n o s fs v :
  Runtime.getObject (heap s) o = Some fs -> Runtime.lookupField n fs = Some v ->
  ICache.getField n o s = Ok v s.
Proof.
  intros Hfs Hv. unfold ICache.getField, objFields, bind, gets, defined. simpl.
  rewrite Hfs. simpl. by rewrite Hv.
Qed.


Lemma wrap_signed_id z :
  - 2 ^ 31 <= z < 2 ^ 31 -> Val.wrap_signed 32 z = z.
Proof.
  intros Hz. unfold Val.wrap_signed.
  change (2 ^ 32) with 4294967296. change (2 ^ (32 - 1)) with 2147483648.
  change (2 ^ 31) with 2147483648 in Hz.
  destruct (Z.ltb_spec (z mod 4294967296) 2147483648) as [H|H].
  - destruct (Z.le_gt_cases 0 z) as [Hp|Hn].
    + apply Z.mod_small. lia.
    + rewrite <- (Z.mod_add z 1 4294967296) in H by lia.
      rewrite Z.mod_small in H by lia. lia.
  - destruct (Z.le_gt_cases 0 z) as [Hp|Hn].
    + rewrite Z.mod_small in H by lia. lia.
    + rewrite <- (Z.mod_add z 1 4294967296) by lia.
      rewrite Z.mod_small by lia. lia.
Qed.


(** ** Returns *)

Section Return.
Context {host : Host}.

Lemma compile_version v s s' :
  compile v s = Ok () s' -> is_Some (versions s' !! v).
Proof.
  unfold compile. intros E.
  apply bind_Ok_inv in E as (bv & s1 & _ & E).
  apply bind_Ok_inv in E as (instrs & s2 & _ & E).
  apply bind_Ok_inv in E as (elems & s3 & _ & E).
  destruct (bool_decide _); [done|].
  apply bind_Ok_inv in E as (a & s4 & _ & E).
  apply bind_Ok_inv in E as ([] & s5 & _ & E).
  apply bind_Ok_inv in E as ([] & s6 & _ & E).
  apply bind_Ok_inv in E as (a' & s7 & _ & E).
  apply setEndPtr_Ok in E as (bv6 & _ & ->). simpl.
  rewrite lookup_insert_eq. eauto.
Qed.

Lemma ensureCompiled_version v s s' :
  ensureCompiled v s = Ok () s' -> is_Some (versions s' !! v).
Proof.
  unfold ensureCompiled. intros E.
  apply bind_Ok_inv in E as (bv & s1 & E1 & E).
  apply versionAt_Ok in E1 as [-> Hbv].
  destruct (_ =? _); [by eapply compile_version|].
  injection E as <-. eauto.
Qed.

Lemma versionAt_run v s bv :
  versions s !! v = Some bv -> versionAt v s = Ok bv s.
Proof. intros Hv. unfold versionAt, bind, gets, defined. by rewrite Hv. Qed.

(** [if (!version->startPtr) compile(version)], by cases. *)
Lemma ensureCompiled_cases v s bv0 :
  versions s !! v = Some bv0 ->
  ensureCompiled v s = if startPtr bv0 =? 0 then compile v s else Ok () s.
Proof.
  intros Hv. unfold ensureCompiled.
  rewrite (bind_Ok _ _ _ _ _ (versionAt_run _ _ _ Hv)).
  by destruct (startPtr bv0 =? 0).
Qed.

(** C2.  RET pops the return value, the return version, the saved frame
    pointer and the saved stack pointer, in this order, and restores the
    frame pointer and the stack pointer from the saved words.  With a null
    return version the loop is left with the return value.  Otherwise the
    return value is pushed on the restored stack; a return version that has
    a start pointer is not compiled again, one that has none is compiled
    and gets the allocation pointer as its start pointer (a [RunError] of
    the compiler leaves the loop); the loop goes on at the start pointer,
    which is not null. *)
Theorem ret_restores_frame s retVal retVer prevFramePtr prevStackPtr :
  Inv s ->
  code s !! instrPtr s = Some (COp RET) ->
  instrPtr s + 2 <= codeHeapLimit s ->
  stackLimit s <= stackPtr s -> stackPtr s + 4 <= stackBase s ->
  stackAt s (stackPtr s) = retVal ->
  stackAt s (stackPtr s + 1) = retVer ->
  stackAt s (stackPtr s + 2) = prevFramePtr ->
  stackAt s (stackPtr s + 3) = prevStackPtr ->
  let restored :=
    set_stackPtr (word prevStackPtr)
      (set_framePtr (word prevFramePtr) (set_instrPtr (instrPtr s + 2) s)) in
  (word retVer = 0 -> step s = Ok (Some retVal) restored) /\
  (word retVer ≠ 0 ->
   forall s1 bv0,
     pushVal retVal restored = Ok () s1 ->
     versions s !! word retVer = Some bv0 ->
     framePtr s1 = word prevFramePtr /\
     stackPtr s1 = word prevStackPtr - 1 /\
     stackAt s1 (stackPtr s1) = retVal /\
     (startPtr bv0 ≠ 0 ->
      step s = Ok None (set_instrPtr (startPtr bv0) s1)) /\
     (startPtr bv0 = 0 ->
      (forall s2, compile (word retVer) s1 = Ok () s2 ->
         exists bv,
           versions s2 !! word retVer = Some bv /\
           startPtr bv = codeHeapAlloc s /\ startPtr bv ≠ 0 /\
           endPtr bv = codeHeapAlloc s2 /\
           step s = Ok None (set_instrPtr (startPtr bv) s2) /\
           framePtr s2 = word prevFramePtr /\
           stackPtr s2 = word prevStackPtr - 1 /\
           stackAt s2 (stackPtr s2) = retVal) /\
      (forall e s2, compile (word retVer) s1 = Throw e s2 ->
         step s = Throw e s2))).
Proof.
  intros Hs Hop Hlim Hlo Hhi H0 H1 H2 H3 restored.
  assert (Hstep : step s =
    (if word retVer =? 0 then ret (Some retVal)
     else
       pushVal retVal ;;
       ensureCompiled (word retVer) ;;
       bv <- versionAt (word retVer) ;;
       modify (set_instrPtr (startPtr bv)) ;; ret None) restored).
  { unfold step. erewrite bind_Ok by by apply readOpcode_run.
    cbv beta iota delta [execInstr fst snd].
    erewrite bind_Ok by (apply popVal_run; simpl; lia).
    erewrite bind_Ok by (apply popVal_run; simpl; lia).
    erewrite bind_Ok by (apply popVal_run; simpl; lia).
    erewrite bind_Ok by (apply popVal_run; simpl; lia).
    unfold bind at 1, modify at 1. unfold bind at 1, modify at 1.
    subst retVal retVer prevFramePtr prevStackPtr restored.
    unfold stackAt. simpl.
    replace (stackPtr s + 1 + 1) with (stackPtr s + 2) by lia.
    replace (stackPtr s + 2 + 1) with (stackPtr s + 3) by lia.
    done. }
  split.
  - intros Hnull. rewrite Hstep. by apply Z.eqb_eq in Hnull as ->.
  - intros Hnn s1 bv0 Hpush Hv.
    pose proof (respects_Ok Same _ _ _ _ (quiet_pushVal _) Hpush) as Hsame.
    assert (Same s s1) as Hss.
    { etrans; [|done]. by subst restored. }
    pose proof (Same_Inv _ _ Hss Hs) as Hs1.
    apply Same_fields in Hss as (_ & _ & Halloc & _ & Hvers & _).
    assert (versions s1 !! word retVer = Some bv0) as Hv1 by (by rewrite Hvers).
    assert (Hstep2 : step s =
      match (if startPtr bv0 =? 0 then compile (word retVer) s1 else Ok () s1)
      with
      | Ok _ s' =>
          (bv <- versionAt (word retVer) ;;
           modify (set_instrPtr (startPtr bv)) ;; ret None) s'
      | Throw e s' => Throw e s'
      | Halt f => Halt f
      end).
    { rewrite Hstep. apply Z.eqb_neq in Hnn as ->.
      rewrite (bind_Ok _ _ _ _ _ Hpush). unfold bind at 1.
      by rewrite (ensureCompiled_cases _ _ _ Hv1). }
    clear Hstep. apply pushVal_Ok in Hpush as [_ Hs1eq].
    assert (framePtr s1 = word prevFramePtr /\
            stackPtr s1 = word prevStackPtr - 1 /\
            stackAt s1 (stackPtr s1) = retVal) as (Hf1 & Hp1 & Ht1).
    { rewrite Hs1eq. unfold stackAt. simpl. by rewrite lookup_insert_eq. }
    split; [done|]. split; [done|]. split; [done|]. split.
    + intros Hne. rewrite Hstep2. apply Z.eqb_neq in Hne as ->.
      by rewrite (bind_Ok _ _ _ _ _ (versionAt_run _ _ _ Hv1)).
    + intros Hz. rewrite Hstep2. apply Z.eqb_eq in Hz as ->. split.
      * intros s2 Hc. rewrite Hc.
        destruct (compile_Ok _ _ _ Hs1 Hc) as (bv & Hbv & Hst & Hend).
        pose proof (respects_Ok Frame _ _ _ _ (frame_compile _) Hc) as Hf.
        apply Frame_fields in Hf as (_ & _ & _ & Hstk & Hfp & Hsp & _).
        exists bv. rewrite (bind_Ok _ _ _ _ _ (versionAt_run _ _ _ Hbv)).
        split; [done|]. split; [by rewrite Hst, Halloc|].
        split; [rewrite Hst, Halloc; destruct Hs; lia|].
        split; [done|]. split; [done|].
        split; [by rewrite Hfp|]. split; [by rewrite Hsp|].
        unfold stackAt in *. by rewrite Hstk, Hsp.
      * intros e s2 Hc. by rewrite Hc.
Qed.
End Return.

(** ** Calls *)

Section Call.
Context {host : Host}.

(** The CALL instruction up to the dispatch on the callee. *)
Lemma call_dispatch s numArgs retVer :
  code s !! instrPtr s = Some (COp CALL) ->
  code s !! (instrPtr s + 2) = Some (CU16 numArgs) ->
  code s !! (instrPtr s + 4) = Some (CPtr retVer) ->
  instrPtr s + 12 <= codeHeapLimit s ->
  stackLimit s <= stackPtr s < stackBase s ->
  let callee := stackAt s (stackPtr s) in
  let s1 := set_stackPtr (stackPtr s + 1) (set_instrPtr (instrPtr s + 12) s) in
  step s =
    (if stackSizeOf s1 <? numArgs then throw Err.StackUnderflow
     else if Val.isObject callee then
       funCall (instrPtr s) (word callee) numArgs retVer ;; ret None
     else if Val.isHostFn callee then
       hostCall (instrPtr s) callee numArgs retVer ;; ret None
     else throw Err.InvalidCallee) s1.
Proof.
  intros Hop Hn Hr Hlim Hsp callee s1.
  unfold step. erewrite bind_Ok by (apply readOpcode_run; [done|lia]).
  cbv beta iota delta [execInstr fst snd].
  erewrite bind_Ok by (apply readU16_run; simpl; [done|lia]).
  erewrite bind_Ok by
    (apply readPtr_run; simpl;
     [by replace (instrPtr s + 2 + 2) with (instrPtr s + 4) by lia|lia]).
  erewrite bind_Ok by (apply popVal_run; simpl; lia).
  unfold stackSize at 1. unfold bind at 1, gets at 1.
  cbv beta iota delta [fst snd].
  subst callee s1. unfold stackAt, stackSizeOf. simpl.
  replace (instrPtr s + 2 + 2 + 8) with (instrPtr s + 12) by lia.
  done.
Qed.

Lemma to_size_t_int32 z :
  - 2 ^ 31 <= z < 2 ^ 31 ->
  (0 <= z /\ to_size_t z = z) \/ (z < 0 /\ to_size_t z = z + 2 ^ 64).
Proof.
  intros Hz. unfold to_size_t.
  change (2 ^ 31) with 2147483648 in Hz.
  change (2 ^ 64) with 18446744073709551616.
  destruct (Z.le_gt_cases 0 z) as [Hp|Hn]; [left|right]; split; try done.
  - apply Z.mod_small. lia.
  - rewrite <- (Z.mod_add z 1) by lia. rewrite Z.mod_small; lia.
Qed.



End Call.

Lemma to_size_t_small z : 0 <= z < 2 ^ 64 -> to_size_t z = z.
Proof. intros Hz. unfold to_size_t. by apply Z.mod_small. Qed.

Lemma to_size_t_pred_ne z : to_size_t (z - 1) ≠ to_size_t z.
Proof.
  unfold to_size_t. intros H.
  assert ((z - (z - 1)) mod 2 ^ 64 = 0) as H0.
  { rewrite Zminus_mod, H, Z.sub_diag. done. }
  replace (z - (z - 1)) with 1 in H0 by lia. done.
Qed.

Section CallRet.
Context {host : Host}.

Lemma pure_Ok {A} (m : M A) s a s' : respects eq m -> m s = Ok a s' -> s' = s.
Proof. intros Hm E. symmetry. by eapply respects_Ok. Qed.

(** What a CALL of a function object that goes through has done. *)
Lemma call_user_Ok_inv s s1 numArgs retVer :
  code s !! instrPtr s = Some (COp CALL) ->
  code s !! (instrPtr s + 2) = Some (CU16 numArgs) ->
  code s !! (instrPtr s + 4) = Some (CPtr retVer) ->
  tag (stackAt s (stackPtr s)) = TAG_OBJECT ->
  step s = Ok None s1 ->
  stackLimit s <= stackPtr s < stackBase s /\
  numArgs <= stackSizeOf (set_stackPtr (stackPtr s + 1) s) /\
  stackLimit s1 = stackLimit s /\ stackBase s1 = stackBase s /\
  stackLimit s1 <= stackPtr s1 /\ stackPtr s1 + 3 <= stackBase s1 /\
  stackAt s1 (stackPtr s1) = Val.rawptr retVer /\
  stackAt s1 (stackPtr s1 + 1) = Val.rawptr (framePtr s) /\
  stackAt s1 (stackPtr s1 + 2) = Val.rawptr (stackPtr s + 1 + numArgs).
Proof.
  intros Hop Hn Hr Htag E. unfold step in E.
  apply bind_Ok_inv in E as ([a op] & sa & Ea & E).
  apply readOpcode_Ok in Ea as (-> & Hop' & _ & ->).
  rewrite Hop in Hop'. injection Hop' as <-.
  cbv beta iota delta [execInstr fst snd] in E.
  apply bind_Ok_inv in E as (n & sb & Eb & E).
  apply readU16_Ok in Eb as (Hn' & _ & ->). simpl in Hn'.
  rewrite Hn in Hn'. injection Hn' as <-.
  apply bind_Ok_inv in E as ([a r] & sc & Ec & E).
  apply readPtr_Ok in Ec as (-> & Hr' & _ & ->). simpl in Hr'.
  replace (instrPtr s + 2 + 2) with (instrPtr s + 4) in Hr' by lia.
  rewrite Hr in Hr'. injection Hr' as <-.
  apply bind_Ok_inv in E as (callee & sd & Ed & E).
  apply popVal_Ok in Ed as (Hsp & -> & ->). simpl in Hsp.
  unfold stackSize, bind at 1, gets at 1 in E.
  destruct (_ <? numArgs) eqn:Hsz; [done|]. apply Z.ltb_ge in Hsz.
  unfold stackSizeOf in Hsz. simpl in Hsz.
  unfold stackAt in E at 1. simpl in E. fold (stackAt s (stackPtr s)) in E.
  unfold Val.isObject in E. rewrite Htag in E.
  rewrite bool_decide_eq_true_2 in E by done.
  apply bind_Ok_inv in E as ([] & s' & E & [= <-]).
  set (s0 := set_stackPtr _ _) in *.
  unfold funCall in E.
  apply bind_Ok_inv in E as (entryBB & se & Ee & E).
  apply pure_Ok in Ee as ->; [|pure].
  apply bind_Ok_inv in E as (entryVer & sf & Ef & E).
  apply (respects_Ok Frame) in Ef; [|frame].
  apply bind_Ok_inv in E as ([] & sg & Eg & E).
  apply (respects_Ok Frame) in Eg; [|frame].
  assert (Frame s0 sg) as F by (by etrans).
  apply Frame_fields in F as (_ & Hlim & Hbase & Hst & Hfp & Hsp' & _).
  simpl in Hlim, Hbase, Hst, Hfp, Hsp'.
  apply bind_Ok_inv in E as (numLocals & sh & Eh & E).
  apply pure_Ok in Eh as ->; [|pure].
  apply bind_Ok_inv in E as (numParams & si & Ei & E).
  apply pure_Ok in Ei as ->; [|pure].
  apply bind_Ok_inv in E as ([] & sj & Ej & E).
  apply pure_Ok in Ej as ->; [|pure].
  destruct (numLocals <? numParams); [done|].
  destruct (bool_decide _); [done|].
  unfold bind at 1, gets at 1 in E. unfold bind at 1, gets at 1 in E.
  unfold bind at 1, gets at 1 in E.
  apply bind_Ok_inv in E as ([] & sk & Ek & E).
  unfold assert in Ek. destruct (_ <? _); [|done]. injection Ek as <-.
  unfold bind at 1, modify at 1 in E. unfold bind at 1, modify at 1 in E.
  apply bind_Ok_inv in E as ([] & sl & El & E).
  apply pushVal_Ok in El as [Hb1 ->].
  apply bind_Ok_inv in E as ([] & sm & Em & E).
  apply pushVal_Ok in Em as [Hb2 ->].
  apply bind_Ok_inv in E as ([] & sn & En & E).
  apply pushVal_Ok in En as [Hb3 ->].
  apply bind_Ok_inv in E as (bv & so & Eo & E).
  apply versionAt_Ok in Eo as [-> _].
  unfold modify in E. injection E as <-.
  simpl in *. rewrite Hsp', Hfp, Hlim, Hbase in *.
  unfold stackSizeOf. simpl.
  repeat split; try lia; unfold stackAt; simpl;
    rewrite !lookup_insert; repeat case_decide; first [done|lia].
Qed.

(** What a RET that goes back to a return version has done. *)
Lemma ret_Ok_inv s s' :
  code s !! instrPtr s = Some (COp RET) ->
  step s = Ok None s' ->
  stackLimit s <= stackPtr s /\ stackPtr s + 4 <= stackBase s /\
  stackLimit s' = stackLimit s /\ stackBase s' = stackBase s /\
  framePtr s' = word (stackAt s (stackPtr s + 2)) /\
  stackPtr s' = word (stackAt s (stackPtr s + 3)) - 1 /\
  stackLimit s' <= stackPtr s' < stackBase s' /\
  stackAt s' (stackPtr s') = stackAt s (stackPtr s) /\
  exists bv, versions s' !! word (stackAt s (stackPtr s + 1)) = Some bv /\
    instrPtr s' = startPtr bv.
Proof.
  intros Hop E. unfold step in E.
  apply bind_Ok_inv in E as ([a op] & sa & Ea & E).
  apply readOpcode_Ok in Ea as (-> & Hop' & _ & ->).
  rewrite Hop in Hop'. injection Hop' as <-.
  cbv beta iota delta [execInstr fst snd] in E.
  apply bind_Ok_inv in E as (retVal & sb & Eb & E).
  apply popVal_Ok in Eb as (Hb1 & -> & ->).
  apply bind_Ok_inv in E as (retVer & sc & Ec & E).
  apply popVal_Ok in Ec as (Hb2 & -> & ->).
  apply bind_Ok_inv in E as (prevFp & sd & Ed & E).
  apply popVal_Ok in Ed as (Hb3 & -> & ->).
  apply bind_Ok_inv in E as (prevSp & se & Ee & E).
  apply popVal_Ok in Ee as (Hb4 & -> & ->).
  unfold bind at 1, modify at 1 in E. unfold bind at 1, modify at 1 in E.
  simpl in Hb1, Hb2, Hb3, Hb4.
  unfold stackAt in E. simpl in E.
  replace (stackPtr s + 1 + 1) with (stackPtr s + 2) in E by lia.
  replace (stackPtr s + 2 + 1) with (stackPtr s + 3) in E by lia.
  fold (stackAt s (stackPtr s)) in E. fold (stackAt s (stackPtr s + 1)) in E.
  fold (stackAt s (stackPtr s + 2)) in E. fold (stackAt s (stackPtr s + 3)) in E.
  destruct (_ =? 0); [done|].
  apply bind_Ok_inv in E as ([] & sf & Ef & E).
  apply pushVal_Ok in Ef as [Hb5 ->]. simpl in Hb5.
  apply bind_Ok_inv in E as ([] & sg & Eg & E).
  apply (respects_Ok Frame) in Eg; [|frame].
  apply Frame_fields in Eg as (_ & Hlim & Hbase & Hst & Hfp & Hsp & _).
  simpl in Hlim, Hbase, Hst, Hfp, Hsp.
  apply bind_Ok_inv in E as (bv & sh & Eh & E).
  apply versionAt_Ok in Eh as [-> Hbv].
  apply bind_Ok_inv in E as ([] & si & Ei & E).
  unfold modify in Ei. injection Ei as <-. injection E as <-.
  simpl. rewrite ?Hlim, ?Hbase, ?Hfp, ?Hsp.
  repeat split; try lia.
  - unfold stackAt at 1. simpl. rewrite Hst. by rewrite lookup_insert_eq.
  - eauto.
Qed.

(** C5, as amended.  Between a CALL of a function object and the RET that
    returns from it (the RET executed with one value on top of the three
    saved words of the call, which are as the call left them), the stack
    loses the [numArgs] arguments: the callee and the arguments are gone and
    the return value is on top.  The frame pointer is the caller's again and
    the loop goes on at the return version of the CALL. *)
Theorem call_ret_stack_size s s1 s2 s3 numArgs retVer :
  code s !! instrPtr s = Some (COp CALL) ->
  code s !! (instrPtr s + 2) = Some (CU16 numArgs) ->
  0 <= numArgs ->
  code s !! (instrPtr s + 4) = Some (CPtr retVer) ->
  tag (stackAt s (stackPtr s)) = TAG_OBJECT ->
  stackBase s - stackLimit s < 2 ^ 64 ->
  step s = Ok None s1 ->
  code s2 !! instrPtr s2 = Some (COp RET) ->
  stackLimit s2 = stackLimit s1 -> stackBase s2 = stackBase s1 ->
  stackPtr s2 = stackPtr s1 - 1 ->
  (forall i, 0 <= i < 3 ->
     stackAt s2 (stackPtr s1 + i) = stackAt s1 (stackPtr s1 + i)) ->
  step s2 = Ok None s3 ->
  stackSizeOf s3 = stackSizeOf s - numArgs /\
  framePtr s3 = framePtr s /\
  stackAt s3 (stackPtr s3) = stackAt s2 (stackPtr s2) /\
  exists bv, versions s3 !! retVer = Some bv /\ instrPtr s3 = startPtr bv.
Proof.
  intros Hop Hn Hn0 Hr Htag Hfit Hcall Hret Hlim Hbase Hsp Hsaved Hstep.
  destruct (call_user_Ok_inv _ _ _ _ Hop Hn Hr Htag Hcall)
    as (Hb & Hsz & Hl1 & Hb1 & Hlo1 & Hhi1 & Hw0 & Hw1 & Hw2).
  destruct (ret_Ok_inv _ _ Hret Hstep)
    as (Hlo2 & Hhi2 & Hl3 & Hb3 & Hfp3 & Hsp3 & Hin3 & Htop & bv & Hbv & Hip).
  rewrite Hsp in Hfp3, Hsp3, Hbv.
  replace (stackPtr s1 - 1 + 1) with (stackPtr s1 + 0) in Hbv by lia.
  replace (stackPtr s1 - 1 + 2) with (stackPtr s1 + 1) in Hfp3 by lia.
  replace (stackPtr s1 - 1 + 3) with (stackPtr s1 + 2) in Hsp3 by lia.
  rewrite Hsaved in Hbv, Hfp3, Hsp3 by lia.
  rewrite Z.add_0_r, Hw0 in Hbv. rewrite Hw1 in Hfp3. rewrite Hw2 in Hsp3.
  simpl in Hbv, Hfp3, Hsp3.
  unfold stackSizeOf in *. simpl in Hsz.
  rewrite to_size_t_small in Hsz by lia.
  rewrite Hb3, Hbase, Hb1, Hsp3.
  rewrite !to_size_t_small by lia.
  split; [lia|]. split; [done|]. split; [by rewrite <- Hsp3|]. eauto.
Qed.

(** C10.  When a CALL fails with the stack-underflow error or with the
    invalid-callee error, the callee has been popped: the stack pointer is
    one slot up and the stack size is not what it was. *)
Theorem call_error_after_pop s numArgs retVer :
  code s !! instrPtr s = Some (COp CALL) ->
  code s !! (instrPtr s + 2) = Some (CU16 numArgs) ->
  code s !! (instrPtr s + 4) = Some (CPtr retVer) ->
  instrPtr s + 12 <= codeHeapLimit s ->
  stackLimit s <= stackPtr s < stackBase s ->
  let callee := stackAt s (stackPtr s) in
  let s1 := set_stackPtr (stackPtr s + 1) (set_instrPtr (instrPtr s + 12) s) in
  stackPtr s1 = stackPtr s + 1 /\ stackSizeOf s1 ≠ stackSizeOf s /\
  (stackSizeOf s1 < numArgs -> step s = Throw Err.StackUnderflow s1) /\
  (numArgs <= stackSizeOf s1 ->
   tag callee ≠ TAG_OBJECT -> tag callee ≠ TAG_HOSTFN ->
   step s = Throw Err.InvalidCallee s1).
Proof.
  intros Hop Hn Hr Hlim Hsp callee s1.
  split; [done|]. split.
  { unfold stackSizeOf. simpl.
    replace (stackBase s - (stackPtr s + 1)) with (stackBase s - stackPtr s - 1)
      by lia.
    apply to_size_t_pred_ne. }
  rewrite (call_dispatch s numArgs retVer) by done. fold s1 callee.
  split.
  - intros Hsz. by apply Z.ltb_lt in Hsz as ->.
  - intros Hsz Hobj Hfn.
    assert ((stackSizeOf s1 <? numArgs) = false) as -> by (apply Z.ltb_ge; lia).
    unfold Val.isObject, Val.isHostFn.
    by rewrite !bool_decide_eq_false_2.
Qed.
End CallRet.

(** ** Fields and branches *)

Lemma setField_missing name v fs :
  Runtime.hasField name fs = false ->
  Runtime.setField name v fs = fs ++ [(name, v)].
Proof.
  unfold Runtime.hasField. induction fs as [|[k w] fs IH]; simpl; [done|].
  destruct (String.eqb k name); [done|]. intros H. by rewrite IH.
Qed.

Lemma lookupField_setField name v fs :
  Runtime.lookupField name (Runtime.setField name v fs) = Some v.
Proof.
  induction fs as [|[k w] fs IH]; simpl.
  - by rewrite String.eqb_refl.
  - destruct (String.eqb k name) eqn:E; simpl; by rewrite E.
Qed.

Section Fields.
Context {host : Host}.

Lemma stringOf_run s v str :
  tag v = TAG_STRING -> Runtime.getString (heap s) (word v) = Some str ->
  stringOf v s = Ok str s.
Proof.
  intros Ht Hs. unfold stringOf, Val.isString, bind, assert, gets, defined.
  rewrite bool_decide_eq_true_2 by done. simpl. by rewrite Hs.
Qed.

Lemma popStr_run s str :
  stackLimit s <= stackPtr s < stackBase s ->
  tag (stackAt s (stackPtr s)) = TAG_STRING ->
  Runtime.getString (heap s) (word (stackAt s (stackPtr s))) = Some str ->
  popStr s = Ok str (set_stackPtr (stackPtr s + 1) s).
Proof.
  intros Hb Ht Hs. unfold popStr. erewrite bind_Ok by by apply popVal_run.
  by apply stringOf_run.
Qed.

Lemma popObj_run s :
  stackLimit s <= stackPtr s < stackBase s ->
  tag (stackAt s (stackPtr s)) = TAG_OBJECT ->
  popObj s = Ok (word (stackAt s (stackPtr s))) (set_stackPtr (stackPtr s + 1) s).
Proof.
  intros Hb Ht. unfold popObj. erewrite bind_Ok by by apply popVal_run.
  unfold bind, assert, Val.isObject. by rewrite bool_decide_eq_true_2.
Qed.

Lemma objFields_run s obj fs :
  Runtime.getObject (heap s) obj = Some fs -> objFields obj s = Ok fs s.
Proof. intros H. unfold objFields, bind, gets, defined. simpl. by rewrite H. Qed.

(** C6, as amended.  GET_FIELD on an object that lacks the named field
    throws the missing-field [RunError] of get_field.  SET_FIELD on an object
    that lacks the named field does not fail for that: with a valid
    identifier it adds the field, holding the value, in the next slot; with
    an invalid one it throws the invalid-identifier [RunError]. *)
Theorem field_missing s name str obj fields :
  instrPtr s + 2 <= codeHeapLimit s ->
  Runtime.getString (heap s) name = Some str ->
  Runtime.getObject (heap s) obj = Some fields ->
  Runtime.hasField str fields = false ->
  (code s !! instrPtr s = Some (COp GET_FIELD) ->
   stackLimit s <= stackPtr s -> stackPtr s + 2 <= stackBase s ->
   stackAt s (stackPtr s) = Val.str name ->
   stackAt s (stackPtr s + 1) = Val.obj obj ->
   step s = Throw (Err.GetFieldMissing str)
              (set_stackPtr (stackPtr s + 2) (set_instrPtr (instrPtr s + 2) s)))
  /\
  (code s !! instrPtr s = Some (COp SET_FIELD) ->
   stackLimit s <= stackPtr s -> stackPtr s + 3 <= stackBase s ->
   stackAt s (stackPtr s + 1) = Val.str name ->
   stackAt s (stackPtr s + 2) = Val.obj obj ->
   let val := stackAt s (stackPtr s) in
   let s1 := set_stackPtr (stackPtr s + 3) (set_instrPtr (instrPtr s + 2) s) in
   (isValidIdent str = true ->
    exists s', step s = Ok None s' /\ stackPtr s' = stackPtr s + 3 /\
      Runtime.getObject (heap s') obj = Some (fields ++ [(str, val)])) /\
   (isValidIdent str = false ->
    step s = Throw (Err.InvalidFieldName str) s1)).
Proof.
  intros Hlim Hname Hobj Hmiss. unfold stackAt. split.
  - intros Hop Hlo Hhi Hn Ho.
    unfold step. erewrite bind_Ok by by apply readOpcode_run.
    cbv beta iota delta [execInstr fst snd].
    erewrite bind_Ok by
      (apply popStr_run; unfold stackAt; simpl; [lia|by rewrite Hn..]).
    erewrite bind_Ok by
      (apply popObj_run; unfold stackAt; simpl; [lia|by rewrite Ho]).
    unfold stackAt. simpl. rewrite Ho. simpl.
    erewrite bind_Ok by (by apply objFields_run).
    rewrite Hmiss. simpl.
    by replace (stackPtr s + 1 + 1) with (stackPtr s + 2) by lia.
  - intros Hop Hlo Hhi Hn Ho. cbv zeta.
    set (val := default Val.FALSE (stack s !! stackPtr s)).
    set (s1 := set_stackPtr (stackPtr s + 3) (set_instrPtr (instrPtr s + 2) s)).
    assert (Hstep : step s =
      (if negb (isValidIdent str) then throw (Err.InvalidFieldName str)
       else
         fs <- objFields obj ;;
         modify (fun s =>
           set_heap
             (Runtime.update obj (HObject (Runtime.setField str val fs))
                (heap s)) s) ;;
         ret None) s1).
    { unfold step. erewrite bind_Ok by by apply readOpcode_run.
      cbv beta iota delta [execInstr fst snd].
      erewrite bind_Ok by (apply popVal_run; simpl; lia).
      erewrite bind_Ok by
        (apply popStr_run; unfold stackAt; simpl; [lia|by rewrite Hn..]).
      erewrite bind_Ok by
        (apply popObj_run; unfold stackAt; simpl;
         [lia|replace (stackPtr s + 1 + 1) with (stackPtr s + 2) by lia;
              by rewrite Ho]).
      unfold stackAt. simpl.
      replace (stackPtr s + 1 + 1) with (stackPtr s + 2) by lia.
      replace (stackPtr s + 2 + 1) with (stackPtr s + 3) by lia.
      by rewrite Ho. }
    rewrite Hstep. split.
    + intros Hv. rewrite Hv. simpl.
      erewrite bind_Ok by (by apply objFields_run).
      eexists. split; [reflexivity|]. split; [done|]. simpl.
      unfold Runtime.getObject, Runtime.update. simpl.
      rewrite lookup_insert_eq. by rewrite setField_missing.
    + intros Hv. by rewrite Hv.
Qed.

(** The IF_TRUE instruction up to the choice of the target. *)
Lemma if_true_dispatch s thenW elseW :
  code s !! instrPtr s = Some (COp IF_TRUE) ->
  code s !! (instrPtr s + 2) = Some (CPtr thenW) ->
  code s !! (instrPtr s + 10) = Some (CPtr elseW) ->
  instrPtr s + 18 <= codeHeapLimit s ->
  stackLimit s <= stackPtr s < stackBase s ->
  step s =
    ((if Runtime.valueEq (heap s) (stackAt s (stackPtr s)) Val.TRUE
      then branchTo (instrPtr s + 2) thenW
      else branchTo (instrPtr s + 10) elseW) ;; ret None)
      (set_stackPtr (stackPtr s + 1) (set_instrPtr (instrPtr s + 18) s)).
Proof.
  intros Hop Ht He Hlim Hsp.
  unfold step. erewrite bind_Ok by (apply readOpcode_run; [done|lia]).
  cbv beta iota delta [execInstr fst snd].
  erewrite bind_Ok by (apply readPtr_run; simpl; [done|lia]).
  erewrite bind_Ok by
    (apply readPtr_run; simpl;
     [by replace (instrPtr s + 2 + 8) with (instrPtr s + 10) by lia|lia]).
  erewrite bind_Ok by (apply popVal_run; simpl; lia).
  unfold bind at 1, gets at 1. cbv beta iota delta [fst snd]. simpl.
  replace (instrPtr s + 2 + 8 + 8) with (instrPtr s + 18) by lia.
  replace (instrPtr s + 2 + 8) with (instrPtr s + 10) by lia.
  done.
Qed.

(** C9.  IF_TRUE compares the popped value with the constant TRUE and with
    nothing else: the then target is taken exactly when the value is TRUE,
    the else target for every other value, boolean or not, and the
    comparison raises no error.  A target that is a code address is jumped
    to; a target that is still a version is compiled if need be, patched in
    place and jumped to, the other one staying as it is. *)
Theorem if_true_only_TRUE s thenW elseW :
  code s !! instrPtr s = Some (COp IF_TRUE) ->
  code s !! (instrPtr s + 2) = Some (CPtr thenW) ->
  code s !! (instrPtr s + 10) = Some (CPtr elseW) ->
  instrPtr s + 18 <= codeHeapLimit s ->
  stackLimit s <= stackPtr s < stackBase s ->
  let taken :=
    if decide (stackAt s (stackPtr s) = Val.TRUE)
    then (instrPtr s + 2, thenW) else (instrPtr s + 10, elseW) in
  let s1 := set_stackPtr (stackPtr s + 1) (set_instrPtr (instrPtr s + 18) s) in
  (codeHeap s <= taken.2 < codeHeapLimit s ->
   step s = Ok None (set_instrPtr taken.2 s1)) /\
  (taken.2 < codeHeap s \/ codeHeapLimit s <= taken.2 ->
   forall s2, ensureCompiled taken.2 s1 = Ok () s2 ->
   exists bv, versions s2 !! taken.2 = Some bv /\
     step s =
       Ok None
         (set_instrPtr (startPtr bv)
            (set_code (<[taken.1 := CPtr (startPtr bv)]> (code s2)) s2))).
Proof.
  intros Hop Ht He Hlim Hsp taken s1.
  rewrite (if_true_dispatch s thenW elseW) by done. fold s1.
  assert (Hbranch :
    (if Runtime.valueEq (heap s) (stackAt s (stackPtr s)) Val.TRUE
     then branchTo (instrPtr s + 2) thenW
     else branchTo (instrPtr s + 10) elseW) = branchTo taken.1 taken.2).
  { subst taken. destruct (decide _) as [E|E].
    - by apply (valueEq_TRUE (heap s)) in E as ->.
    - destruct (Runtime.valueEq _ _ _) eqn:Hv; [|done].
      by apply valueEq_TRUE in Hv. }
  rewrite Hbranch. clear Hbranch. unfold branchTo.
  split.
  - intros [Hlo Hhi].
    unfold bind at 1. unfold bind at 1, gets at 1. unfold bind at 1, gets at 1.
    change (codeHeap s1) with (codeHeap s).
    change (codeHeapLimit s1) with (codeHeapLimit s).
    assert ((taken.2 <? codeHeap s) = false) as -> by (apply Z.ltb_ge; lia).
    assert ((codeHeapLimit s <=? taken.2) = false) as ->
      by (apply Z.leb_gt; lia).
    done.
  - intros Hout s2 Hcomp.
    destruct (ensureCompiled_version _ _ _ Hcomp) as [bv Hbv].
    exists bv. split; [done|].
    unfold bind at 1. unfold bind at 1, gets at 1. unfold bind at 1, gets at 1.
    change (codeHeap s1) with (codeHeap s).
    change (codeHeapLimit s1) with (codeHeapLimit s).
    assert ((taken.2 <? codeHeap s) || (codeHeapLimit s <=? taken.2) = true)
      as ->.
    { apply orb_true_iff. destruct Hout; [left|right];
        [by apply Z.ltb_lt|by apply Z.leb_le]. }
    rewrite (bind_Ok _ _ _ _ _ Hcomp).
    erewrite bind_Ok by (by apply versionAt_run).
    done.
Qed.
End Fields.

(** ** The single-character cache and the jump stubs, over time *)

Section Temporal.
Context {host : Host}.

Lemma popInt32_Ok s z s' :
  popInt32 s = Ok z s' ->
  stackLimit s <= stackPtr s < stackBase s /\
  z = Val.wrap_signed 32 (word (stackAt s (stackPtr s))) /\
  s' = set_stackPtr (stackPtr s + 1) s.
Proof.
  unfold popInt32. intros E. apply bind_Ok_inv in E as (v & s1 & E1 & E).
  apply popVal_Ok in E1 as (Hb & -> & ->).
  unfold bind, assert in E. destruct (Val.isInt32 _); [|done].
  by injection E as <- <-.
Qed.

Lemma popStr_Ok s str s' :
  popStr s = Ok str s' ->
  stackLimit s <= stackPtr s < stackBase s /\
  Runtime.getString (heap s) (word (stackAt s (stackPtr s))) = Some str /\
  s' = set_stackPtr (stackPtr s + 1) s.
Proof.
  unfold popStr. intros E. apply bind_Ok_inv in E as (v & s1 & E1 & E).
  apply popVal_Ok in E1 as (Hb & -> & ->).
  unfold stringOf, bind, assert, gets, defined in E.
  destruct (Val.isString _); [|done]. simpl in E.
  destruct (Runtime.getString _ _) eqn:Hs; [|done]. by injection E as <- <-.
Qed.

(** What a GET_CHAR that goes through has done: [b] is the byte it read. *)
Lemma get_char_Ok_inv s s' str b :
  code s !! instrPtr s = Some (COp GET_CHAR) ->
  Runtime.getString (heap s) (word (stackAt s (stackPtr s + 1))) = Some str ->
  Runtime.byteAt str
    (to_size_t (Val.wrap_signed 32 (word (stackAt s (stackPtr s))))) = Some b ->
  step s = Ok None s' ->
  let val := stackAt s' (stackPtr s') in
  charStrings s' !! Z.to_nat b = Some val /\ val ≠ Val.FALSE /\
  (forall c, charStrings s !! Z.to_nat b = Some c -> c ≠ Val.FALSE -> val = c) /\
  (charStrings s !! Z.to_nat b = Some Val.FALSE ->
   tag val = TAG_STRING /\
   Runtime.getString (heap s') (word val) = Some (Runtime.charBuf b)).
Proof.
  intros Hop Hstr Hb E. unfold step in E.
  apply bind_Ok_inv in E as ([a op] & sa & Ea & E).
  apply readOpcode_Ok in Ea as (-> & Hop' & _ & ->).
  rewrite Hop in Hop'. injection Hop' as <-.
  cbv beta iota delta [execInstr fst snd] in E.
  apply bind_Ok_inv in E as (i & sb & Eb & E).
  apply popInt32_Ok in Eb as (Hb1 & -> & ->).
  apply bind_Ok_inv in E as (str' & sc & Ec & E).
  apply popStr_Ok in Ec as (Hb2 & Hstr' & ->).
  unfold stackAt in Hstr', E. simpl in Hstr', E, Hb1, Hb2.
  unfold stackAt in Hstr, Hb. rewrite Hstr in Hstr'. injection Hstr' as <-.
  destruct (_ <=? _); [done|].
  rewrite Hb in E. unfold bind at 1, defined at 1, ret at 1 in E.
  unfold bind at 1, gets at 1 in E. simpl in E.
  destruct (charStrings s !! Z.to_nat b) as [cached|] eqn:Hc; [|done].
  unfold bind at 1, defined at 1, ret at 1 in E.
  unfold bind at 1, gets at 1 in E. simpl in E.
  destruct (Runtime.valueEq (heap s) cached Val.FALSE) eqn:Heq.
  - apply valueEq_FALSE in Heq as ->.
    unfold newString, bind, gets, modify, ret, defined in E. simpl in E.
    assert (Z.to_nat b < length (charStrings s))%nat as Hlen
      by (by eapply lookup_lt_Some).
    rewrite list_lookup_insert_eq in E by done.
    unfold ret in E.
    destruct (pushVal _ _) as [[] sd|?|?] eqn:Ed; [|done..].
    apply pushVal_Ok in Ed as [_ ->]. injection E as <-. simpl.
    unfold stackAt. simpl. rewrite lookup_insert_eq. simpl.
    rewrite list_lookup_insert_eq by done.
    split; [done|]. split; [done|]. split; [by intros c [= <-]|].
    intros _. split; [done|].
    unfold Runtime.getString. simpl. by rewrite lookup_insert_eq.
  - unfold bind at 1, ret at 1 in E. unfold bind at 1, gets at 1 in E.
    simpl in E. rewrite Hc in E.
    unfold bind at 1, defined at 1, ret at 1 in E.
    apply bind_Ok_inv in E as ([] & sd & Ed & E).
    apply pushVal_Ok in Ed as [_ ->]. injection E as <-. simpl.
    unfold stackAt. simpl. rewrite lookup_insert_eq. simpl.
    assert (cached ≠ Val.FALSE) as Hne.
    { intros ->. unfold Runtime.valueEq in Heq. by simpl in Heq. }
    split; [done|]. split; [done|]. split; [by intros c [= <-]|].
    intros [= ->]. done.
Qed.

(** C8.  Two executions of GET_CHAR that read the same byte push the same
    value, word and tag: the cache entry of the byte, once filled, is what
    every later GET_CHAR for this byte returns, whatever ran in between. *)
Theorem get_char_interned s1 s1' s2 s2' str1 str2 b :
  Inv s1 ->
  code s1 !! instrPtr s1 = Some (COp GET_CHAR) ->
  Runtime.getString (heap s1) (word (stackAt s1 (stackPtr s1 + 1)))
    = Some str1 ->
  Runtime.byteAt str1
    (to_size_t (Val.wrap_signed 32 (word (stackAt s1 (stackPtr s1)))))
    = Some b ->
  step s1 = Ok None s1' ->
  reach s1' s2 ->
  code s2 !! instrPtr s2 = Some (COp GET_CHAR) ->
  Runtime.getString (heap s2) (word (stackAt s2 (stackPtr s2 + 1)))
    = Some str2 ->
  Runtime.byteAt str2
    (to_size_t (Val.wrap_signed 32 (word (stackAt s2 (stackPtr s2)))))
    = Some b ->
  step s2 = Ok None s2' ->
  stackAt s2' (stackPtr s2') = stackAt s1' (stackPtr s1') /\
  stackAt s1' (stackPtr s1') ≠ Val.FALSE /\
  charStrings s2' !! Z.to_nat b = Some (stackAt s1' (stackPtr s1')).
Proof.
  intros Hs1 Hop1 Hstr1 Hb1 E1 Hreach Hop2 Hstr2 Hb2 E2.
  destruct (get_char_Ok_inv _ _ _ _ Hop1 Hstr1 Hb1 E1) as (Hc1 & Hne1 & _).
  destruct (get_char_Ok_inv _ _ _ _ Hop2 Hstr2 Hb2 E2) as (Hc2 & _ & Hsame & _).
  assert (Inv s1') as Hs1'.
  { by apply (respects_Ok Sound _ _ _ _ step_sound E1). }
  pose proof (ext_chars _ _ (reach_Ext _ _ Hreach Hs1') _ _ Hc1 Hne1) as Hc.
  specialize (Hsame _ Hc Hne1). cbv zeta in *.
  split; [done|]. split; [done|]. by rewrite <- Hsame.
Qed.



End Temporal.

(** * The model at work on the example image *)

Lemma Inv_vm0 : Inv Example.vm0.
Proof. by apply Inv_initInterp. Qed.

Lemma Inv_entered fn sz :
  callFunEnter (host := Example.host) fn [] Example.vm0
    = Ok sz (Example.entered fn) ->
  Inv (Example.entered fn).
Proof.
  intros E. apply (respects_Ok Sound _ _ _ _ (callFunEnter_sound _ _) E).
  apply Inv_vm0.
Qed.

Lemma Inv_after n fn sz :
  callFunEnter (host := Example.host) fn [] Example.vm0
    = Ok sz (Example.entered fn) ->
  run (H := Example.host) n (Example.entered fn) = Some (Example.after n fn) ->
  Inv (Example.after n fn).
Proof.
  intros E Hr. eapply reach_Inv; [by eapply run_reach|by eapply Inv_entered].
Qed.


(** C4: the second [callFun] on a function compiles its entry block again. *)
Theorem callFun_twice_recompiles :
  exists s1 s2,
    callFun (host := Example.host) 10 Example.main1 [] Example.vm0
      = Ok (Val.int32 777) s1 /\
    versions s1 !! 4194304 = Some (mkBlockVersion 4096 4116 24 23) /\
    versionMap s1 !! 23 = Some [4194304] /\
    callFun (host := Example.host) 10 Example.main1 [] s1
      = Ok (Val.int32 777) s2 /\
    versions s2 !! 4194304 = Some (mkBlockVersion 4116 4136 24 23) /\
    codeHeapAlloc s1 = 4116 /\ codeHeapAlloc s2 = 4136.
Proof.
  eexists _, _. split; [vm_compute; reflexivity|].
  split; [vm_compute; reflexivity|]. split; [vm_compute; reflexivity|].
  split; [vm_compute; reflexivity|]. split; vm_compute; done.
Qed.

(** Closed goals are settled by evaluation. *)
Ltac closed :=
  vm_compute;
  repeat match goal with |- _ /\ _ => split end;
  first [ reflexivity | discriminate | (intros H; discriminate H) ].



Lemma ret_restores_frame_witness :
  let s := Example.after 5 Example.main2 in
  let t := Example.after 4 Example.main2 in
  step (host := Example.host) s
    = Ok (Some (stackAt s (stackPtr s)))
        (set_stackPtr (word (stackAt s (stackPtr s + 3)))
           (set_framePtr (word (stackAt s (stackPtr s + 2)))
              (set_instrPtr (instrPtr s + 2) s))) /\
  exists t2 bv,
    versions t2 !! 4194352 = Some bv /\
    startPtr bv = codeHeapAlloc t /\ startPtr bv ≠ 0 /\
    step (host := Example.host) t = Ok None (set_instrPtr (startPtr bv) t2) /\
    framePtr t2 = word (stackAt t (stackPtr t + 2)) /\
    stackPtr t2 = word (stackAt t (stackPtr t + 3)) - 1 /\
    stackAt t2 (stackPtr t2) = stackAt t (stackPtr t).
Proof.
  intros s t. split.
  - refine (proj1 (ret_restores_frame (host := Example.host) s _ _ _ _
                     (Inv_after 5 Example.main2 0 ltac:(closed) ltac:(closed))
                     _ _ _ _ eq_refl eq_refl eq_refl eq_refl) _); closed.
  - pose (restored :=
      set_stackPtr (word (stackAt t (stackPtr t + 3)))
        (set_framePtr (word (stackAt t (stackPtr t + 2)))
           (set_instrPtr (instrPtr t + 2) t))).
    pose (t1 := Example.state (pushVal (stackAt t (stackPtr t)) restored)).
    pose (t2 := Example.state (compile (host := Example.host) 4194352 t1)).
    assert (Hc : compile (host := Example.host) 4194352 t1 = Ok () t2) by closed.
    destruct (proj2 (ret_restores_frame (host := Example.host) t _ _ _ _
                       (Inv_after 4 Example.main2 0 ltac:(closed) ltac:(closed))
                       ltac:(closed) ltac:(closed) ltac:(closed)
                       ltac:(closed) eq_refl eq_refl eq_refl eq_refl)
                ltac:(closed) t1 (mkBlockVersion 0 0 42 39)
                ltac:(closed) ltac:(closed))
      as (_ & _ & _ & _ & Hfresh).
    destruct (proj1 (Hfresh eq_refl) t2 Hc)
      as (bv & Hbv & Hst & Hne & _ & Hstep & Hfp & Hsp & Hv).
    exact (ex_intro _ t2 (ex_intro _ bv
             (conj Hbv (conj Hst (conj Hne
                (conj Hstep (conj Hfp (conj Hsp Hv)))))))).
Defined.


Lemma forall_below_3 (P : Z -> Prop) :
  P 0 -> P 1 -> P 2 -> forall i, 0 <= i < 3 -> P i.
Proof.
  intros H0 H1 H2 i Hi.
  assert (i = 0 \/ i = 1 \/ i = 2) as [->|[->| ->]] by lia; done.
Qed.

Lemma call_ret_stack_size_witness :
  let s := Example.after 2 Example.main2 in
  let s3 := Example.after 5 Example.main2 in
  stackSizeOf s3 = stackSizeOf s - 1 /\ framePtr s3 = framePtr s.
Proof.
  intros s s3.
  pose (s1 := Example.after 3 Example.main2).
  pose (s2 := Example.after 4 Example.main2).
  destruct (call_ret_stack_size (host := Example.host) s s1 s2 s3 1 4194352
              ltac:(closed) ltac:(closed) ltac:(closed) ltac:(closed)
              ltac:(closed) ltac:(closed) ltac:(closed) ltac:(closed)
              ltac:(closed) ltac:(closed) ltac:(closed)
              (forall_below_3
                 (fun i => stackAt s2 (stackPtr s1 + i)
                           = stackAt s1 (stackPtr s1 + i))
                 ltac:(closed) ltac:(closed) ltac:(closed))
              ltac:(closed))
    as (Hsize & Hfp & _).
  exact (conj Hsize Hfp).
Defined.

(** C5 as first stated fails: the stack is one slot smaller (the argument)
    when control is back at the return version of the CALL. *)
Lemma call_ret_stack_size_differs :
  let s := Example.after 2 Example.main2 in
  let s3 := Example.after 5 Example.main2 in
  code s !! instrPtr s = Some (COp CALL) /\
  code s !! (instrPtr s + 4) = Some (CPtr 4194352) /\
  versions s3 !! 4194352 = Some (mkBlockVersion 4150 4152 42 39) /\
  instrPtr s3 = 4150 /\ framePtr s3 = framePtr s /\
  stackSizeOf s = 6 /\ stackSizeOf s3 = 5.
Proof. closed. Qed.

Lemma field_missing_witness :
  let g := Example.after 3 Example.main7 in
  let s := Example.after 4 Example.main6 in
  step (host := Example.host) g
    = Throw (Err.GetFieldMissing "x")
        (set_stackPtr (stackPtr g + 2) (set_instrPtr (instrPtr g + 2) g)) /\
  exists s',
    step (host := Example.host) s = Ok None s' /\
    stackPtr s' = stackPtr s + 3 /\
    Runtime.getObject (heap s') 100
      = Some ([] ++ [("x"%string, stackAt s (stackPtr s))]).
Proof.
  intros g s. split.
  - exact (proj1 (field_missing (host := Example.host) g 11 "x" 100 []
                    ltac:(closed) ltac:(closed) ltac:(closed) ltac:(closed))
             ltac:(closed) ltac:(closed) ltac:(closed) ltac:(closed)
             ltac:(closed)).
  - exact (proj1 (proj2 (field_missing (host := Example.host) s 11 "x" 100 []
                           ltac:(closed) ltac:(closed) ltac:(closed)
                           ltac:(closed))
                    ltac:(closed) ltac:(closed) ltac:(closed) ltac:(closed)
                    ltac:(closed))
             ltac:(closed)).
Defined.

(** C6 as first stated fails: SET_FIELD on an object without the field adds
    it, and no error is thrown. *)
Lemma set_field_adds_missing_field :
  let s := Example.after 4 Example.main6 in
  let s' := Example.state (step (host := Example.host) s) in
  code s !! instrPtr s = Some (COp SET_FIELD) /\
  stackAt s (stackPtr s + 1) = Val.str 11 /\
  stackAt s (stackPtr s + 2) = Val.obj 100 /\
  Runtime.getString (heap s) 11 = Some "x"%string /\
  Runtime.getObject (heap s) 100 = Some [] /\
  Runtime.hasField "x" [] = false /\
  step (host := Example.host) s = Ok None s' /\
  Runtime.getObject (heap s') 100 = Some [("x"%string, Val.int32 7)].
Proof. closed. Qed.

Lemma get_char_interned_witness :
  let s1' := Example.after 3 Example.main9 in
  let s2' := Example.after 7 Example.main9 in
  stackAt s2' (stackPtr s2') = stackAt s1' (stackPtr s1') /\
  charStrings s2' !! Z.to_nat 97 = Some (stackAt s1' (stackPtr s1')).
Proof.
  intros s1' s2'.
  pose (s1 := Example.after 2 Example.main9).
  pose (s2 := Example.after 6 Example.main9).
  destruct (get_char_interned (host := Example.host) s1 s1' s2 s2'
              "ab" "ab" 97
              (Inv_after 2 Example.main9 0 ltac:(closed) ltac:(closed))
              ltac:(closed) ltac:(closed) ltac:(closed) ltac:(closed)
              (run_reach (host := Example.host) 3 s1' s2 ltac:(closed))
              ltac:(closed) ltac:(closed) ltac:(closed) ltac:(closed))
    as (Hsame & _ & Hmemo).
  exact (conj Hsame Hmemo).
Defined.

Lemma if_true_only_TRUE_witness :
  let s := Example.after 1 Example.main10 in
  let taken :=
    if decide (stackAt s (stackPtr s) = Val.TRUE)
    then (instrPtr s + 2, 4194352) else (instrPtr s + 10, 4194400) in
  stackAt s (stackPtr s) = Val.int32 5 /\
  taken.2 = 4194400 /\
  exists s2 bv,
    versions s2 !! taken.2 = Some bv /\
    step (host := Example.host) s
      = Ok None
          (set_instrPtr (startPtr bv)
             (set_code (<[taken.1 := CPtr (startPtr bv)]> (code s2)) s2)).
Proof.
  intros s taken.
  pose (s1 := set_stackPtr (stackPtr s + 1) (set_instrPtr (instrPtr s + 18) s)).
  pose (s2 := Example.state (ensureCompiled (host := Example.host) taken.2 s1)).
  split; [closed|]. split; [closed|].
  pose proof (proj2 (if_true_only_TRUE (host := Example.host) s 4194352 4194400
                     ltac:(closed) ltac:(closed) ltac:(closed) ltac:(closed)
                     ltac:(closed))) as H.
  assert (Hout : taken.2 < codeHeap s \/ codeHeapLimit s <= taken.2) by (right; closed).
  assert (Hc : ensureCompiled (host := Example.host) taken.2 s1 = Ok () s2) by closed.
  destruct (H Hout s2 Hc) as (bv & Hver & Hstep).
  exact (ex_intro _ s2 (ex_intro _ bv (conj Hver Hstep))).
Defined.

Lemma call_error_after_pop_witness :
  let s := Example.after 1 Example.main11 in
  let u := Example.after 1 Example.main8 in
  (stackPtr (set_stackPtr (stackPtr s + 1) (set_instrPtr (instrPtr s + 12) s))
     = stackPtr s + 1 /\
   step (host := Example.host) s
     = Throw Err.InvalidCallee
         (set_stackPtr (stackPtr s + 1) (set_instrPtr (instrPtr s + 12) s))) /\
  (stackSizeOf
     (set_stackPtr (stackPtr u + 1) (set_instrPtr (instrPtr u + 12) u))
     ≠ stackSizeOf u /\
   step (host := Example.host) u
     = Throw Err.StackUnderflow
         (set_stackPtr (stackPtr u + 1) (set_instrPtr (instrPtr u + 12) u))).
Proof.
  intros s u. split.
  - destruct (call_error_after_pop (host := Example.host) s 0 4194352
                ltac:(closed) ltac:(closed) ltac:(closed) ltac:(closed)
                ltac:(closed))
      as (Hsp & _ & _ & Hinv).
    exact (conj Hsp (Hinv ltac:(closed) ltac:(closed) ltac:(closed))).
  - destruct (call_error_after_pop (host := Example.host) u 10 4194352
                ltac:(closed) ltac:(closed) ltac:(closed) ltac:(closed)
                ltac:(closed))
      as (_ & Hsize & Hunder & _).
    exact (conj Hsize (Hunder ltac:(closed))).
Defined.

(** * Further properties of the interpreter *)

(** * What holds of every run *)

Section Reachable.
Context {host : Host}.

(** X1.  In every state the interpreter can reach from [initInterp] the
    bounds of the code heap are the initial ones, the allocation pointer has
    not gone below its start, every written cell lies below the allocation
    pointer and overlaps no other cell, every block has at most one version
    and every start pointer points into the code heap. *)
Theorem reachable_code_heap codeAddr stackAddr versionAddr h s :
  0 < codeAddr ->
  reach (initInterp codeAddr stackAddr versionAddr h) s ->
  codeHeap s = codeAddr /\
  codeHeapLimit s = codeAddr + CODE_HEAP_INIT_SIZE /\
  codeAddr <= codeHeapAlloc s /\
  (forall a c, code s !! a = Some c -> a + sizeofCell c <= codeHeapAlloc s) /\
  (forall a c b, code s !! a = Some c -> a < b < a + sizeofCell c ->
     code s !! b = None) /\
  (forall b vers, versionMap s !! b = Some vers -> (length vers <= 1)%nat) /\
  (forall v bv, versions s !! v = Some bv -> startPtr bv ≠ 0 ->
     codeAddr <= startPtr bv).
Proof.
  intros Hpos Hr.
  pose proof (Inv_initInterp codeAddr stackAddr versionAddr h Hpos) as H0.
  pose proof (reach_Inv _ _ Hr H0) as [I0 I1 I2 I3 I4 I5 I6].
  pose proof (reach_Ext _ _ Hr H0) as [E0 E1 E2 _ _ _].
  simpl in *. rewrite E0 in *.
  repeat split; try done; try lia.
Qed.

(** X2.  The block compiler works on the code heap and on the version
    records only: whether it returns or throws, the object heap, the stack,
    the frame, stack and instruction pointers and the single-character cache
    are as they were. *)
Theorem compile_leaves_machine v s s' :
  compile v s = Ok () s' \/ (exists e, compile v s = Throw e s') ->
  heap s' = heap s /\ stack s' = stack s /\
  stackLimit s' = stackLimit s /\ stackBase s' = stackBase s /\
  stackPtr s' = stackPtr s /\ framePtr s' = framePtr s /\
  instrPtr s' = instrPtr s /\ charStrings s' = charStrings s.
Proof.
  intros H.
  assert (Frame s s') as Hf.
  { destruct H as [E|[e E]].
    - by apply (respects_Ok Frame _ _ _ _ (frame_compile v) E).
    - by apply (respects_Throw Frame _ _ _ _ (frame_compile v) E). }
  apply Frame_fields in Hf as (? & ? & ? & ? & ? & ? & ? & ? & _). done.
Qed.

(** X3.  A compilation that goes through appends: the cells below the old
    allocation pointer and the records of the other versions are unchanged,
    and the version's extent is the stretch of the code heap that was
    allocated meanwhile. *)
Theorem compile_appends v s s' :
  Inv s -> compile v s = Ok () s' ->
  (forall a, a < codeHeapAlloc s -> code s' !! a = code s !! a) /\
  (forall w bw, w ≠ v -> versions s !! w = Some bw ->
     versions s' !! w = Some bw) /\
  codeHeapAlloc s <= codeHeapAlloc s' /\
  exists bv', versions s' !! v = Some bv' /\
    startPtr bv' = codeHeapAlloc s /\ endPtr bv' = codeHeapAlloc s'.
Proof.
  intros Hs E.
  pose proof (respects_Ok (Compiles v) _ _ _ _ (compile_compiles v) E Hs)
    as (_ & He & [Hc Hv]).
  split; [done|]. split; [done|]. split; [by destruct He|].
  by apply compile_Ok.
Qed.

(** X4.  Lazy compilation is idempotent: once [ensureCompiled] has gone
    through for a version, the version has a start pointer that is not null
    and not below the start of the code heap, and asking again neither
    compiles nor changes anything. *)
Theorem ensureCompiled_idempotent v s s1 :
  Inv s -> ensureCompiled v s = Ok () s1 ->
  ensureCompiled v s1 = Ok () s1 /\
  exists bv, versions s1 !! v = Some bv /\ codeHeap s1 <= startPtr bv /\
    startPtr bv ≠ 0.
Proof.
  intros Hs E.
  destruct (ensureCompiled_Ok _ _ _ Hs E) as (bv & Hv & Hne & Hlo).
  split; [by eapply ensureCompiled_compiled|]. eauto.
Qed.
End Reachable.

(** X5.  [getBlockVersion] returns the same version when it is asked again
    for the same block and function, without changing anything the second
    time; asked for the same block on behalf of another function it fails an
    assertion. *)
Theorem getBlockVersion_again fn block s v s1 :
  getBlockVersion fn block s = Ok v s1 ->
  getBlockVersion fn block s1 = Ok v s1 /\
  versionMap s1 !! block = Some [v] /\
  (exists bv, versions s1 !! v = Some bv /\ bvFun bv = fn) /\
  (forall fn', fn' ≠ fn -> getBlockVersion fn' block s1 = Halt AssertFailed).
Proof.
  unfold getBlockVersion at 1. unfold bind at 1, gets at 1.
  destruct (versionMap s !! block) as [vers|] eqn:Hvm.
  - intros E. apply bind_Ok_inv in E as ([] & s2 & E1 & E).
    unfold assert in E1. case_bool_decide as Hlen; [|done]. injection E1 as <-.
    apply bind_Ok_inv in E as (v0 & s2 & E1 & E).
    unfold defined in E1. destruct (vers !! 0%nat) as [v1|] eqn:Hv1; [|done].
    injection E1 as <- <-.
    apply bind_Ok_inv in E as (bv & s2 & E1 & E).
    apply versionAt_Ok in E1 as [-> Hbv].
    apply bind_Ok_inv in E as ([] & s2 & E1 & E).
    unfold assert in E1. destruct (bvFun bv =? fn) eqn:Hfn; [|done].
    injection E1 as <-. injection E as <- <-. apply Z.eqb_eq in Hfn.
    assert (vers = [v1]) as ->.
    { destruct vers as [|x [|y l]]; simplify_eq/=; done. }
    assert (forall fn', getBlockVersion fn' block s =
              (assert (bvFun bv =? fn') ;; ret v1) s) as Hagain.
    { intros fn'. unfold getBlockVersion, bind at 1, gets at 1. rewrite Hvm.
      unfold bind at 1, assert at 1. rewrite bool_decide_eq_true_2 by done.
      unfold ret at 1, bind at 1, defined at 1. simpl.
      by rewrite (bind_Ok _ _ _ _ _ (versionAt_run _ _ _ Hbv)). }
    split; [|split; [done|split; [by eauto|]]].
    + rewrite Hagain. unfold bind, assert. by rewrite Hfn, Z.eqb_refl.
    + intros fn' Hne. rewrite Hagain. unfold bind, assert.
      destruct (Z.eqb_spec (bvFun bv) fn'); [congruence|done].
  - unfold bind, modify, newBlockVersion, gets, ret. simpl.
    rewrite lookup_insert_eq. simpl. intros [= <- <-].
    assert (forall fn',
      getBlockVersion fn' block
        (set_versionMap (<[block := [nextVersion s]]> (<[block := []]> (versionMap s)))
           (set_nextVersion (nextVersion s + sizeofBlockVersion)
              (set_versions (<[nextVersion s := mkBlockVersion 0 0 fn block]> (versions s))
                 (set_versionMap (<[block := []]> (versionMap s)) s)))) =
      (assert (fn =? fn') ;; ret (nextVersion s))
        (set_versionMap (<[block := [nextVersion s]]> (<[block := []]> (versionMap s)))
           (set_nextVersion (nextVersion s + sizeofBlockVersion)
              (set_versions (<[nextVersion s := mkBlockVersion 0 0 fn block]> (versions s))
                 (set_versionMap (<[block := []]> (versionMap s)) s))))) as Hagain.
    { intros fn'. unfold getBlockVersion, bind at 1, gets at 1. simpl.
      rewrite lookup_insert_eq.
      unfold bind at 1, assert at 1. rewrite bool_decide_eq_true_2 by done.
      unfold ret at 1, bind at 1, defined at 1. simpl.
      erewrite bind_Ok by (apply versionAt_run; simpl; apply lookup_insert_eq).
      done. }
    split; [|split; [|split]].
    + rewrite Hagain. unfold bind, assert. by rewrite Z.eqb_refl.
    + simpl. by rewrite lookup_insert_eq.
    + simpl. rewrite lookup_insert_eq. eauto.
    + intros fn' Hne. rewrite Hagain. unfold bind, assert.
      destruct (Z.eqb_spec fn fn'); [congruence|done].
Qed.

(** * The errors of the interpreter *)

Lemma throws_ret P {A} (a : A) : throws P (ret a).
Proof. by intros s e s'. Qed.

Lemma throws_bind P {A B} (m : M A) (k : A -> M B) :
  throws P m -> (forall a, throws P (k a)) -> throws P (bind m k).
Proof.
  intros Hm Hk s e s' E. apply bind_Throw_inv in E as [E|(a & s1 & _ & E)].
  - by eapply Hm.
  - by eapply Hk.
Qed.

(** The continuation only matters where the first part returns. *)
Lemma throws_bind_Ok P {A B} (m : M A) (k : A -> M B) :
  throws P m ->
  (forall a s s1 e s', m s = Ok a s1 -> k a s1 = Throw e s' -> P e) ->
  throws P (bind m k).
Proof.
  intros Hm Hk s e s' E. apply bind_Throw_inv in E as [E|(a & s1 & E1 & E)].
  - by eapply Hm.
  - by eapply Hk.
Qed.

Lemma throws_throw (P : RunError -> Prop) {A} e : P e -> throws P (@throw A e).
Proof. by intros He s e' s' [= <- _]. Qed.

Lemma throws_halt P {A} f : throws P (@halt A f).
Proof. by intros s e s'. Qed.

Lemma throws_gets P {A} (f : VM -> A) : throws P (gets f).
Proof. by intros s e s'. Qed.

Lemma throws_modify P f : throws P (modify f).
Proof. by intros s e s'. Qed.

Lemma throws_assert P b : throws P (assert b).
Proof. by destruct b; intros s e s'. Qed.

Lemma throws_defined P {A} (o : option A) : throws P (defined o).
Proof. by destruct o; intros s e s'. Qed.

Lemma throws_loadStack P a : throws P (loadStack a).
Proof. intros s e s'. unfold loadStack. by destruct (inStack s a). Qed.

Lemma throws_storeStack P a v : throws P (storeStack a v).
Proof. intros s e s'. unfold storeStack. by destruct (inStack s a). Qed.

Lemma throws_callHost (P : RunError -> Prop) f :
  (forall h e h', f h = HostThrow e h' -> P e) -> throws P (callHost f).
Proof.
  intros Hf s e s'. unfold callHost. destruct (f (heap s)) eqn:E; try done.
  intros [= <- _]. eauto.
Qed.

Ltac throws_struct leaf :=
  lazymatch goal with
  | |- throws _ (bind _ _) =>
      apply throws_bind; [throws_struct leaf | intros ?; throws_struct leaf]
  | |- throws _ (ret _) => apply throws_ret
  | |- throws _ (throw _) => apply throws_throw; leaf
  | |- throws _ (halt _) => apply throws_halt
  | |- throws _ (gets _) => apply throws_gets
  | |- throws _ (modify _) => apply throws_modify
  | |- throws _ (assert _) => apply throws_assert
  | |- throws _ (defined _) => apply throws_defined
  | |- throws _ (match ?x with _ => _ end) => destruct x; throws_struct leaf
  | |- throws _ (let _ := _ in _) => cbv zeta; throws_struct leaf
  | |- _ => leaf
  end.

Create HintDb throws discriminated.

Ltac throws_leaf := solve [eauto with throws].
Ltac throws := intros; throws_struct throws_leaf.

Lemma length_append (a b : string) :
  String.length (a +:+ b) = (String.length a + String.length b)%nat.
Proof. induction a as [|c a IH]; simpl; [done|]. by rewrite IH. Qed.

Lemma checkArgCount_Ok `{Host} callInstr numParams numArgs s s1 :
  checkArgCount callInstr numParams numArgs s = Ok () s1 -> numArgs = numParams.
Proof.
  unfold checkArgCount. intros E. apply bind_Ok_inv in E as (pos & s2 & _ & E).
  case_bool_decide as Hne; [|lia].
  by apply bind_Ok_inv in E as (h & s3 & _ & E).
Qed.

Section Throws.
Context {host : Host} (P : RunError -> Prop).

Hint Resolve throws_loadStack throws_storeStack : throws.

Lemma throws_readCode n : throws P (readCode n).
Proof. unfold readCode. throws. Qed.
Hint Resolve throws_readCode : throws.

Lemma throws_readOpcode : throws P readOpcode.
Proof. unfold readOpcode. throws. Qed.
Lemma throws_readValue : throws P readValue.
Proof. unfold readValue. throws. Qed.
Lemma throws_readU16 : throws P readU16.
Proof. unfold readU16. throws. Qed.
Lemma throws_readTag : throws P readTag.
Proof. unfold readTag. throws. Qed.
Lemma throws_readPtr : throws P readPtr.
Proof. unfold readPtr. throws. Qed.
Lemma throws_patchCode a c : throws P (patchCode a c).
Proof. unfold patchCode. throws. Qed.
Lemma throws_writeCode c : throws P (writeCode c).
Proof. unfold writeCode. throws. Qed.
Lemma throws_pushVal v : throws P (pushVal v).
Proof. unfold pushVal. throws. Qed.
Lemma throws_popVal : throws P popVal.
Proof. unfold popVal. throws. Qed.
Hint Resolve throws_readOpcode throws_readValue throws_readU16 throws_readTag
  throws_readPtr throws_patchCode throws_writeCode throws_pushVal
  throws_popVal : throws.

Lemma throws_pushBool b : throws P (pushBool b).
Proof. unfold pushBool. throws. Qed.
Lemma throws_popBool : throws P popBool.
Proof. unfold popBool. throws. Qed.
Lemma throws_popInt32 : throws P popInt32.
Proof. unfold popInt32. throws. Qed.
Lemma throws_popFloat32 : throws P popFloat32.
Proof. unfold popFloat32. throws. Qed.
Lemma throws_stringOf v : throws P (stringOf v).
Proof. unfold stringOf. throws. Qed.
Hint Resolve throws_stringOf : throws.
Lemma throws_popStr : throws P popStr.
Proof. unfold popStr. throws. Qed.
Lemma throws_popObj : throws P popObj.
Proof. unfold popObj. throws. Qed.
Lemma throws_arrayOf v : throws P (arrayOf v).
Proof. unfold arrayOf. throws. Qed.
Lemma throws_objFields o : throws P (objFields o).
Proof. unfold objFields. throws. Qed.
Lemma throws_arrElems a : throws P (arrElems a).
Proof. unfold arrElems. throws. Qed.
Lemma throws_newString b : throws P (newString b).
Proof. unfold newString. throws. Qed.
Lemma throws_stackSize : throws P stackSize.
Proof. unfold stackSize. throws. Qed.
Lemma throws_versionAt v : throws P (versionAt v).
Proof. unfold versionAt. throws. Qed.
Lemma throws_newBlockVersion f b : throws P (newBlockVersion f b).
Proof. unfold newBlockVersion. throws. Qed.
Hint Resolve throws_pushBool throws_popBool throws_popInt32 throws_popFloat32
  throws_popStr throws_popObj throws_arrayOf throws_objFields throws_arrElems
  throws_newString throws_stackSize throws_versionAt throws_newBlockVersion
  : throws.

Lemma throws_getBlockVersion f b : throws P (getBlockVersion f b).
Proof. unfold getBlockVersion. throws. Qed.
Lemma throws_setStartPtr v p : throws P (setStartPtr v p).
Proof. unfold setStartPtr. throws. Qed.
Lemma throws_setEndPtr v p : throws P (setEndPtr v p).
Proof. unfold setEndPtr. throws. Qed.
Lemma throws_hostArgs n : forall a, throws P (hostArgs a n).
Proof. induction n; simpl; throws. Qed.
Lemma throws_copyArgs l : forall i, throws P (copyArgs i l).
Proof. induction l; simpl; throws. Qed.
Lemma throws_binInt32 f : throws P (binInt32 f).
Proof. unfold binInt32. throws. Qed.
Lemma throws_binFloat32 f : throws P (binFloat32 f).
Proof. unfold binFloat32. throws. Qed.
Lemma throws_unFloat32 f : throws P (unFloat32 f).
Proof. unfold unFloat32. throws. Qed.
Hint Resolve throws_getBlockVersion throws_setStartPtr throws_setEndPtr
  throws_hostArgs throws_copyArgs throws_binInt32 throws_binFloat32
  throws_unFloat32 : throws.

(** Field reads through an inline cache. *)
Hypothesis missing : forall n, P (Err.MissingField n).

Lemma throws_ICache_getField n o : throws P (ICache.getField n o).
Proof. unfold ICache.getField. throws. Qed.
Hint Resolve throws_ICache_getField : throws.
Lemma throws_ICache_getInt32 n o : throws P (ICache.getInt32 n o).
Proof. unfold ICache.getInt32. throws. Qed.
Lemma throws_ICache_getStr n o : throws P (ICache.getStr n o).
Proof. unfold ICache.getStr. throws. Qed.
Lemma throws_ICache_getObj n o : throws P (ICache.getObj n o).
Proof. unfold ICache.getObj. throws. Qed.
Lemma throws_ICache_getArr n o : throws P (ICache.getArr n o).
Proof. unfold ICache.getArr. throws. Qed.
Hint Resolve throws_ICache_getInt32 throws_ICache_getStr throws_ICache_getObj
  throws_ICache_getArr : throws.

Lemma throws_scanSrcPos l : throws P (scanSrcPos l).
Proof. induction l; simpl; throws. Qed.
Hint Resolve throws_scanSrcPos : throws.
Lemma throws_getSrcPos a : throws P (getSrcPos a).
Proof. unfold getSrcPos. throws. Qed.
Hint Resolve throws_getSrcPos : throws.

(** The block compiler. *)
Hypothesis empty : P Err.EmptyBlock.
Hypothesis unknown : forall op, P (Err.UnknownOpcode op).

Lemma throws_compileInstr v i : throws P (compileInstr v i).
Proof. unfold compileInstr. throws. Qed.
Hint Resolve throws_compileInstr : throws.
Lemma throws_compileInstrs v l : throws P (compileInstrs v l).
Proof. induction l; simpl; throws. Qed.
Hint Resolve throws_compileInstrs : throws.
Lemma throws_compile v : throws P (compile v).
Proof. unfold compile. throws. Qed.
Hint Resolve throws_compile : throws.
Lemma throws_ensureCompiled v : throws P (ensureCompiled v).
Proof. unfold ensureCompiled. throws. Qed.
Hint Resolve throws_ensureCompiled : throws.
Lemma throws_branchTo a t : throws P (branchTo a t).
Proof. unfold branchTo. throws. Qed.
Hint Resolve throws_branchTo : throws.

(** Calls of functions. *)
Hypothesis argCount : forall p a b, P (Err.ArgCount p a b).
Hypothesis locals : P Err.NotEnoughLocals.

Lemma throws_checkArgCount a p n : throws P (checkArgCount a p n).
Proof. unfold checkArgCount. throws. Qed.
Hint Resolve throws_checkArgCount : throws.

Lemma throws_funCall a f n r : throws P (funCall a f n r).
Proof.
  unfold funCall.
  apply throws_bind; [throws|intros entryBB].
  apply throws_bind; [throws|intros entryVer].
  apply throws_bind; [throws|intros _].
  apply throws_bind; [throws|intros numLocals].
  apply throws_bind; [throws|intros numParams].
  apply throws_bind_Ok; [throws|].
  intros [] s s1 e s' Hok. apply checkArgCount_Ok in Hok.
  destruct (numLocals <? numParams); [by intros [= <- _]|].
  rewrite bool_decide_eq_false_2 by (intros Hne; by apply Hne).
  revert s1 e s'. change (throws P
    (sp <- gets stackPtr ;;
     (let prevStackPtr := sp + n in
      prevFramePtr <- gets framePtr ;;
      lim <- gets stackLimit ;;
      assert (lim <? sp) ;;
      modify (set_framePtr (sp + n - 1)) ;;
      modify (set_stackPtr (sp - (numLocals - n))) ;;
      pushVal (Val.rawptr prevStackPtr) ;;
      pushVal (Val.rawptr prevFramePtr) ;;
      pushVal (Val.rawptr r) ;;
      bv <- versionAt entryVer ;;
      modify (set_instrPtr (startPtr bv))))).
  throws.
Qed.
Hint Resolve throws_funCall : throws.

(** Collaborators. *)
Hypothesis hostThrows :
  forall f args h e h', hostFnCall f args h = HostThrow e h' -> P e.
Hypothesis importThrows :
  forall pkg h e h', import pkg h = HostThrow e h' -> P e.

Lemma throws_hostCall a f n r : throws P (hostCall a f n r).
Proof.
  unfold hostCall.
  apply throws_bind; [throws|intros sp]. cbv zeta.
  apply throws_bind; [|throws].
  destruct (n <=? 3); [|throws].
  apply throws_bind; [throws|intros argv].
  apply throws_callHost. eauto.
Qed.
Hint Resolve throws_hostCall : throws.

(** The instructions. *)
Hypothesis bounds : forall op, P (Err.IndexOutOfBounds op).
Hypothesis invalidField : forall n, P (Err.InvalidFieldName n).
Hypothesis getField : forall n, P (Err.GetFieldMissing n).
Hypothesis underflow : P Err.StackUnderflow.
Hypothesis callee : P Err.InvalidCallee.

Lemma throws_execInstr a op : throws P (execInstr a op).
Proof.
  destruct op; cbv beta iota delta [execInstr]; try by throws.
  (* IMPORT *)
  apply throws_bind; [throws|intros v].
  apply throws_bind; [throws|intros pkgName].
  apply throws_bind; [|throws].
  apply throws_callHost. eauto.
Qed.

Lemma throws_step : throws P step.
Proof. unfold step. apply throws_bind; [throws|intros r]. apply throws_execInstr. Qed.
End Throws.

Section Errors.
Context {host : Host}.

(** X6.  The block compiler throws three kinds of [RunError] and no other:
    the empty-block error, the missing-field error of an inline cache, and
    the unhandled-opcode error. *)
Theorem compile_errors v s e s' :
  compile v s = Throw e s' ->
  e = Err.EmptyBlock \/ (exists n, e = Err.MissingField n) \/
  (exists op, e = Err.UnknownOpcode op).
Proof.
  apply (throws_compile
    (fun e => e = Err.EmptyBlock \/ (exists n, e = Err.MissingField n) \/
              (exists op, e = Err.UnknownOpcode op))); eauto.
Qed.

(** X7.  The second argument-count test of [funCall] never fires: whatever
    the state, a call of a function object does not fail with the
    argument-count-mismatch error, a wrong count being reported by
    [checkArgCount] before. *)
Theorem funCall_no_mismatch callInstr fn numArgs retVer s s' :
  funCall callInstr fn numArgs retVer s ≠ Throw Err.ArgCountMismatch s'.
Proof.
  intros E.
  assert (throws (fun e => e ≠ Err.ArgCountMismatch)
            (funCall callInstr fn numArgs retVer)) as Ht.
  { apply throws_funCall;
      try (intros;
           cbv [Err.MissingField Err.EmptyBlock Err.UnknownOpcode
                Err.NotEnoughLocals Err.ArgCountMismatch];
           simpl; discriminate).
    intros p a b [= Hmsg]. apply (f_equal String.length) in Hmsg.
    rewrite length_append in Hmsg. simpl in Hmsg. lia. }
  by apply Ht in E.
Qed.

(** X8.  The [RunError]s of one turn of the interpreter loop: an index out
    of bounds, an invalid field name, a field missing in get_field, the two
    errors of CALL, the two errors of a function call, the three errors of
    the block compiler, or an error thrown by the importer or by a host
    function. *)
Theorem step_errors s e s' :
  step s = Throw e s' ->
  (exists op, e = Err.IndexOutOfBounds op) \/
  (exists n, e = Err.InvalidFieldName n) \/
  (exists n, e = Err.GetFieldMissing n) \/
  e = Err.StackUnderflow \/ e = Err.InvalidCallee \/
  (exists pos numArgs numParams, e = Err.ArgCount pos numArgs numParams) \/
  e = Err.NotEnoughLocals \/
  e = Err.EmptyBlock \/ (exists n, e = Err.MissingField n) \/
  (exists op, e = Err.UnknownOpcode op) \/
  (exists pkg h h', import pkg h = HostThrow e h') \/
  (exists f args h h', hostFnCall f args h = HostThrow e h').
Proof.
  apply (throws_step
    (fun e =>
       (exists op, e = Err.IndexOutOfBounds op) \/
       (exists n, e = Err.InvalidFieldName n) \/
       (exists n, e = Err.GetFieldMissing n) \/
       e = Err.StackUnderflow \/ e = Err.InvalidCallee \/
       (exists pos numArgs numParams, e = Err.ArgCount pos numArgs numParams) \/
       e = Err.NotEnoughLocals \/
       e = Err.EmptyBlock \/ (exists n, e = Err.MissingField n) \/
       (exists op, e = Err.UnknownOpcode op) \/
       (exists pkg h h', import pkg h = HostThrow e h') \/
       (exists f args h h', hostFnCall f args h = HostThrow e h')));
    intros; eauto 20.
Qed.

Lemma ICache_getArr_run n o s fs r :
  Runtime.getObject (heap s) o = Some fs ->
  Runtime.lookupField n fs = Some (Val.arr r) ->
  ICache.getArr n o s = Ok r s.
Proof.
  intros Hfs Hv. unfold ICache.getArr.
  by erewrite bind_Ok by by eapply ICache_getField_run.
Qed.

Lemma arrElems_run s arr elems :
  Runtime.getArray (heap s) arr = Some elems -> arrElems arr s = Ok elems s.
Proof. intros H. unfold arrElems, bind, gets, defined. simpl. by rewrite H. Qed.

Lemma setStartPtr_run v p s bv :
  versions s !! v = Some bv ->
  setStartPtr v p s =
    Ok () (set_versions
             (<[v := mkBlockVersion p (endPtr bv) (bvFun bv) (bvBlock bv)]>
                (versions s)) s).
Proof.
  intros Hv. unfold setStartPtr.
  by rewrite (bind_Ok _ _ _ _ _ (versionAt_run _ _ _ Hv)).
Qed.

(** X9.  A compilation that throws while it translates the instructions of a
    block leaves the version marked as compiled: the start pointer has been
    set, the end pointer has not, and [ensureCompiled] will not compile the
    version again. *)
Theorem compile_throw_marks_compiled v bv fs r elems s e s' :
  Inv s ->
  versions s !! v = Some bv ->
  Runtime.getObject (heap s) (bvBlock bv) = Some fs ->
  Runtime.lookupField "instrs" fs = Some (Val.arr r) ->
  Runtime.getArray (heap s) r = Some elems ->
  elems ≠ [] ->
  compile v s = Throw e s' ->
  versions s' !! v
    = Some (mkBlockVersion (codeHeapAlloc s) (endPtr bv) (bvFun bv) (bvBlock bv)) /\
  codeHeapAlloc s ≠ 0 /\
  ensureCompiled v s' = Ok () s'.
Proof.
  intros Hs Hv Hfs Hf Harr Hne E.
  assert (codeHeapAlloc s ≠ 0) as Hpos by (destruct Hs; lia).
  unfold compile in E.
  rewrite (bind_Ok _ _ _ _ _ (versionAt_run _ _ _ Hv)) in E.
  rewrite (bind_Ok _ _ _ _ _ (ICache_getArr_run _ _ _ _ _ Hfs Hf)) in E.
  rewrite (bind_Ok _ _ _ _ _ (arrElems_run _ _ _ Harr)) in E.
  rewrite bool_decide_eq_false_2 in E by (by destruct elems).
  unfold bind at 1, gets at 1 in E.
  pose proof (setStartPtr_alloc v s) as Hc.
  rewrite (setStartPtr_run _ _ _ _ Hv) in Hc.
  rewrite (bind_Ok _ _ _ _ _ (setStartPtr_run _ _ _ _ Hv)) in E.
  simpl in Hc. destruct (Hc Hs) as (Hs1 & _ & _).
  set (s1 := set_versions _ s) in *.
  assert (versions s1 !! v =
    Some (mkBlockVersion (codeHeapAlloc s) (endPtr bv) (bvFun bv) (bvBlock bv)))
    as Hv1 by apply lookup_insert_eq.
  apply bind_Throw_inv in E as [E|([] & s2 & _ & E)].
  - apply (respects_Throw Strong) in E; [|apply compileInstrs_strong].
    destruct (E Hs1) as (_ & _ & [_ Hg]).
    pose proof (Hg _ _ Hv1) as Hv'.
    split; [done|]. split; [done|]. by eapply ensureCompiled_compiled.
  - exfalso. apply bind_Throw_inv in E as [E|(a & s3 & _ & E)]; [done|].
    by apply (throws_setEndPtr (fun _ => False)) in E.
Qed.
End Errors.

(** * Stack underflow at a call *)

Section Underflow.
Context {host : Host}.

(** A call of a function object does not fail with the stack-underflow
    error. *)
Lemma funCall_no_underflow callInstr fn numArgs retVer :
  throws (fun e => e ≠ Err.StackUnderflow) (funCall callInstr fn numArgs retVer).
Proof.
  apply throws_funCall;
    try (intros;
         cbv [Err.MissingField Err.EmptyBlock Err.UnknownOpcode
              Err.NotEnoughLocals Err.StackUnderflow];
         simpl; discriminate).
  intros p a b [= Hmsg]. apply (f_equal String.length) in Hmsg.
  rewrite length_append in Hmsg. simpl in Hmsg. lia.
Qed.

(** C7, as amended.  CALL compares [numArgs] with the size of the whole
    stack once the callee is popped, the words of the frames included.  With
    fewer than [numArgs] slots it throws the stack-underflow [RunError], and
    the loop and [callFun] pass it on to the caller of [callFun].  With at
    least [numArgs] slots a CALL whose callee is not a host function does not
    throw it, whether the slots hold operands or not. *)
Theorem call_stack_underflow s numArgs retVer :
  code s !! instrPtr s = Some (COp CALL) ->
  code s !! (instrPtr s + 2) = Some (CU16 numArgs) ->
  code s !! (instrPtr s + 4) = Some (CPtr retVer) ->
  instrPtr s + 12 <= codeHeapLimit s ->
  stackLimit s <= stackPtr s < stackBase s ->
  let s1 := set_stackPtr (stackPtr s + 1) (set_instrPtr (instrPtr s + 12) s) in
  (stackSizeOf s1 < numArgs ->
   step s = Throw Err.StackUnderflow s1 /\
   forall fuel fn args s0 sz sE n,
     callFunEnter fn args s0 = Ok sz sE ->
     codeHeap sE <= instrPtr sE < codeHeapLimit sE ->
     run n sE = Some s -> (n < fuel)%nat ->
     callFun fuel fn args s0 = Throw Err.StackUnderflow s1) /\
  (numArgs <= stackSizeOf s1 ->
   tag (stackAt s (stackPtr s)) ≠ TAG_HOSTFN ->
   forall s', step s ≠ Throw Err.StackUnderflow s').
Proof.
  intros Hop Hn Hr Hlim Hsp s1.
  pose proof (call_dispatch s numArgs retVer Hop Hn Hr Hlim Hsp) as Hstep.
  cbv zeta in Hstep. fold s1 in Hstep. split.
  - intros Hsz.
    assert (step s = Throw Err.StackUnderflow s1) as Hthrow.
    { rewrite Hstep. by apply Z.ltb_lt in Hsz as ->. }
    split; [done|]. intros fuel fn args s0 sz sE n He Hip Hrun Hf.
    by eapply callFun_throw.
  - intros Hsz Hhost s' E. rewrite Hstep in E.
    assert ((stackSizeOf s1 <? numArgs) = false) as Hge by (apply Z.ltb_ge; lia).
    rewrite Hge in E.
    destruct (Val.isObject (stackAt s (stackPtr s))).
    + apply bind_Throw_inv in E as [E|([] & s2 & _ & E)]; [|done].
      by apply funCall_no_underflow in E.
    + unfold Val.isHostFn in E.
      rewrite bool_decide_eq_false_2 in E by done. discriminate E.
Qed.
End Underflow.

(** C7 as first stated fails: a CALL with [num_args = 1] and no operand on
    the stack does not throw; the four words of the frame made by
    [callFun] are counted, and the callee is entered with the null return
    version of that frame as its argument. *)
Lemma call_without_operand_goes_through :
  let s0 := Example3.entered Example3.under in
  let s := Example3.after 1 Example3.under in
  let s' := Example.state (step (host := Example.host) s) in
  code s !! instrPtr s = Some (COp CALL) /\
  code s !! (instrPtr s + 2) = Some (CU16 1) /\
  stackAt s (stackPtr s) = Val.obj 33 /\
  stackPtr s + 1 = stackPtr s0 /\
  stackSizeOf s0 = 4 /\
  stackAt s0 (stackPtr s0) = Val.rawptr 0 /\
  step (host := Example.host) s = Ok None s' /\
  framePtr s' = stackPtr s0 /\
  stackAt s' (framePtr s') = Val.rawptr 0 /\
  callFun (host := Example.host) 20 Example3.under [] Example3.vm0
    = Halt Undefined.
Proof. closed. Qed.

Lemma call_stack_underflow_witness :
  let s := Example.after 1 Example.main8 in
  let s1 := set_stackPtr (stackPtr s + 1) (set_instrPtr (instrPtr s + 12) s) in
  let t := Example3.after 1 Example3.under in
  (step (host := Example.host) s = Throw Err.StackUnderflow s1 /\
   callFun (host := Example.host) 10 Example.main8 [] Example.vm0
     = Throw Err.StackUnderflow s1) /\
  forall t', step (host := Example.host) t ≠ Throw Err.StackUnderflow t'.
Proof.
  intros s s1 t. split.
  - destruct (proj1 (call_stack_underflow (host := Example.host) s 10 4194352
                ltac:(closed) ltac:(closed) ltac:(closed) ltac:(closed)
                ltac:(closed)) ltac:(closed))
      as [Hstep Hcall].
    exact (conj Hstep
             (Hcall 10%nat Example.main8 [] Example.vm0 0
                (Example.entered Example.main8) 1%nat
                ltac:(closed) ltac:(closed) ltac:(closed)
                (proj1 (Nat.ltb_lt 1 10) eq_refl))).
  - exact (proj2 (call_stack_underflow (host := Example.host) t 1 4194352
                ltac:(closed) ltac:(closed) ltac:(closed) ltac:(closed)
                ltac:(closed)) ltac:(closed) ltac:(closed)).
Defined.

(** * Source positions *)

Section SrcPos.
Context {host : Host}.

Lemma scanSrcPos_skip s l rest :
  Forall (unplaced s) l -> scanSrcPos (l ++ rest) s = scanSrcPos rest s.
Proof.
  induction 1 as [|j l (Ht & jfs & Hj & Hn) _ IH]; simpl; [done|].
  unfold bind at 1, assert, Val.isObject.
  rewrite bool_decide_eq_true_2 by done. simpl.
  rewrite (bind_Ok _ _ _ _ _ (objFields_run _ _ _ Hj)). by rewrite Hn.
Qed.

(** X10.  The position [getSrcPos] reports for an instruction is that of the
    last instruction of its block that has a [src_pos] field, whichever
    instruction is asked about. *)
Theorem getSrcPos_last a v bv fs r before i ifs pos after s :
  instrMap s !! a = Some v ->
  versions s !! v = Some bv ->
  Runtime.getObject (heap s) (bvBlock bv) = Some fs ->
  Runtime.lookupField "instrs" fs = Some (Val.arr r) ->
  Runtime.getArray (heap s) r = Some (before ++ i :: after) ->
  tag i = TAG_OBJECT ->
  Runtime.getObject (heap s) (word i) = Some ifs ->
  Runtime.lookupField "src_pos" ifs = Some pos ->
  Forall (unplaced s) after ->
  getSrcPos a s = Ok pos s.
Proof.
  intros Hm Hv Hfs Hf Harr Ht Hi Hp Hafter.
  unfold getSrcPos, bind at 1, gets at 1. rewrite Hm.
  rewrite (bind_Ok _ _ _ _ _ (versionAt_run _ _ _ Hv)).
  rewrite (bind_Ok _ _ _ _ _ (ICache_getArr_run _ _ _ _ _ Hfs Hf)).
  rewrite (bind_Ok _ _ _ _ _ (arrElems_run _ _ _ Harr)).
  unfold bind at 1, assert.
  rewrite bool_decide_eq_true_2 by (rewrite length_app; simpl; lia).
  simpl. rewrite rev_app_distr. simpl. rewrite <- app_assoc.
  rewrite scanSrcPos_skip by (by apply Forall_rev).
  simpl. unfold bind at 1, assert, Val.isObject.
  rewrite bool_decide_eq_true_2 by done. simpl.
  rewrite (bind_Ok _ _ _ _ _ (objFields_run _ _ _ Hi)). by rewrite Hp.
Qed.
End SrcPos.

(** * Host calls *)

Lemma hostArgs_run s n : forall a,
  (forall k, (k < n)%nat -> inStack s (a - Z.of_nat k) = true) ->
  hostArgs a n s
    = Ok (map (fun k => stackAt s (a - Z.of_nat k)) (seq 0 n)) s.
Proof.
  induction n as [|n IH]; intros a Hin; simpl; [done|].
  unfold bind at 1, loadStack.
  pose proof (Hin 0%nat ltac:(lia)) as H0. simpl in H0.
  rewrite Z.sub_0_r in H0. rewrite H0.
  assert (forall k, (k < n)%nat -> inStack s (a - 1 - Z.of_nat k) = true) as Hin'.
  { intros k Hk. specialize (Hin (S k) ltac:(lia)).
    by replace (a - 1 - Z.of_nat k) with (a - Z.of_nat (S k)) by lia. }
  rewrite (bind_Ok _ _ _ _ _ (IH (a - 1) Hin')).
  unfold ret. rewrite Z.sub_0_r. f_equal. f_equal.
  rewrite <- seq_shift, map_map. apply map_ext. intros k. f_equal. lia.
Qed.

Section HostCall.
Context {host : Host}.

Lemma hostCall_run a f numArgs retVer s argv :
  numArgs <= 3 ->
  hostArgs (stackPtr s + numArgs - 1) (Z.to_nat numArgs) s = Ok argv s ->
  hostCall a f numArgs retVer s =
    (retVal <- callHost (hostFnCall (word f) argv) ;;
     sp' <- gets stackPtr ;;
     modify (set_stackPtr (sp' + numArgs)) ;;
     pushVal retVal ;;
     ensureCompiled retVer ;;
     bv <- versionAt retVer ;;
     modify (set_instrPtr (startPtr bv))) s.
Proof.
  intros Hn Hargv. unfold hostCall. unfold bind at 1, gets at 1.
  destruct (Z.leb_spec numArgs 3) as [_|]; [|lia].
  unfold bind at 1. rewrite (bind_Ok _ _ _ _ _ Hargv). done.
Qed.


(** X11.  A CALL of a host function with more than three arguments fails the
    assertion of [hostCall]: the process stops, no [RunError] is thrown. *)
Theorem host_call_too_many_args s numArgs retVer :
  code s !! instrPtr s = Some (COp CALL) ->
  code s !! (instrPtr s + 2) = Some (CU16 numArgs) ->
  code s !! (instrPtr s + 4) = Some (CPtr retVer) ->
  instrPtr s + 12 <= codeHeapLimit s ->
  stackLimit s <= stackPtr s < stackBase s ->
  tag (stackAt s (stackPtr s)) = TAG_HOSTFN ->
  numArgs <= to_size_t (stackBase s - (stackPtr s + 1)) ->
  3 < numArgs ->
  step s = Halt AssertFailed.
Proof.
  intros Hop Hn Hr Hlim Hsp Ht Hsz Hmany.
  rewrite (call_dispatch _ _ _ Hop Hn Hr Hlim Hsp). cbv zeta.
  unfold stackSizeOf. simpl.
  destruct (Z.ltb_spec (to_size_t (stackBase s - (stackPtr s + 1))) numArgs);
    [lia|].
  unfold Val.isObject, Val.isHostFn. rewrite Ht.
  rewrite bool_decide_eq_false_2 by done.
  rewrite bool_decide_eq_true_2 by done.
  unfold hostCall, bind, gets. simpl.
  by destruct (Z.leb_spec numArgs 3); [lia|].
Qed.

(** X12.  For a host function that does not call back into the interpreter
    (it returns or throws, and changes the object heap at most): a CALL of
    it with at most three arguments passes the arguments in the order they
    were pushed, the first one pushed first.  When the host function
    returns, the callee and the arguments are gone from the stack, the
    result is on top and the loop goes on at the return version; when it
    throws, the [RunError] leaves the loop with the arguments still on the
    stack. *)
Theorem host_call s numArgs retVer :
  code s !! instrPtr s = Some (COp CALL) ->
  code s !! (instrPtr s + 2) = Some (CU16 numArgs) ->
  code s !! (instrPtr s + 4) = Some (CPtr retVer) ->
  instrPtr s + 12 <= codeHeapLimit s ->
  stackLimit s <= stackPtr s < stackBase s ->
  tag (stackAt s (stackPtr s)) = TAG_HOSTFN ->
  stackBase s - stackLimit s < 2 ^ 64 ->
  0 <= numArgs <= 3 ->
  numArgs <= stackBase s - (stackPtr s + 1) ->
  let argv :=
    map (fun k => stackAt s (stackPtr s + numArgs - Z.of_nat k))
        (seq 0 (Z.to_nat numArgs)) in
  let s1 := set_stackPtr (stackPtr s + 1) (set_instrPtr (instrPtr s + 12) s) in
  (forall e h',
     hostFnCall (word (stackAt s (stackPtr s))) argv (heap s) = HostThrow e h' ->
     step s = Throw e (set_heap h' s1)) /\
  (forall v h' s2,
     hostFnCall (word (stackAt s (stackPtr s))) argv (heap s) = HostOk v h' ->
     ensureCompiled retVer
       (set_stack (<[stackPtr s + numArgs := v]> (stack s))
          (set_stackPtr (stackPtr s + numArgs) (set_heap h' s1))) = Ok () s2 ->
     exists bv, versions s2 !! retVer = Some bv /\
       step s = Ok None (set_instrPtr (startPtr bv) s2) /\
       stackPtr s2 = stackPtr s + numArgs /\
       stackAt s2 (stackPtr s2) = v /\ heap s2 = h').
Proof.
  intros Hop Hn Hr Hlim Hsp Ht Hrange Hargs Hsz argv s1.
  assert (Hstep : step s = (hostCall (instrPtr s) (stackAt s (stackPtr s))
                              numArgs retVer ;; ret None) s1).
  { rewrite (call_dispatch _ _ _ Hop Hn Hr Hlim Hsp). cbv zeta.
    unfold stackSizeOf. simpl.
    rewrite to_size_t_small by lia.
    destruct (Z.ltb_spec (stackBase s - (stackPtr s + 1)) numArgs); [lia|].
    unfold Val.isObject, Val.isHostFn. rewrite Ht.
    rewrite bool_decide_eq_false_2 by done.
    by rewrite bool_decide_eq_true_2 by done. }
  assert (Hargv : hostArgs (stackPtr s1 + numArgs - 1) (Z.to_nat numArgs) s1
                  = Ok argv s1).
  { rewrite hostArgs_run.
    - subst argv s1. simpl. f_equal. apply map_ext. intros k.
      unfold stackAt. simpl. f_equal. f_equal. lia.
    - intros k Hk. subst s1. unfold inStack. simpl.
      apply andb_true_intro. split; [apply Z.leb_le|apply Z.ltb_lt]; lia. }
  unfold bind at 1 in Hstep.
  rewrite (hostCall_run _ _ _ _ _ _ (proj2 Hargs) Hargv) in Hstep.
  unfold bind at 1, callHost at 1 in Hstep.
  change (heap s1) with (heap s) in Hstep.
  split.
  - intros e h' Hcall. by rewrite Hstep, Hcall.
  - intros v h' s2 Hcall Hcomp. rewrite Hcall in Hstep.
    unfold bind at 1, gets at 1, bind at 1, modify at 1 in Hstep.
    erewrite bind_Ok in Hstep by (apply pushVal_run; simpl; lia).
    simpl in Hstep.
    replace (stackPtr s + 1 + numArgs - 1) with (stackPtr s + numArgs)
      in Hstep by lia.
    rewrite (bind_Ok _ _ _ _ _ Hcomp) in Hstep.
    destruct (ensureCompiled_version _ _ _ Hcomp) as [bv Hbv].
    rewrite (bind_Ok _ _ _ _ _ (versionAt_run _ _ _ Hbv)) in Hstep.
    apply (respects_Ok Frame) in Hcomp; [|apply frame_ensureCompiled].
    apply Frame_fields in Hcomp as (Hh & _ & _ & Hst & _ & Hp & _).
    simpl in *. exists bv. split; [done|]. split; [done|].
    split; [done|]. split; [|done].
    unfold stackAt. rewrite Hst, Hp. by rewrite lookup_insert_eq.
Qed.
End HostCall.

(** * Arrays *)

Lemma popInt32_run s z :
  stackLimit s <= stackPtr s < stackBase s ->
  stackAt s (stackPtr s) = mkValue z TAG_INT32 ->
  - 2 ^ 31 <= z < 2 ^ 31 ->
  popInt32 s = Ok z (set_stackPtr (stackPtr s + 1) s).
Proof.
  intros Hb Hv Hz. unfold popInt32. erewrite bind_Ok by by apply popVal_run.
  rewrite Hv. unfold bind, assert, ret. simpl. by rewrite wrap_signed_id.
Qed.

Lemma popArr_run s r :
  stackLimit s <= stackPtr s < stackBase s ->
  stackAt s (stackPtr s) = Val.arr r ->
  (v <- popVal ;; arrayOf v) s = Ok r (set_stackPtr (stackPtr s + 1) s).
Proof.
  intros Hb Hv. erewrite bind_Ok by by apply popVal_run. by rewrite Hv.
Qed.

Lemma negative_index i n :
  - 2 ^ 31 <= i < 2 ^ 31 -> 0 <= n < 2 ^ 63 ->
  (n <=? to_size_t i) = bool_decide (i < 0 \/ n <= i).
Proof.
  intros Hi Hn. change (2 ^ 31) with 2147483648 in Hi.
  change (2 ^ 63) with 9223372036854775808 in Hn.
  destruct (to_size_t_int32 i) as [[Hp ->]|[Hneg ->]];
    [by change (2 ^ 31) with 2147483648|..].
  - case_bool_decide; [apply Z.leb_le|apply Z.leb_gt]; lia.
  - change (2 ^ 64) with 18446744073709551616.
    rewrite bool_decide_eq_true_2 by lia. apply Z.leb_le. lia.
Qed.

Section Arrays.
Context {host : Host}.

(** X13.  GET_ELEM checks the index against the length of the array after
    its conversion to [size_t], so that a negative index is out of bounds as
    well: out of bounds it throws, having popped the index and the array,
    and the heap is not read; in bounds the element replaces the index and
    the array on the stack. *)
Theorem get_elem_bounds s i r elems :
  code s !! instrPtr s = Some (COp GET_ELEM) ->
  instrPtr s + 2 <= codeHeapLimit s ->
  stackLimit s <= stackPtr s -> stackPtr s + 2 <= stackBase s ->
  stackAt s (stackPtr s) = mkValue i TAG_INT32 -> - 2 ^ 31 <= i < 2 ^ 31 ->
  stackAt s (stackPtr s + 1) = Val.arr r ->
  Runtime.getArray (heap s) r = Some elems ->
  Z.of_nat (length elems) < 2 ^ 63 ->
  (i < 0 \/ Z.of_nat (length elems) <= i ->
   step s = Throw (Err.IndexOutOfBounds "get_elem")
              (set_stackPtr (stackPtr s + 2) (set_instrPtr (instrPtr s + 2) s)))
  /\
  (0 <= i < Z.of_nat (length elems) ->
   exists val, elems !! Z.to_nat i = Some val /\
     step s = Ok None
       (set_stack (<[stackPtr s + 1 := val]> (stack s))
          (set_stackPtr (stackPtr s + 1) (set_instrPtr (instrPtr s + 2) s)))).
Proof.
  intros Hop Hlim Hlo Hhi Hi Hrange Ha Harr Hlen.
  assert (Hstep : step s =
    (if bool_decide (i < 0 \/ Z.of_nat (length elems) <= i)
     then throw (Err.IndexOutOfBounds "get_elem")
     else
       val <- defined (elems !! Z.to_nat (to_size_t i)) ;;
       pushVal val ;; ret None)
      (set_stackPtr (stackPtr s + 2) (set_instrPtr (instrPtr s + 2) s))).
  { unfold step. erewrite bind_Ok by by apply readOpcode_run.
    cbv beta iota delta [execInstr fst snd].
    erewrite bind_Ok by
      (apply popInt32_run; [simpl; lia|unfold stackAt in *; simpl; by rewrite Hi|done]).
    cbv zeta.
    erewrite bind_Ok by (apply popVal_run; simpl; lia).
    unfold stackAt in *. simpl. rewrite Ha.
    unfold bind at 1, arrayOf at 1, bind at 1, assert at 1. simpl.
    erewrite bind_Ok by (by apply arrElems_run).
    rewrite negative_index by lia.
    by replace (stackPtr s + 1 + 1) with (stackPtr s + 2) by lia. }
  rewrite Hstep. split.
  - intros Hout. by rewrite bool_decide_eq_true_2.
  - intros Hin. rewrite bool_decide_eq_false_2 by lia.
    rewrite to_size_t_small by (change (2 ^ 64) with 18446744073709551616; lia).
    destruct (lookup_lt_is_Some_2 elems (Z.to_nat i) ltac:(lia)) as [val Hval].
    exists val. split; [done|]. rewrite Hval.
    unfold bind at 1, defined, ret at 1.
    erewrite bind_Ok by (apply pushVal_run; simpl; lia).
    simpl. unfold ret. f_equal.
    replace (stackPtr s + 2 - 1) with (stackPtr s + 1) by lia. done.
Qed.

(** X14.  SET_ELEM with an index in bounds replaces that element of the
    array and nothing else in the heap; out of bounds (a negative index
    included) it throws and the heap is as it was. *)
Theorem set_elem_bounds s val i r elems :
  code s !! instrPtr s = Some (COp SET_ELEM) ->
  instrPtr s + 2 <= codeHeapLimit s ->
  stackLimit s <= stackPtr s -> stackPtr s + 3 <= stackBase s ->
  stackAt s (stackPtr s) = val ->
  stackAt s (stackPtr s + 1) = mkValue i TAG_INT32 -> - 2 ^ 31 <= i < 2 ^ 31 ->
  stackAt s (stackPtr s + 2) = Val.arr r ->
  Runtime.getArray (heap s) r = Some elems ->
  Z.of_nat (length elems) < 2 ^ 63 ->
  let s1 := set_stackPtr (stackPtr s + 3) (set_instrPtr (instrPtr s + 2) s) in
  (i < 0 \/ Z.of_nat (length elems) <= i ->
   step s = Throw (Err.IndexOutOfBounds "set_elem") s1) /\
  (0 <= i < Z.of_nat (length elems) ->
   step s = Ok None
     (set_heap (Runtime.update r (HArray (<[Z.to_nat i := val]> elems)) (heap s))
        s1)).
Proof.
  intros Hop Hlim Hlo Hhi Hv Hi Hrange Ha Harr Hlen s1.
  assert (Hstep : step s =
    (if bool_decide (i < 0 \/ Z.of_nat (length elems) <= i)
     then throw (Err.IndexOutOfBounds "set_elem")
     else
       modify (fun s =>
         set_heap
           (Runtime.update r (HArray (<[Z.to_nat (to_size_t i) := val]> elems))
              (heap s)) s) ;;
       ret None) s1).
  { unfold step. erewrite bind_Ok by by apply readOpcode_run.
    cbv beta iota delta [execInstr fst snd].
    erewrite bind_Ok by (apply popVal_run; simpl; lia).
    erewrite bind_Ok by
      (apply popInt32_run; [simpl; lia|unfold stackAt in *; simpl; by rewrite Hi|done]).
    cbv zeta.
    erewrite bind_Ok by (apply popVal_run; simpl; lia).
    unfold stackAt in *. simpl.
    replace (stackPtr s + 1 + 1) with (stackPtr s + 2) by lia. rewrite Ha.
    unfold bind at 1, arrayOf at 1, bind at 1, assert at 1. simpl.
    erewrite bind_Ok by (by apply arrElems_run).
    rewrite negative_index by lia. rewrite Hv.
    by replace (stackPtr s + 2 + 1) with (stackPtr s + 3) by lia. }
  rewrite Hstep. split.
  - intros Hout. by rewrite bool_decide_eq_true_2.
  - intros Hin. rewrite bool_decide_eq_false_2 by lia.
    by rewrite to_size_t_small by (change (2 ^ 64) with 18446744073709551616; lia).
Qed.
End Arrays.

(** * Operands of the wrong type *)

Section Tags.
Context {host : Host}.

(** X15.  The integer instructions do not throw on an operand of another
    type: when the value on top of the stack is not an INT32 the assertion
    of [popInt32] fails and the process stops. *)
Theorem int32_op_wrong_tag s op :
  op ∈ [ADD_I32; SUB_I32; MUL_I32; LT_I32; LE_I32; GT_I32; GE_I32; EQ_I32;
        I32_TO_F32] ->
  code s !! instrPtr s = Some (COp op) ->
  instrPtr s + 2 <= codeHeapLimit s ->
  stackLimit s <= stackPtr s < stackBase s ->
  tag (stackAt s (stackPtr s)) ≠ TAG_INT32 ->
  step s = Halt AssertFailed.
Proof.
  intros Hin Hop Hlim Hsp Ht.
  unfold step. erewrite bind_Ok by by apply readOpcode_run.
  assert (popInt32 (set_instrPtr (instrPtr s + 2) s) = Halt AssertFailed) as Hpop.
  { unfold popInt32. erewrite bind_Ok by (apply popVal_run; simpl; lia).
    unfold bind, assert, Val.isInt32. unfold stackAt in *. simpl.
    by rewrite bool_decide_eq_false_2. }
  cbv beta iota delta [fst snd].
  repeat (apply elem_of_cons in Hin as [->|Hin];
    [cbv beta iota delta [execInstr binInt32]; unfold bind at 1; by rewrite Hpop|]).
  by apply elem_of_nil in Hin.
Qed.
End Tags.

(** * Locals *)

Section Locals.
Context {host : Host}.

(** X16.  SET_LOCAL followed by GET_LOCAL of the same index is a round trip:
    the value popped into the local is back on top of the stack, the stack
    pointer is where it was, and the local holds the value. *)
Theorem set_local_get_local s idx :
  code s !! instrPtr s = Some (COp SET_LOCAL) ->
  code s !! (instrPtr s + 2) = Some (CU16 idx) ->
  code s !! (instrPtr s + 4) = Some (COp GET_LOCAL) ->
  code s !! (instrPtr s + 6) = Some (CU16 idx) ->
  instrPtr s + 8 <= codeHeapLimit s ->
  stackLimit s < stackPtr s < stackBase s ->
  stackLimit s <= framePtr s - idx < stackBase s ->
  exists s2,
    run 2 s = Some s2 /\
    stackPtr s2 = stackPtr s /\ framePtr s2 = framePtr s /\
    instrPtr s2 = instrPtr s + 8 /\
    stackAt s2 (stackPtr s2) = stackAt s (stackPtr s) /\
    stackAt s2 (framePtr s - idx) = stackAt s (stackPtr s).
Proof.
  intros Hop1 Hi1 Hop2 Hi2 Hlim Hsp Hfp.
  set (v := stackAt s (stackPtr s)).
  set (s1 := set_stack (<[framePtr s - idx := v]> (stack s))
               (set_stackPtr (stackPtr s + 1) (set_instrPtr (instrPtr s + 4) s))).
  assert (Hin : forall t, stackLimit t = stackLimit s -> stackBase t = stackBase s ->
            inStack t (framePtr s - idx) = true).
  { intros t H1 H2. unfold inStack. rewrite H1, H2.
    apply andb_true_intro. split; [apply Z.leb_le|apply Z.ltb_lt]; lia. }
  assert (Hs1 : step s = Ok None s1).
  { unfold step. erewrite bind_Ok by (apply readOpcode_run; [done|lia]).
    cbv beta iota delta [execInstr fst snd].
    erewrite bind_Ok by (apply readU16_run; simpl; [done|lia]).
    unfold bind at 1, gets at 1, bind at 1, gets at 1. simpl.
    unfold bind at 1, assert at 1.
    destruct (Z.ltb_spec (stackLimit s) (stackPtr s)); [|lia]. unfold ret at 1.
    erewrite bind_Ok by (apply popVal_run; simpl; lia).
    unfold bind at 1, gets at 1. simpl.
    unfold bind, storeStack. rewrite Hin by done. simpl.
    unfold ret. f_equal. subst s1 v. unfold stackAt. simpl.
    by replace (instrPtr s + 2 + 2) with (instrPtr s + 4) by lia. }
  set (s2 := set_stack (<[stackPtr s := v]> (stack s1))
               (set_stackPtr (stackPtr s) (set_instrPtr (instrPtr s + 8) s1))).
  assert (Hs2 : step s1 = Ok None s2).
  { unfold step. erewrite bind_Ok by (apply readOpcode_run; simpl; [done|lia]).
    cbv beta iota delta [execInstr fst snd].
    erewrite bind_Ok by
      (apply readU16_run; simpl;
       [by replace (instrPtr s + 4 + 2) with (instrPtr s + 6) by lia|lia]).
    unfold bind at 1, gets at 1, bind at 1, gets at 1. simpl.
    unfold bind at 1, assert at 1.
    destruct (Z.ltb_spec (stackLimit s) (stackPtr s + 1)); [|lia].
    unfold ret at 1.
    unfold bind at 1, gets at 1. simpl.
    unfold bind at 1, loadStack. rewrite Hin by done.
    erewrite bind_Ok by (apply pushVal_run; simpl; lia).
    unfold ret. f_equal. subst s2 s1. unfold stackAt. simpl.
    rewrite lookup_insert_eq. simpl.
    replace (stackPtr s + 1 - 1) with (stackPtr s) by lia.
    by replace (instrPtr s + 4 + 2 + 2) with (instrPtr s + 8) by lia. }
  exists s2. simpl. rewrite Hs1, Hs2.
  split; [done|]. split; [done|]. split; [done|]. split; [done|].
  unfold stackAt. subst s2 s1. simpl.
  rewrite lookup_insert_eq. split; [done|].
  rewrite lookup_insert. case_decide; [done|]. by rewrite lookup_insert_eq.
Qed.
End Locals.

(** * The call gateway *)

Lemma storeStack_Ok a v s s' :
  storeStack a v s = Ok () s' ->
  stackLimit s <= a < stackBase s /\ s' = set_stack (<[a := v]> (stack s)) s.
Proof.
  unfold storeStack. destruct (inStack s a) eqn:E; [|done].
  intros [= <-]. apply andb_prop in E as [E1 E2].
  apply Z.leb_le in E1. apply Z.ltb_lt in E2. done.
Qed.

(** What [copyArgs] writes: the arguments, from [framePtr - i] downwards. *)
Lemma copyArgs_Ok args : forall i s s',
  copyArgs i args s = Ok () s' ->
  s' = set_stack (stack s') s /\
  (forall k arg, args !! k = Some arg ->
     stack s' !! (framePtr s - i - Z.of_nat k) = Some arg) /\
  (forall a, framePtr s - i < a \/ a <= framePtr s - i - Z.of_nat (length args) ->
     stack s' !! a = stack s !! a).
Proof.
  induction args as [|arg rest IH]; intros i s s'; simpl.
  - intros [= <-]. split; [by destruct s|]. split; [done|done].
  - intros E. unfold bind at 1, gets at 1 in E.
    apply bind_Ok_inv in E as ([] & s1 & E1 & E).
    apply storeStack_Ok in E1 as [Hin ->].
    apply IH in E as (Hs' & Hargs & Hother). simpl in *.
    split; [by rewrite Hs'|]. split.
    + intros [|k] a Ha; simpl in Ha.
      * injection Ha as <-. rewrite Hother by lia.
        rewrite Z.sub_0_r. apply lookup_insert_eq.
      * replace (framePtr s - i - Z.of_nat (S k))
          with (framePtr s - (i + 1) - Z.of_nat k) by lia. by apply Hargs.
    + intros a Ha. rewrite Hother by lia. apply lookup_insert_ne. lia.
Qed.

Lemma ICache_getInt32_Ok n o s z s' :
  ICache.getInt32 n o s = Ok z s' ->
  s' = s /\ exists fs v, Runtime.getObject (heap s) o = Some fs /\
    Runtime.lookupField n fs = Some v /\ tag v = TAG_INT32 /\
    z = Val.wrap_signed 32 (word v).
Proof.
  intros E. pose proof (pure_Ok _ _ _ _ (pure_ICache_getInt32 n o) E) as ->.
  split; [done|]. unfold ICache.getInt32, ICache.getField, objFields in E.
  unfold bind, gets, defined, assert, ret, throw in E. simpl in E.
  destruct (Runtime.getObject (heap s) o) as [fs|] eqn:Hfs; simpl in E; [|done].
  destruct (Runtime.lookupField n fs) as [v|] eqn:Hv; simpl in E; [|done].
  unfold Val.isInt32 in E. case_bool_decide; simpl in E; [|done].
  injection E as <-. by exists fs, v.
Qed.

(** Normal form of the states of a proof, once the initial state has been
    taken apart. *)
Ltac norm :=
  unfold set_heap, set_stack, set_stackPtr, set_framePtr, set_instrPtr in *;
  cbn [stackPtr stack heap codeHeap codeHeapLimit codeHeapAlloc code
       versionMap versions nextVersion instrMap retAddrMap stackLimit
       stackBase framePtr instrPtr charStrings] in *.

Section Gateway.
Context {host : Host}.

(** The frame [callFunEnter] builds, up to the compilation of the entry
    block. *)
Lemma callFunEnter_Ok fn args s sz s1 :
  callFunEnter fn args s = Ok sz s1 ->
  exists numLocals numParams,
    ICache.getInt32 "num_locals" fn s = Ok numLocals s /\
    ICache.getInt32 "num_params" fn s = Ok numParams s /\
    Z.of_nat (length args) <= to_size_t numParams /\
    numParams <= numLocals /\
    sz = stackSizeOf s /\
    stackLimit s < stackPtr s <= stackBase s /\
    stackLimit s + 3 <= stackPtr s - 1 - numLocals /\
    stackPtr s - 1 - numLocals <= stackBase s /\
    stackLimit s1 = stackLimit s /\ stackBase s1 = stackBase s /\
    heap s1 = heap s /\
    framePtr s1 = stackPtr s - 2 /\
    stackPtr s1 = stackPtr s - 1 - numLocals - 3 /\
    exists st,
      copyArgs 0 args
        (set_stack
           (<[stackPtr s - 1 - numLocals - 3 := Val.rawptr 0]>
              (<[stackPtr s - 1 - numLocals - 2 := Val.rawptr (framePtr s)]>
                 (<[stackPtr s - 1 - numLocals - 1 := Val.rawptr (stackPtr s - 1)]>
                    (<[stackPtr s - 1 := Val.rawptr (instrPtr s)]> (stack s)))))
           (set_stackPtr (stackPtr s - 1 - numLocals - 3)
              (set_framePtr (stackPtr s - 2) s))) = Ok () st /\
      stack s1 = stack st.
Proof.
  unfold callFunEnter. intros E.
  apply bind_Ok_inv in E as (numParams & s0 & E1 & E).
  pose proof (pure_Ok _ _ _ _ (pure_ICache_getInt32 _ _) E1) as ->.
  apply bind_Ok_inv in E as (numLocals & s0 & E2 & E).
  pose proof (pure_Ok _ _ _ _ (pure_ICache_getInt32 _ _) E2) as ->.
  exists numLocals, numParams. split; [done|]. split; [done|].
  clear E1 E2.
  destruct s as [h ch cl ca cd vm vs nv im ram sl sb stk fp sp ip cs].
  apply bind_Ok_inv in E as ([] & s0 & Ea & E).
  unfold assert in Ea.
  destruct (Z.leb_spec (Z.of_nat (length args)) (to_size_t numParams));
    [|done]. injection Ea as <-.
  apply bind_Ok_inv in E as ([] & s0 & Ea & E).
  unfold assert in Ea. destruct (Z.leb_spec numParams numLocals); [|done].
  injection Ea as <-.
  unfold bind at 1, stackSize at 1, gets at 1 in E.
  unfold bind at 1, gets at 1 in E.
  apply bind_Ok_inv in E as ([] & s0 & Ep & E).
  apply pushVal_Ok in Ep as [Hsp ->]. simpl in Hsp.
  norm.
  unfold bind at 1, gets at 1, bind at 1, gets at 1 in E.
  unfold bind at 1, modify at 1, bind at 1, modify at 1 in E.
  unfold bind at 1, gets at 1, bind at 1, gets at 1 in E.
  norm.
  apply bind_Ok_inv in E as ([] & s0 & Ea & E).
  unfold assert in Ea.
  destruct (Z.leb_spec sl (sp - 1 - numLocals)); [|done].
  injection Ea as <-.
  apply bind_Ok_inv in E as ([] & s0 & Ep & E).
  apply pushVal_Ok in Ep as [Hsp1 ->]. simpl in Hsp1.
  norm.
  apply bind_Ok_inv in E as ([] & s0 & Ep & E).
  apply pushVal_Ok in Ep as [Hsp2 ->]. simpl in Hsp2.
  norm.
  apply bind_Ok_inv in E as ([] & s0 & Ep & E).
  apply pushVal_Ok in Ep as [Hsp3 ->]. simpl in Hsp3.
  norm.
  apply bind_Ok_inv in E as ([] & st & Ec & E).
  pose proof (copyArgs_Ok _ _ _ _ Ec) as (Hst & _ & _).
  apply bind_Ok_inv in E as (entryBlock & s0 & Ee & E).
  pose proof (pure_Ok _ _ _ _ (pure_ICache_getObj _ _) Ee) as ->.
  apply bind_Ok_inv in E as (entryVer & s2 & Eg & E).
  apply (respects_Ok Frame) in Eg; [|apply frame_getBlockVersion].
  apply bind_Ok_inv in E as ([] & s3 & Ek & E).
  apply (respects_Ok Frame) in Ek; [|apply frame_compile].
  assert (Frame st s3) as Hf by (by etrans).
  apply Frame_fields in Hf as (Hh & Hl & Hb & Hs & Hfp & Hp & _).
  apply bind_Ok_inv in E as (bv & s0 & Ev & E).
  apply versionAt_Ok in Ev as [-> _].
  apply bind_Ok_inv in E as ([] & s0 & Ea & E).
  unfold assert in Ea. destruct (negb _); [|done]. injection Ea as <-.
  apply bind_Ok_inv in E as ([] & s0 & Ea & E).
  unfold assert in Ea. destruct (negb _); [|done]. injection Ea as <-.
  apply bind_Ok_inv in E as ([] & s0 & Ea & E).
  unfold assert in Ea. destruct (_ <? _); [|done]. injection Ea as <-.
  unfold bind, modify, ret in E. injection E as <- <-.
  norm.
  rewrite Hh, Hl, Hb, Hs, Hfp, Hp, Hst. unfold stackSizeOf. norm.
  split; [done|]. split; [done|]. split; [done|]. split; [lia|].
  split; [lia|]. split; [lia|]. split; [done|]. split; [done|].
  split; [done|]. split; [lia|]. split; [lia|].
  exists st. split; [|by rewrite Hst].
  rewrite <- Ec. repeat (f_equal; try lia).
Qed.

Lemma execCode_run fuel s :
  codeHeap s <= instrPtr s < codeHeapLimit s ->
  execCode fuel s = execLoop fuel s.
Proof.
  intros [Hlo Hhi]. unfold execCode, bind, gets, assert. simpl.
  apply Z.leb_le in Hlo as ->. by apply Z.ltb_lt in Hhi as ->.
Qed.

(** A RET whose return version is null leaves the loop. *)
Lemma ret_toplevel_run s :
  code s !! instrPtr s = Some (COp RET) ->
  instrPtr s + 2 <= codeHeapLimit s ->
  stackLimit s <= stackPtr s -> stackPtr s + 4 <= stackBase s ->
  word (stackAt s (stackPtr s + 1)) = 0 ->
  step s =
    Ok (Some (stackAt s (stackPtr s)))
      (set_stackPtr (word (stackAt s (stackPtr s + 3)))
         (set_framePtr (word (stackAt s (stackPtr s + 2)))
            (set_instrPtr (instrPtr s + 2) s))).
Proof.
  intros Hop Hlim Hlo Hhi Hnull.
  unfold step. erewrite bind_Ok by by apply readOpcode_run.
  cbv beta iota delta [execInstr fst snd].
  erewrite bind_Ok by (apply popVal_run; simpl; lia).
  erewrite bind_Ok by (apply popVal_run; simpl; lia).
  erewrite bind_Ok by (apply popVal_run; simpl; lia).
  erewrite bind_Ok by (apply popVal_run; simpl; lia).
  unfold bind at 1, modify at 1. unfold bind at 1, modify at 1.
  unfold stackAt in *. simpl.
  replace (stackPtr s + 1 + 1) with (stackPtr s + 2) by lia.
  replace (stackPtr s + 2 + 1) with (stackPtr s + 3) by lia.
  by apply Z.eqb_eq in Hnull as ->.
Qed.

(** The frame of [callFunEnter], slot by slot. *)
Lemma callFunEnter_frame fn args s sz s1 numParams numLocals :
  callFunEnter fn args s = Ok sz s1 ->
  ICache.getInt32 "num_params" fn s = Ok numParams s ->
  ICache.getInt32 "num_locals" fn s = Ok numLocals s ->
  0 <= numParams ->
  sz = stackSizeOf s /\
  framePtr s1 = stackPtr s - 2 /\
  stackPtr s1 = stackPtr s - 1 - numLocals - 3 /\
  stackAt s1 (stackPtr s - 1) = Val.rawptr (instrPtr s) /\
  stackAt s1 (stackPtr s1) = Val.rawptr 0 /\
  stackAt s1 (stackPtr s1 + 1) = Val.rawptr (framePtr s) /\
  stackAt s1 (stackPtr s1 + 2) = Val.rawptr (stackPtr s - 1) /\
  (forall k arg, args !! k = Some arg ->
     stackAt s1 (framePtr s1 - Z.of_nat k) = arg) /\
  (forall a, stackPtr s <= a -> stackAt s1 a = stackAt s a) /\
  heap s1 = heap s.
Proof.
  intros E Hp Hl Hpos.
  destruct (callFunEnter_Ok _ _ _ _ _ E)
    as (numLocals' & numParams' & Hl' & Hp' & Hlen & Hle & Hsz & Hsp & Hlo
        & Hhi & _ & _ & Hheap & Hfp & Hsp1 & st & Ec & Hst).
  rewrite Hl in Hl'. injection Hl' as <-.
  rewrite Hp in Hp'. injection Hp' as <-.
  rewrite to_size_t_small in Hlen.
  2:{ split; [done|]. apply ICache_getInt32_Ok in Hp as (_ & fs & v & _ & _ & _ & ->).
      unfold Val.wrap_signed. change (2 ^ 64) with 18446744073709551616.
      change (2 ^ 32) with 4294967296. change (2 ^ (32 - 1)) with 2147483648.
      pose proof (Z.mod_pos_bound (word v) 4294967296 ltac:(lia)).
      destruct (_ <? _); lia. }
  apply copyArgs_Ok in Ec as (_ & Hargs & Hother). simpl in Hargs, Hother.
  rewrite Z.sub_0_r in Hother.
  assert (forall k arg, args !! k = Some arg -> (k < length args)%nat) as Hk.
  { intros k arg Ha. by eapply lookup_lt_Some. }
  unfold stackAt. rewrite Hfp, Hsp1, Hst.
  split; [done|]. split; [done|]. split; [done|].
  split. { rewrite Hother by lia. simpl.
           rewrite !lookup_insert_ne by lia. by rewrite lookup_insert_eq. }
  split. { rewrite Hother by lia. simpl. by rewrite lookup_insert_eq. }
  split. { rewrite Hother by lia. simpl.
           rewrite lookup_insert_ne by lia.
           replace (stackPtr s - 1 - numLocals - 3 + 1)
             with (stackPtr s - 1 - numLocals - 2) by lia.
           by rewrite lookup_insert_eq. }
  split. { rewrite Hother by lia. simpl.
           rewrite !lookup_insert_ne by lia.
           replace (stackPtr s - 1 - numLocals - 3 + 2)
             with (stackPtr s - 1 - numLocals - 1) by lia.
           by rewrite lookup_insert_eq. }
  split. { intros k arg Ha. specialize (Hargs k arg Ha).
           rewrite Z.sub_0_r in Hargs. by rewrite Hargs. }
  split; [|done].
  intros a Ha. rewrite Hother by lia. simpl.
  by rewrite !lookup_insert_ne by lia.
Qed.

(** X17.  The frame [callFun] builds before it enters the loop: the saved
    instruction pointer, then the locals with the arguments copied into the
    first ones, then the saved stack pointer, the saved frame pointer and a
    null return version on top; the stack above the caller's stack pointer
    and the object heap are untouched. *)
Theorem callFun_frame fn args s sz s1 numParams numLocals :
  callFunEnter fn args s = Ok sz s1 ->
  ICache.getInt32 "num_params" fn s = Ok numParams s ->
  ICache.getInt32 "num_locals" fn s = Ok numLocals s ->
  0 <= numParams ->
  sz = stackSizeOf s /\
  framePtr s1 = stackPtr s - 2 /\
  stackPtr s1 = stackPtr s - 1 - numLocals - 3 /\
  stackAt s1 (stackPtr s - 1) = Val.rawptr (instrPtr s) /\
  stackAt s1 (stackPtr s1) = Val.rawptr 0 /\
  stackAt s1 (stackPtr s1 + 1) = Val.rawptr (framePtr s) /\
  stackAt s1 (stackPtr s1 + 2) = Val.rawptr (stackPtr s - 1) /\
  (forall k arg, args !! k = Some arg ->
     stackAt s1 (framePtr s1 - Z.of_nat k) = arg) /\
  (forall a, stackPtr s <= a -> stackAt s1 a = stackAt s a) /\
  heap s1 = heap s.
Proof. apply callFunEnter_frame. Qed.

(** X18.  [callFun] gives the machine back as it took it: when the loop
    reaches a RET with one value on top of the frame that [callFun] built,
    the saved words being as they were left, [callFun] returns that value
    and the stack pointer, the frame pointer and the instruction pointer are
    those of the caller again; the stack-imbalance error is not thrown. *)
Theorem callFun_restores fuel fn args s sz s1 n s2 numParams numLocals :
  callFunEnter fn args s = Ok sz s1 ->
  ICache.getInt32 "num_params" fn s = Ok numParams s ->
  ICache.getInt32 "num_locals" fn s = Ok numLocals s ->
  0 <= numParams ->
  codeHeap s1 <= instrPtr s1 < codeHeapLimit s1 ->
  run n s1 = Some s2 -> (n < fuel)%nat ->
  code s2 !! instrPtr s2 = Some (COp RET) ->
  instrPtr s2 + 2 <= codeHeapLimit s2 ->
  stackLimit s2 = stackLimit s -> stackBase s2 = stackBase s ->
  stackPtr s2 = stackPtr s1 - 1 -> stackLimit s <= stackPtr s2 ->
  (forall a, a = stackPtr s - 1 \/ stackPtr s1 <= a < stackPtr s1 + 3 ->
     stackAt s2 a = stackAt s1 a) ->
  exists s4,
    callFun fuel fn args s = Ok (stackAt s2 (stackPtr s2)) s4 /\
    stackPtr s4 = stackPtr s /\ framePtr s4 = framePtr s /\
    instrPtr s4 = instrPtr s /\ stack s4 = stack s2 /\ heap s4 = heap s2.
Proof.
  intros E Hp Hl Hpos Hip Hrun Hfuel Hop Hlim Hsl Hsb Hsp2 Hlo Hsaved.
  destruct (callFunEnter_frame _ _ _ _ _ _ _ E Hp Hl Hpos)
    as (Hsz & Hfp & Hsp1 & Hsip & Hrv & Hsfp & Hssp & _ & _ & _).
  destruct (callFunEnter_Ok _ _ _ _ _ E)
    as (numLocals' & numParams' & Hl' & Hp' & _ & Hle & _ & Hsp & _
        & Hhi & _).
  rewrite Hl in Hl'. injection Hl' as <-.
  rewrite Hp in Hp'. injection Hp' as <-.
  pose proof (ret_toplevel_run s2 Hop Hlim) as Hret.
  rewrite Hsl, Hsb, Hsp2 in Hret.
  replace (stackPtr s1 - 1 + 1) with (stackPtr s1) in Hret by lia.
  replace (stackPtr s1 - 1 + 2) with (stackPtr s1 + 1) in Hret by lia.
  replace (stackPtr s1 - 1 + 3) with (stackPtr s1 + 2) in Hret by lia.
  rewrite (Hsaved (stackPtr s1)), (Hsaved (stackPtr s1 + 1)),
    (Hsaved (stackPtr s1 + 2)) in Hret by lia.
  rewrite Hrv, Hsfp, Hssp in Hret. simpl in Hret.
  specialize (Hret ltac:(lia) ltac:(lia) eq_refl).
  rewrite <- Hsp2 in Hret.
  set (s3 := set_stackPtr _ _) in Hret.
  assert (callFunLeave sz (stackAt s2 (stackPtr s2)) s3 =
          Ok (stackAt s2 (stackPtr s2))
             (set_instrPtr (instrPtr s) (set_stackPtr (stackPtr s) s3))) as Hleave.
  { unfold callFunLeave.
    erewrite bind_Ok by (apply popVal_run; subst s3; simpl; lia).
    unfold bind at 1, modify at 1.
    unfold bind at 1, stackSize at 1, gets at 1.
    rewrite bool_decide_eq_false_2.
    - unfold ret. f_equal. subst s3. unfold stackAt in *. simpl.
      rewrite (Hsaved (stackPtr s - 1)) by lia. rewrite Hsip. simpl.
      by replace (stackPtr s - 1 + 1) with (stackPtr s) by lia.
    - intros Hne. apply Hne. rewrite Hsz. subst s3. unfold stackSizeOf. simpl.
      rewrite Hsb. f_equal. lia. }
  eexists. split.
  - unfold callFun. rewrite (bind_Ok _ _ _ _ _ E).
    unfold bind at 1. rewrite execCode_run by done.
    rewrite (execLoop_return _ _ _ _ _ _ Hrun Hret Hfuel). apply Hleave.
  - subst s3. simpl. done.
Qed.
End Gateway.

Section Entry.
Context {host : Host}.

(** X19.  [callFun] does not throw on a wrong number of arguments: with
    more arguments than [num_params] converted to [size_t] (the comparison
    is unsigned, so that a negative [num_params] passes it), or with fewer
    locals than parameters, an assertion fails and the process stops, before
    anything is pushed or compiled. *)
Theorem callFun_bad_arity fuel fn args s numParams numLocals :
  ICache.getInt32 "num_params" fn s = Ok numParams s ->
  ICache.getInt32 "num_locals" fn s = Ok numLocals s ->
  to_size_t numParams < Z.of_nat (length args) \/ numLocals < numParams ->
  callFun fuel fn args s = Halt AssertFailed.
Proof.
  intros Hp Hl Hbad. unfold callFun, callFunEnter.
  unfold bind at 1. unfold bind at 1. rewrite Hp.
  unfold bind at 1. rewrite Hl.
  unfold bind at 1, assert at 1.
  destruct (Z.leb_spec (Z.of_nat (length args)) (to_size_t numParams)); [|done].
  unfold ret at 1, bind at 1, assert at 1.
  by destruct (Z.leb_spec numParams numLocals); [lia|].
Qed.

(** X20.  [callExportFn] throws when the package has no field of that name
    and when the field is not an object, leaving the interpreter as it was;
    otherwise it is [callFun] on the exported function. *)
Theorem callExportFn_cases fuel pkg fnName args s fs :
  Runtime.getObject (heap s) pkg = Some fs ->
  (Runtime.lookupField fnName fs = None ->
   callExportFn fuel pkg fnName args s = Throw (Err.MissingExport fnName) s) /\
  (forall v, Runtime.lookupField fnName fs = Some v -> tag v ≠ TAG_OBJECT ->
   callExportFn fuel pkg fnName args s
     = Throw (Err.ExportNotFunction fnName) s) /\
  (forall f, Runtime.lookupField fnName fs = Some (Val.obj f) ->
   callExportFn fuel pkg fnName args s = callFun fuel f args s).
Proof.
  intros Hfs. unfold callExportFn.
  rewrite (bind_Ok _ _ _ _ _ (objFields_run _ _ _ Hfs)).
  unfold Runtime.hasField. split; [|split].
  - by intros ->.
  - intros v -> Ht. simpl. unfold bind, defined, ret, Val.isObject.
    by rewrite bool_decide_eq_false_2.
  - by intros f ->.
Qed.
End Entry.

Section LoopKeeps.
Context {host : Host}.

(** X21.  Inside the interpreter loop compilation is one-way, as long as
    no host function and no importer calls back into [callFun]: whatever
    instructions are executed, a version that has a start pointer keeps its
    record, start and end pointer included. *)
Theorem loop_keeps_compiled n : forall s s' v bv,
  Inv s -> run n s = Some s' ->
  versions s !! v = Some bv -> startPtr bv ≠ 0 ->
  versions s' !! v = Some bv.
Proof.
  induction n as [|n IH]; intros s s' v bv Hs Hr Hv Hne; simpl in Hr.
  - by injection Hr as <-.
  - destruct (step s) as [[w|] s1|e s1|f] eqn:E; try done.
    destruct (respects_Ok Keeps _ _ _ _ step_keeps E Hs) as (Hs1 & _ & Hk).
    eapply IH; [done..|by apply Hk|done].
Qed.
End LoopKeeps.

(** * The extra properties at work on the example images *)

Lemma reachable_code_heap_witness :
  let s := Example.after 2 Example.main2 in
  codeHeap s = 4096 /\
  (forall b vers, versionMap s !! b = Some vers -> (length vers <= 1)%nat).
Proof.
  intros s.
  assert (callFunEnter (host := Example.host) Example.main2 [] Example.vm0
          = Ok 0 (Example.entered Example.main2)) as He by closed.
  assert (run (H := Example.host) 2 (Example.entered Example.main2) = Some s)
    as Hr by closed.
  destruct (reachable_code_heap (host := Example.host)
              4096 2097152 4194304 Example.image s ltac:(closed)
              (rtc_l _ _ _ _ (ev_enter _ _ _ _ _ He) (run_reach _ _ _ Hr)))
    as (H1 & _ & _ & _ & _ & H6 & _).
  exact (conj H1 H6).
Defined.

Lemma compile_leaves_machine_witness :
  let s := Example.after 2 Example.main2 in
  let s' := Example.state (compile (host := Example.host) 4194352 s) in
  stack s' = stack s /\ stackPtr s' = stackPtr s /\ instrPtr s' = instrPtr s.
Proof.
  intros s s'.
  assert (compile (host := Example.host) 4194352 s = Ok () s') as Hc by closed.
  destruct (compile_leaves_machine (host := Example.host) 4194352 s s'
              (or_introl Hc))
    as (_ & H2 & _ & _ & H5 & _ & H7 & _).
  exact (conj H2 (conj H5 H7)).
Defined.

Lemma compile_appends_witness :
  let s := Example.after 2 Example.main2 in
  let s' := Example.state (compile (host := Example.host) 4194352 s) in
  exists bv', versions s' !! 4194352 = Some bv' /\
    startPtr bv' = codeHeapAlloc s /\ endPtr bv' = codeHeapAlloc s'.
Proof.
  intros s s'.
  assert (compile (host := Example.host) 4194352 s = Ok () s') as Hc by closed.
  exact (proj2 (proj2 (proj2
           (compile_appends (host := Example.host) 4194352 s s'
              (Inv_after 2 Example.main2 0 ltac:(closed) ltac:(closed)) Hc)))).
Defined.

Lemma compile_throw_marks_compiled_witness :
  let s := Example.state (getBlockVersion Example2.bad 33 Example2.vm0) in
  let s' := Example.state (compile (host := Example2.host) 4194304 s) in
  compile (host := Example2.host) 4194304 s = Throw (Err.UnknownOpcode "frob") s' /\
  versions s' !! 4194304 = Some (mkBlockVersion (codeHeapAlloc s) 0 34 33) /\
  ensureCompiled (host := Example2.host) 4194304 s' = Ok () s'.
Proof.
  intros s s'.
  assert (getBlockVersion Example2.bad 33 Example2.vm0 = Ok 4194304 s)
    as Hg by closed.
  assert (compile (host := Example2.host) 4194304 s
          = Throw (Err.UnknownOpcode "frob") s') as Hc by closed.
  destruct (compile_throw_marks_compiled (host := Example2.host)
              4194304 (mkBlockVersion 0 0 34 33)
              [("instrs"%string, Val.arr 32)] 32 [Val.obj 30; Val.obj 31]
              s _ s'
              (proj1 (respects_Ok Strong _ _ _ _
                        (getBlockVersion_strong Example2.bad 33) Hg
                        (Inv_initInterp 4096 2097152 4194304 Example2.image
                           ltac:(closed))))
              ltac:(closed) ltac:(closed) ltac:(closed) ltac:(closed)
              ltac:(discriminate) Hc)
    as (H1 & _ & H3).
  exact (conj Hc (conj H1 H3)).
Defined.

Lemma ensureCompiled_idempotent_witness :
  let s := Example.after 2 Example.main2 in
  let s1 := Example.state (ensureCompiled (host := Example.host) 4194352 s) in
  ensureCompiled (host := Example.host) 4194352 s1 = Ok () s1.
Proof.
  intros s s1.
  exact (proj1 (ensureCompiled_idempotent (host := Example.host) 4194352 s s1
                  (Inv_after 2 Example.main2 0 ltac:(closed) ltac:(closed))
                  ltac:(closed))).
Defined.

Lemma getBlockVersion_again_witness :
  let s1 := Example.state (getBlockVersion 24 23 Example.vm0) in
  getBlockVersion 24 23 s1 = Ok 4194304 s1 /\
  getBlockVersion 42 23 s1 = Halt AssertFailed.
Proof.
  intros s1.
  destruct (getBlockVersion_again 24 23 Example.vm0 4194304 s1 ltac:(closed))
    as (H1 & _ & _ & H4).
  exact (conj H1 (H4 42 ltac:(closed))).
Defined.

Lemma compile_errors_witness :
  let s := Example.state (getBlockVersion Example2.bad 33 Example2.vm0) in
  let e := Err.UnknownOpcode "frob" in
  e = Err.EmptyBlock \/ (exists n, e = Err.MissingField n) \/
  (exists op, e = Err.UnknownOpcode op).
Proof.
  intros s e.
  exact (compile_errors (host := Example2.host) 4194304 s e
           (Example.state (compile (host := Example2.host) 4194304 s))
           ltac:(closed)).
Defined.

Lemma step_errors_witness :
  let e := Err.StackUnderflow in
  (exists op, e = Err.IndexOutOfBounds op) \/
  (exists n, e = Err.InvalidFieldName n) \/
  (exists n, e = Err.GetFieldMissing n) \/
  e = Err.StackUnderflow \/ e = Err.InvalidCallee \/
  (exists pos numArgs numParams, e = Err.ArgCount pos numArgs numParams) \/
  e = Err.NotEnoughLocals \/
  e = Err.EmptyBlock \/ (exists n, e = Err.MissingField n) \/
  (exists op, e = Err.UnknownOpcode op) \/
  (exists pkg h h', import (Host := Example.host) pkg h = HostThrow e h') \/
  (exists f args h h',
     hostFnCall (Host := Example.host) f args h = HostThrow e h').
Proof.
  intros e.
  exact (step_errors (host := Example.host)
           (Example.after 1 Example.main8) e
           (Example.state (step (host := Example.host)
                             (Example.after 1 Example.main8)))
           ltac:(closed)).
Defined.

Lemma getSrcPos_last_witness :
  let s := Example2.after 2 Example2.srcpos in
  code s !! instrPtr s = Some (COp CALL) /\
  getSrcPos (instrPtr s) s = Ok (Val.obj 23) s.
Proof.
  intros s. split; [closed|].
  assert (unplaced s (Val.obj 93)) as H1.
  { split; [reflexivity|].
    exists [("op"%string, Val.str 1); ("val"%string, Val.obj 92)].
    split; closed. }
  assert (unplaced s (Val.obj 94)) as H2.
  { split; [reflexivity|].
    exists [("op"%string, Val.str 3); ("num_args"%string, Val.int32 1);
            ("ret_to"%string, Val.obj 22)].
    split; closed. }
  exact (getSrcPos_last (instrPtr s) 4194304
           (mkBlockVersion 4096 4144 97 96)
           [("instrs"%string, Val.arr 95)] 95 [] (Val.obj 91)
           [("op"%string, Val.str 1); ("val"%string, Val.int32 5);
            ("src_pos"%string, Val.obj 23)]
           (Val.obj 23) [Val.obj 93; Val.obj 94] s
           ltac:(closed) ltac:(closed) ltac:(closed) ltac:(closed)
           ltac:(closed) ltac:(closed) ltac:(closed) ltac:(closed)
           (Forall_cons_2 _ _ _ H1 (Forall_cons_2 _ _ _ H2 (Forall_nil_2 _)))).
Defined.

Lemma host_call_too_many_args_witness :
  step (host := Example2.host) (Example2.after 5 Example2.hostcall4)
    = Halt AssertFailed.
Proof.
  exact (host_call_too_many_args (host := Example2.host)
           (Example2.after 5 Example2.hostcall4) 4 4194352
           ltac:(closed) ltac:(closed) ltac:(closed) ltac:(closed)
           ltac:(closed) ltac:(closed) ltac:(closed) ltac:(closed)).
Defined.

Lemma host_call_witness :
  let s := Example2.after 3 Example2.hostcall2 in
  let t := Example2.after 1 Example2.hostthrow in
  (exists s2 bv,
     step (host := Example2.host) s = Ok None (set_instrPtr (startPtr bv) s2) /\
     stackPtr s2 = stackPtr s + 2 /\
     stackAt s2 (stackPtr s2) = Val.int32 10) /\
  step (host := Example2.host) t
    = Throw (mkRunError "host function failed")
        (set_heap (heap t)
           (set_stackPtr (stackPtr t + 1) (set_instrPtr (instrPtr t + 12) t))).
Proof.
  intros s t. split.
  - pose (s1 := set_stackPtr (stackPtr s + 1) (set_instrPtr (instrPtr s + 12) s)).
    pose (s2 := Example.state
      (ensureCompiled (host := Example2.host) 4194352
         (set_stack (<[stackPtr s + 2 := Val.int32 10]> (stack s))
            (set_stackPtr (stackPtr s + 2) (set_heap (heap s) s1))))).
    destruct (proj2 (host_call (host := Example2.host) s 2 4194352
                       ltac:(closed) ltac:(closed) ltac:(closed)
                       ltac:(closed) ltac:(closed) ltac:(closed)
                       ltac:(closed) ltac:(closed) ltac:(closed))
                (Val.int32 10) (heap s) s2 ltac:(closed) ltac:(closed))
      as (bv & _ & Hstep & Hsp & Hv & _).
    exact (ex_intro _ s2 (ex_intro _ bv (conj Hstep (conj Hsp Hv)))).
  - exact (proj1 (host_call (host := Example2.host) t 0 4194352
                    ltac:(closed) ltac:(closed) ltac:(closed)
                    ltac:(closed) ltac:(closed) ltac:(closed)
                    ltac:(closed) ltac:(closed) ltac:(closed))
             (mkRunError "host function failed") (heap t) ltac:(closed)).
Defined.

Lemma get_elem_bounds_witness :
  let s := Example2.after 2 Example2.getelem in
  let t := Example2.after 2 Example2.getelem_neg in
  (exists val, [Val.int32 7; Val.int32 8; Val.int32 9] !! Z.to_nat 1 = Some val /\
     step (host := Example2.host) s = Ok None
       (set_stack (<[stackPtr s + 1 := val]> (stack s))
          (set_stackPtr (stackPtr s + 1) (set_instrPtr (instrPtr s + 2) s)))) /\
  step (host := Example2.host) t
    = Throw (Err.IndexOutOfBounds "get_elem")
        (set_stackPtr (stackPtr t + 2) (set_instrPtr (instrPtr t + 2) t)).
Proof.
  intros s t. split.
  - exact (proj2 (get_elem_bounds (host := Example2.host) s 1 60
                    [Val.int32 7; Val.int32 8; Val.int32 9]
                    ltac:(closed) ltac:(closed) ltac:(closed) ltac:(closed)
                    ltac:(closed) ltac:(closed) ltac:(closed) ltac:(closed)
                    ltac:(closed))
             ltac:(closed)).
  - assert (-1 < 0) as Hneg by closed.
    exact (proj1 (get_elem_bounds (host := Example2.host) t (-1) 60
                    [Val.int32 7; Val.int32 8; Val.int32 9]
                    ltac:(closed) ltac:(closed) ltac:(closed) ltac:(closed)
                    ltac:(closed) ltac:(closed) ltac:(closed) ltac:(closed)
                    ltac:(closed))
             (or_introl Hneg)).
Defined.

Lemma set_elem_bounds_witness :
  let s := Example2.after 3 Example2.setelem in
  step (host := Example2.host) s = Ok None
    (set_heap
       (Runtime.update 60
          (HArray (<[Z.to_nat 1 := Val.int32 42]>
                     [Val.int32 7; Val.int32 8; Val.int32 9])) (heap s))
       (set_stackPtr (stackPtr s + 3) (set_instrPtr (instrPtr s + 2) s))).
Proof.
  intros s.
  exact (proj2 (set_elem_bounds (host := Example2.host) s (Val.int32 42) 1 60
                  [Val.int32 7; Val.int32 8; Val.int32 9]
                  ltac:(closed) ltac:(closed) ltac:(closed) ltac:(closed)
                  ltac:(closed) ltac:(closed) ltac:(closed) ltac:(closed)
                  ltac:(closed) ltac:(closed))
           ltac:(closed)).
Defined.

Lemma int32_op_wrong_tag_witness :
  step (host := Example2.host) (Example2.after 2 Example2.addbad)
    = Halt AssertFailed.
Proof.
  exact (int32_op_wrong_tag (host := Example2.host)
           (Example2.after 2 Example2.addbad) ADD_I32
           (list_elem_of_here _ _)
           ltac:(closed) ltac:(closed) ltac:(closed) ltac:(closed)).
Defined.

Lemma set_local_get_local_witness :
  let s := Example2.after 1 Example2.locals in
  exists s2,
    run (H := Example2.host) 2 s = Some s2 /\
    stackPtr s2 = stackPtr s /\
    stackAt s2 (stackPtr s2) = stackAt s (stackPtr s) /\
    stackAt s2 (framePtr s - 0) = stackAt s (stackPtr s).
Proof.
  intros s.
  destruct (set_local_get_local (host := Example2.host) s 0
              ltac:(closed) ltac:(closed) ltac:(closed) ltac:(closed)
              ltac:(closed) ltac:(closed) ltac:(closed))
    as (s2 & Hr & Hsp & _ & _ & Hv & Hl).
  exact (ex_intro _ s2 (conj Hr (conj Hsp (conj Hv Hl)))).
Defined.

Lemma callFun_frame_witness :
  let s := Example.vm0 in
  let s1 := Example.state
    (callFunEnter (host := Example.host) 33 [Val.int32 9] s) in
  framePtr s1 = stackPtr s - 2 /\
  stackPtr s1 = stackPtr s - 1 - 1 - 3 /\
  stackAt s1 (stackPtr s - 1) = Val.rawptr (instrPtr s) /\
  stackAt s1 (stackPtr s1) = Val.rawptr 0 /\
  (forall k arg, [Val.int32 9] !! k = Some arg ->
     stackAt s1 (framePtr s1 - Z.of_nat k) = arg).
Proof.
  intros s s1.
  destruct (callFun_frame (host := Example.host) 33 [Val.int32 9] s 0 s1 1 1
              ltac:(closed) ltac:(closed) ltac:(closed) ltac:(closed))
    as (_ & H2 & H3 & H4 & H5 & _ & _ & H8 & _).
  exact (conj H2 (conj H3 (conj H4 (conj H5 H8)))).
Defined.

Lemma callFun_restores_witness :
  let s := Example.vm0 in
  exists s4,
    callFun (host := Example.host) 10 33 [Val.int32 9] s = Ok (Val.int32 9) s4 /\
    stackPtr s4 = stackPtr s /\ framePtr s4 = framePtr s /\
    instrPtr s4 = instrPtr s.
Proof.
  intros s.
  pose (s1 := Example.state
    (callFunEnter (host := Example.host) 33 [Val.int32 9] s)).
  pose (s2 := Example.state (step (host := Example.host) s1)).
  assert (forall a, a = stackPtr s - 1 \/ stackPtr s1 <= a < stackPtr s1 + 3 ->
            stackAt s2 a = stackAt s1 a) as Hsaved.
  { intros a Ha. unfold stackAt.
    replace (stack s2) with (<[stackPtr s1 - 1 := Val.int32 9]> (stack s1))
      by closed.
    apply (f_equal (default Val.FALSE)), lookup_insert_ne.
    replace (stackPtr s1) with 2162683 in * by closed.
    replace (stackPtr s) with 2162688 in * by closed. lia. }
  destruct (callFun_restores (host := Example.host) 10 33 [Val.int32 9]
              s 0 s1 1 s2 1 1
              ltac:(closed) ltac:(closed) ltac:(closed) ltac:(closed)
              ltac:(closed) ltac:(closed) ltac:(vm_compute; lia)
              ltac:(closed) ltac:(closed) ltac:(closed) ltac:(closed)
              ltac:(closed) ltac:(closed) Hsaved)
    as (s4 & Hc & Hsp & Hfp & Hip & _).
  replace (stackAt s2 (stackPtr s2)) with (Val.int32 9) in Hc by closed.
  exact (ex_intro _ s4 (conj Hc (conj Hsp (conj Hfp Hip)))).
Defined.

Lemma callFun_bad_arity_witness :
  callFun (host := Example.host) 10 33 [Val.int32 9; Val.int32 8] Example.vm0
    = Halt AssertFailed.
Proof.
  assert (to_size_t 1 < Z.of_nat (length [Val.int32 9; Val.int32 8])) as H
    by closed.
  exact (callFun_bad_arity (host := Example.host) 10 33
           [Val.int32 9; Val.int32 8] Example.vm0 1 1
           ltac:(closed) ltac:(closed) (or_introl H)).
Defined.

Lemma callExportFn_cases_witness :
  callExportFn (host := Example2.host) 10 Example2.pkg "nope" [] Example2.vm0
    = Throw (Err.MissingExport "nope") Example2.vm0 /\
  callExportFn (host := Example2.host) 10 Example2.pkg "version" [] Example2.vm0
    = Throw (Err.ExportNotFunction "version") Example2.vm0 /\
  callExportFn (host := Example2.host) 10 Example2.pkg "main" [] Example2.vm0
    = callFun (host := Example2.host) 10 Example2.locals [] Example2.vm0.
Proof.
  pose (fs := [("main"%string, Val.obj 90); ("version"%string, Val.int32 1)]).
  assert (Runtime.getObject (heap Example2.vm0) Example2.pkg = Some fs)
    as Hfs by closed.
  split; [|split].
  - exact (proj1 (callExportFn_cases (host := Example2.host) 10 Example2.pkg
                    "nope" [] Example2.vm0 fs Hfs) ltac:(closed)).
  - exact (proj1 (proj2 (callExportFn_cases (host := Example2.host) 10
                           Example2.pkg "version" [] Example2.vm0 fs Hfs))
             (Val.int32 1) ltac:(closed) ltac:(closed)).
  - exact (proj2 (proj2 (callExportFn_cases (host := Example2.host) 10
                           Example2.pkg "main" [] Example2.vm0 fs Hfs))
             90 ltac:(closed)).
Defined.

Lemma loop_keeps_compiled_witness :
  versions (Example.after 5 Example.main2) !! 4194304
    = Some (mkBlockVersion 4096 4144 42 38).
Proof.
  assert (4096 ≠ 0) as Hne by closed.
  exact (loop_keeps_compiled (host := Example.host) 3
           (Example.after 2 Example.main2) (Example.after 5 Example.main2)
           4194304 (mkBlockVersion 4096 4144 42 38)
           (Inv_after 2 Example.main2 0 ltac:(closed) ltac:(closed))
           ltac:(closed) ltac:(closed) Hne).
Defined.

